(** * TinyLSMTree: manifest log and engine write path

    A shallow embedding of the manifest log ([file] package: [ManifestFile],
    [Manifest], replay, append and rewrite) and of the engine's write
    surface ([lsm] package: [Set], [Get], [recovery]), with the properties
    of the specification stated over it. *)

From Stdlib Require Import ZArith Lia DecimalString DecimalN.
From Stdlib Require Import Strings.Byte.
From stdpp Require Import gmap strings list fin_maps sorting.

Local Open Scope Z_scope.

(** ** Go values *)

#[global] Instance byte_eq_dec : EqDecision byte := Byte.byte_eq_dec.

(** Go's [int] and [int64]: 64-bit two's complement. *)
Definition wrap_int (z : Z) : Z := (z + 2 ^ 63) mod 2 ^ 64 - 2 ^ 63.
Definition wrap_uint8 (z : Z) : Z := z mod 2 ^ 8.
Definition wrap_uint32 (z : Z) : Z := z mod 2 ^ 32.
Definition wrap_uint64 (z : Z) : Z := z mod 2 ^ 64.

(** [len] of a slice or map, as an [int]. *)
Definition len {A} (l : list A) : Z := Z.of_nat (length l).

Inductive ioop :=
  OpOpen | OpWrite | OpSync | OpClose | OpRename | OpSeek | OpTruncate.

(** The error values the code produces or passes on. *)
Inductive error :=
| ErrBadMagic
| ErrNotSupportManifestVersion
| ErrBadChecksum
| ErrManifestHasWrongOp
| ErrReWriteFailure
| ErrTableExists (id : Z)            (* "MANIFEST invalid, table %d exists" *)
| ErrRemovesNonExisting (id : Z)     (* "MANIFEST removes non-existing table %d" *)
| io_EOF
| io_ErrUnexpectedEOF
| os_ErrNotExist
| os_ErrClosed
| ErrSyscall (op : ioop)
| strconv_ErrSyntax
| strconv_ErrRange
| ErrCodec (code : Z)                (* protobuf Marshal / Unmarshal *)
| ErrExternal (code : Z).            (* WAL, skip list, level manager *)

#[global] Instance ioop_eq_dec : EqDecision ioop.
Proof. solve_decision. Defined.
#[global] Instance error_eq_dec : EqDecision error.
Proof. solve_decision. Defined.

(** A Go call returning [(T, error)], or panicking. *)
Inductive result (A : Type) :=
| Ok (a : A)
| Err (e : error)
| Panic.
Arguments Ok {A} a.
Arguments Err {A} e.
Arguments Panic {A}.

(** ** Protobuf messages of the manifest ([lsm/pb]) *)

Module pb.
Inductive ManifestChange_Operation :=
| ManifestChange_CREATE
| ManifestChange_DELETE
| ManifestChange_Other (tag : Z).

Record ManifestChange := {
  Id : Z;                             (* uint64 *)
  Op : ManifestChange_Operation;
  Level : Z;                          (* uint32 *)
  Checksum : list byte
}.

Record ManifestChangeSet := { Changes : list ManifestChange }.
End pb.

(** ** The in-memory manifest *)

Record TableManifest := {
  Level : Z;                            (* uint8 *)
  Checksum : list byte
}.

Record levelManifest := { level_Tables : gset Z }.

Record Manifest := {
  Levels : list levelManifest;
  Tables : gmap Z TableManifest;
  Creations : Z;
  Deletions : Z
}.

Record TableMeta := { ID : Z; meta_Checksum : list byte }.

Definition createNewManifest : Manifest :=
  {| Levels := []; Tables := ∅; Creations := 0; Deletions := 0 |}.

Definition newCreateChange (sstId : Z) (level : Z) (checksum : list byte)
  : pb.ManifestChange :=
  {| pb.Id := sstId;
     pb.Op := pb.ManifestChange_CREATE;
     pb.Level := wrap_uint32 level;
     pb.Checksum := checksum |}.

Definition emptyLevel : levelManifest := {| level_Tables := ∅ |}.

(** [for len(mf.Levels) <= int(change.Level) { mf.Levels = append(...) }];
    the loop runs at most [level + 1] times. *)
Fixpoint extendLevels (fuel : nat) (levels : list levelManifest) (level : Z)
  : list levelManifest :=
  match fuel with
  | O => levels
  | S fuel' =>
      if len levels <=? level
      then extendLevels fuel' (levels ++ [emptyLevel]) level
      else levels
  end.

Definition level_add (id : Z) (lm : levelManifest) : levelManifest :=
  {| level_Tables := {[id]} ∪ level_Tables lm |}.

Definition level_remove (id : Z) (lm : levelManifest) : levelManifest :=
  {| level_Tables := level_Tables lm ∖ {[id]} |}.

(** [applyManifestChange] mutates [mf] in place and returns an error; the
    model returns the manifest as the call leaves it. Indexing [mf.Levels]
    out of range panics. *)
Definition applyManifestChange (mf : Manifest) (change : pb.ManifestChange)
  : Manifest * result unit :=
  match pb.Op change with
  | pb.ManifestChange_CREATE =>
      match Tables mf !! pb.Id change with
      | Some _ => (mf, Err (ErrTableExists (pb.Id change)))
      | None =>
          let tables :=
            <[pb.Id change :=
                {| Level := wrap_uint8 (pb.Level change);
                   Checksum := pb.Checksum change |}]> (Tables mf) in
          let levels :=
            extendLevels (Z.to_nat (pb.Level change + 1)) (Levels mf)
                         (pb.Level change) in
          match levels !! Z.to_nat (pb.Level change) with
          | None =>
              ({| Levels := levels; Tables := tables;
                  Creations := Creations mf; Deletions := Deletions mf |},
               Panic)
          | Some _ =>
              ({| Levels := alter (level_add (pb.Id change))
                                  (Z.to_nat (pb.Level change)) levels;
                  Tables := tables;
                  Creations := wrap_int (Creations mf + 1);
                  Deletions := Deletions mf |}, Ok tt)
          end
      end
  | pb.ManifestChange_DELETE =>
      match Tables mf !! pb.Id change with
      | None => (mf, Err (ErrRemovesNonExisting (pb.Id change)))
      | Some tm =>
          match Levels mf !! Z.to_nat (Level tm) with
          | None => (mf, Panic)
          | Some _ =>
              ({| Levels := alter (level_remove (pb.Id change))
                                  (Z.to_nat (Level tm)) (Levels mf);
                  Tables := delete (pb.Id change) (Tables mf);
                  Creations := Creations mf;
                  Deletions := wrap_int (Deletions mf + 1) |}, Ok tt)
          end
      end
  | pb.ManifestChange_Other _ => (mf, Err ErrManifestHasWrongOp)
  end.

(** [for _, change := range changeSet.Changes]: stops at the first error. *)
Fixpoint applyChanges (mf : Manifest) (changes : list pb.ManifestChange)
  : Manifest * result unit :=
  match changes with
  | [] => (mf, Ok tt)
  | change :: rest =>
      match applyManifestChange mf change with
      | (mf', Ok _) => applyChanges mf' rest
      | (mf', Err e) => (mf', Err e)
      | (mf', Panic) => (mf', Panic)
      end
  end.

Definition applyChangeSet (mf : Manifest) (changeSet : pb.ManifestChangeSet)
  : Manifest * result unit :=
  applyChanges mf (pb.Changes changeSet).

(** ** Bytes and big-endian words ([encoding/binary]) *)

Definition byte_to_Z (b : byte) : Z := Z.of_N (Byte.to_N b).

(** [byte(v)]: the low 8 bits. *)
Definition byte_of_Z (v : Z) : byte :=
  default x00 (Byte.of_N (Z.to_N (v mod 256))).

(** [binary.BigEndian.PutUint32(b, v)] *)
Definition PutUint32 (v : Z) : list byte :=
  [byte_of_Z (Z.shiftr v 24); byte_of_Z (Z.shiftr v 16);
   byte_of_Z (Z.shiftr v 8); byte_of_Z v].

(** [binary.BigEndian.Uint32(b)] *)
Definition Uint32 (b : list byte) : Z :=
  match b with
  | b0 :: b1 :: b2 :: b3 :: _ =>
      Z.lor (Z.lor (Z.lor (byte_to_Z b3) (Z.shiftl (byte_to_Z b2) 8))
                   (Z.shiftl (byte_to_Z b1) 16))
            (Z.shiftl (byte_to_Z b0) 24)
  | _ => 0
  end.

(** ** Constants ([utils]) *)

Definition ManifestFilename : string := "MANIFEST".
Definition ManifestRewriteFilename : string := "REWRITEMANIFEST".
Definition ManifestDeletionsRewriteThreshold : Z := 10000.
Definition ManifestDeletionsRatio : Z := 10.
Definition MagicText : list byte := [x57; x49; x4e; x21].  (* 'W' 'I' 'N' '!' *)
Definition MagicVersion : Z := 1.

(** ** The working directory, open files and the [os] calls

    The file system is the content of the one working directory, keyed by
    file name, with the table of open descriptors. Each system call takes
    the next entry of [fs_faults] and fails when it is [true] (an empty
    list: no failure). Reads through an open descriptor do not fail. *)

Record OpenFlag := { O_CREATE : bool; O_APPEND : bool }.
Definition O_RDWR : OpenFlag := {| O_CREATE := false; O_APPEND := false |}.
(** [os.O_RDWR | os.O_CREATE | os.O_APPEND] *)
Definition DefaultFileFlag : OpenFlag := {| O_CREATE := true; O_APPEND := true |}.

Record descriptor := {
  d_name : string;
  d_offset : nat;
  d_append : bool
}.

(** [*os.File] *)
Definition os_File := nat.

Record FileSys := {
  fs_files : gmap string (list byte);
  fs_open : gmap nat descriptor;
  fs_next : nat;
  fs_faults : list bool
}.

Definition no_faults (fs : FileSys) : FileSys :=
  {| fs_files := fs_files fs; fs_open := fs_open fs;
     fs_next := fs_next fs; fs_faults := [] |}.

Definition IO (A : Type) : Type := FileSys -> FileSys * result A.

#[global] Instance IO_ret : MRet IO := fun A a fs => (fs, Ok a).

#[global] Instance IO_bind : MBind IO := fun A B k m fs =>
  match m fs with
  | (fs', Ok a) => k a fs'
  | (fs', Err e) => (fs', Err e)
  | (fs', Panic) => (fs', Panic)
  end.

Definition io_fail {A} (e : error) : IO A := fun fs => (fs, Err e).
Definition io_panic {A} : IO A := fun fs => (fs, Panic).

Definition io_of {A} (r : error + A) : IO A :=
  match r with
  | inl e => io_fail e
  | inr a => mret a
  end.

(** [if err != nil { cleanup; return err }] *)
Definition on_error {A} (m : IO A) (cleanup : IO unit) : IO A := fun fs =>
  match m fs with
  | (fs', Err e) => (fst (cleanup fs'), Err e)
  | r => r
  end.

Definition syscall (op : ioop) : IO unit := fun fs =>
  match fs_faults fs with
  | true :: rest =>
      ({| fs_files := fs_files fs; fs_open := fs_open fs;
          fs_next := fs_next fs; fs_faults := rest |}, Err (ErrSyscall op))
  | false :: rest =>
      ({| fs_files := fs_files fs; fs_open := fs_open fs;
          fs_next := fs_next fs; fs_faults := rest |}, Ok tt)
  | [] => (fs, Ok tt)
  end.

Definition set_files (files : gmap string (list byte)) : IO unit := fun fs =>
  ({| fs_files := files; fs_open := fs_open fs;
      fs_next := fs_next fs; fs_faults := fs_faults fs |}, Ok tt).

Definition set_open (open : gmap nat descriptor) : IO unit := fun fs =>
  ({| fs_files := fs_files fs; fs_open := open;
      fs_next := fs_next fs; fs_faults := fs_faults fs |}, Ok tt).

Definition new_descriptor (d : descriptor) : IO os_File := fun fs =>
  ({| fs_files := fs_files fs; fs_open := <[fs_next fs := d]> (fs_open fs);
      fs_next := S (fs_next fs); fs_faults := fs_faults fs |}, Ok (fs_next fs)).

Definition get_files : IO (gmap string (list byte)) := fun fs => (fs, Ok (fs_files fs)).
Definition get_open : IO (gmap nat descriptor) := fun fs => (fs, Ok (fs_open fs)).

(** The descriptor behind an open file; a closed file gives [os.ErrClosed]. *)
Definition descriptor_of (f : os_File) : IO descriptor := fun fs =>
  match fs_open fs !! f with
  | Some d => (fs, Ok d)
  | None => (fs, Err os_ErrClosed)
  end.

Definition content_of (name : string) (op : ioop) : IO (list byte) := fun fs =>
  match fs_files fs !! name with
  | Some c => (fs, Ok c)
  | None => (fs, Err (ErrSyscall op))
  end.

(** [os.OpenFile(path, flag, perm)]: without [O_CREATE] a missing file is
    [ErrNotExist]; with it the file is created empty; an existing file keeps
    its content (no flag of this program truncates). *)
Definition os_OpenFile (name : string) (flag : OpenFlag) : IO os_File :=
  _ ← syscall OpOpen;
  files ← get_files;
  let d := {| d_name := name; d_offset := 0; d_append := O_APPEND flag |} in
  match files !! name with
  | Some _ => new_descriptor d
  | None =>
      if O_CREATE flag
      then _ ← set_files (<[name := []]> files); new_descriptor d
      else io_fail os_ErrNotExist
  end.

Definition os_IsNotExist (err : error) : bool := bool_decide (err = os_ErrNotExist).

(** Bytes [b] written at position [pos] of [content]. *)
Definition write_at (pos : nat) (b content : list byte) : list byte :=
  take pos content ++ replicate (pos - length content) x00 ++ b
  ++ drop (pos + length b) content.

(** [file.Write(b)]: at the end of the file under [O_APPEND], else at the
    descriptor's offset. *)
Definition file_Write (f : os_File) (b : list byte) : IO unit :=
  d ← descriptor_of f;
  _ ← syscall OpWrite;
  content ← content_of (d_name d) OpWrite;
  files ← get_files;
  open ← get_open;
  let pos := if d_append d then length content else d_offset d in
  _ ← set_files (<[d_name d := write_at pos b content]> files);
  set_open (<[f := {| d_name := d_name d; d_offset := (pos + length b)%nat;
                      d_append := d_append d |}]> open).

Definition file_Sync (f : os_File) : IO unit :=
  _ ← descriptor_of f;
  syscall OpSync.

(** [file.Close()]: the descriptor is released even when the call reports
    an error. *)
Definition file_Close (f : os_File) : IO unit :=
  _ ← descriptor_of f;
  open ← get_open;
  _ ← set_open (delete f open);
  syscall OpClose.

(** [file.Truncate(size)] *)
Definition file_Truncate (f : os_File) (size : Z) : IO unit :=
  d ← descriptor_of f;
  _ ← syscall OpTruncate;
  content ← content_of (d_name d) OpTruncate;
  files ← get_files;
  if size <? 0 then io_fail (ErrSyscall OpTruncate) else
  set_files (<[d_name d := take (Z.to_nat size) content
                           ++ replicate (Z.to_nat size - length content) x00]>
               files).

(** [file.Seek(0, io.SeekEnd)] *)
Definition file_SeekEnd (f : os_File) : IO unit :=
  d ← descriptor_of f;
  _ ← syscall OpSeek;
  content ← content_of (d_name d) OpSeek;
  open ← get_open;
  set_open (<[f := {| d_name := d_name d; d_offset := length content;
                      d_append := d_append d |}]> open).

(** [os.Rename(oldpath, newpath)] *)
Definition os_Rename (oldname newname : string) : IO unit :=
  _ ← syscall OpRename;
  content ← content_of oldname OpRename;
  files ← get_files;
  set_files (<[newname := content]> (delete oldname files)).

(** [utils.SyncDir(dir)]: open the directory, sync it, close it; the sync
    error is reported before the close error. *)
Definition SyncDir : IO unit := fun fs =>
  match syscall OpOpen fs with
  | (fs, Err e) => (fs, Err e)
  | (fs, Panic) => (fs, Panic)
  | (fs, Ok _) =>
      let '(fs, err) := syscall OpSync fs in
      let '(fs, closeErr) := syscall OpClose fs in
      match err with
      | Err e => (fs, Err e)
      | _ => (fs, closeErr)
      end
  end.

(** ** Strings ([strings], [strconv], [fmt], [path/filepath]) *)

Definition walFileExt : string := ".wal".

Definition strings_HasSuffix (s suffix : string) : bool :=
  (String.length suffix <=? String.length s)%nat
  && bool_decide (String.substring (String.length s - String.length suffix)
                                   (String.length suffix) s = suffix).

(** [strconv.ParseUint(s, 10, 64)]: decimal digits only, at least one, and
    a value below 2^64. *)
Definition strconv_ParseUint (s : string) : error + Z :=
  match NilZero.uint_of_string s with
  | None => inl strconv_ErrSyntax
  | Some d =>
      let n := Z.of_N (N.of_uint d) in
      if n <? 2 ^ 64 then inr n else inl strconv_ErrRange
  end.

(** [fmt.Sprintf("%05d", fid)] for a uint64. *)
Definition Sprintf_05d (fid : Z) : string :=
  let digits := NilZero.string_of_uint (N.to_uint (Z.to_N fid)) in
  String.concat "" (replicate (5 - String.length digits) "0") +:+ digits.

(** [c == ch] for a byte of a string and a character literal. *)
Definition is_char (c : Ascii.ascii) (ch : string) : bool :=
  bool_decide (String c EmptyString = ch).

(** [strings.Split(s, "/")] *)
Fixpoint splitSlash (s : string) : list string :=
  match s with
  | EmptyString => [EmptyString]
  | String c rest =>
      if is_char c "/" then EmptyString :: splitSlash rest
      else match splitSlash rest with
           | e :: es => String c e :: es
           | [] => [String c EmptyString]
           end
  end.

(** One path element in [filepath.Clean]; [stack] holds the elements kept
    so far, the last one first. Empty elements (doubled or trailing
    slashes) and [.] are dropped; [..] removes the element before it,
    stays at the start of a relative path and is dropped at the root. *)
Definition cleanElement (rooted : bool) (stack : list string) (e : string)
  : list string :=
  if bool_decide (e = "") || bool_decide (e = ".") then stack
  else if bool_decide (e = "..") then
    match stack with
    | top :: below => if bool_decide (top = "..") then e :: stack else below
    | [] => if rooted then [] else [e]
    end
  else e :: stack.

(** [filepath.Clean(path)] with [/] as separator: the shortest path that
    names the same file by lexical processing; [.] for the empty path. *)
Definition filepath_Clean (path : string) : string :=
  let rooted := match path with
                | String c _ => is_char c "/"
                | EmptyString => false
                end in
  let stack := foldl (cleanElement rooted) [] (splitSlash path) in
  let out := (if rooted then "/" else "") +:+ String.concat "/" (reverse stack) in
  if bool_decide (out = "") then "." else out.

(** [filepath.Join(dir, name)]: empty elements are ignored, the others
    are joined by [/] and the result is cleaned. *)
Definition filepath_Join (dir name : string) : string :=
  if negb (bool_decide (dir = "")) then filepath_Clean (dir +:+ "/" +:+ name)
  else if negb (bool_decide (name = "")) then filepath_Clean name
  else "".

(** [filePath(dir, fid)] of the [lsm] package: the WAL file of [fid]. *)
Definition filePath (dir : string) (fid : Z) : string :=
  filepath_Join dir (Sprintf_05d fid +:+ walFileExt).

(** [osFile.FileOption] *)
Record FileOption := {
  FID : Z;
  FileName : string;
  WorkDir : string;
  Flag : OpenFlag;
  MaxSz : Z
}.

(** ** The engine's data ([lsm] package)

    [WalFile] and [SkipList] are the handles [*file.WalFile] and
    [*utils.SkipList]; [LevelState] is what the level manager holds beside
    [maxFID]. *)

Record lsmOptions := {
  opt_WorkDir : string;
  MemTableSize : Z
}.

Record memTable (WalFile SkipList : Type) := {
  wal : WalFile;
  sl : SkipList;
  maxVersion : Z
}.
Arguments wal {WalFile SkipList} _.
Arguments sl {WalFile SkipList} _.
Arguments maxVersion {WalFile SkipList} _.

Record levelManager (LevelState : Type) := {
  maxFID : Z;                           (* uint64 *)
  level_state : LevelState
}.
Arguments maxFID {LevelState} _.
Arguments level_state {LevelState} _.

Record LSM (WalFile SkipList LevelState : Type) := {
  lsm_memTable : memTable WalFile SkipList;
  lsm_immutables : list (memTable WalFile SkipList);
  lsm_levels : levelManager LevelState;
  lsm_option : lsmOptions
}.
Arguments lsm_memTable {WalFile SkipList LevelState} _.
Arguments lsm_immutables {WalFile SkipList LevelState} _.
Arguments lsm_levels {WalFile SkipList LevelState} _.
Arguments lsm_option {WalFile SkipList LevelState} _.

(** ** Reference collaborators

    A small world to run the engine on: WAL files and skip lists are lists
    of entries, an entry is a key with its version, a flush appends a table
    and fails when the next entry of [rw_flush_faults] says so. *)

Definition RefEntry : Type := list byte * Z.

Record RefWorld := {
  rw_wal : gmap Z (list RefEntry);
  rw_sl : gmap nat (list RefEntry);
  rw_tables : list (list RefEntry);
  rw_flush_faults : list bool;
  rw_dir : list string
}.

Definition ref_OpenWalFile (opt : FileOption) (w : RefWorld) : RefWorld * Z :=
  ({| rw_wal := <[FID opt := default [] (rw_wal w !! FID opt)]> (rw_wal w);
      rw_sl := rw_sl w; rw_tables := rw_tables w;
      rw_flush_faults := rw_flush_faults w; rw_dir := rw_dir w |}, FID opt).

Definition ref_wal_FID (f : Z) : Z := f.

Definition ref_wal_Size (f : Z) (w : RefWorld) : Z :=
  16 * len (default [] (rw_wal w !! f)).

Definition ref_wal_Write (f : Z) (e : RefEntry) (w : RefWorld)
  : RefWorld * option error :=
  ({| rw_wal := <[f := default [] (rw_wal w !! f) ++ [e]]> (rw_wal w);
      rw_sl := rw_sl w; rw_tables := rw_tables w;
      rw_flush_faults := rw_flush_faults w; rw_dir := rw_dir w |}, None).

Definition ref_wal_Close (f : Z) (w : RefWorld) : RefWorld * option error :=
  (w, None).

Definition ref_wal_Truncate (f : Z) (n : Z) (w : RefWorld)
  : RefWorld * option error := (w, None).

Definition ref_wal_Iterate (f : Z) (w : RefWorld)
  : list RefEntry * Z * option error :=
  (default [] (rw_wal w !! f), ref_wal_Size f w, None).

Definition ref_NewSkipList (sz : Z) (w : RefWorld) : RefWorld * nat :=
  let h := size (rw_sl w) in
  ({| rw_wal := rw_wal w; rw_sl := <[h := []]> (rw_sl w);
      rw_tables := rw_tables w;
      rw_flush_faults := rw_flush_faults w; rw_dir := rw_dir w |}, h).

Definition ref_sl_Add (s : nat) (e : RefEntry) (w : RefWorld)
  : RefWorld * option error :=
  ({| rw_wal := rw_wal w;
      rw_sl := <[s := e :: default [] (rw_sl w !! s)]> (rw_sl w);
      rw_tables := rw_tables w;
      rw_flush_faults := rw_flush_faults w; rw_dir := rw_dir w |}, None).

Definition ref_find (key : list byte) (es : list RefEntry) : option RefEntry :=
  list_find (fun e => fst e = key) es ≫= fun p => Some (snd p).

Definition ref_sl_Search (s : nat) (key : list byte) (w : RefWorld)
  : option RefEntry :=
  ref_find key (default [] (rw_sl w !! s)).

Definition ref_sl_Size (s : nat) (w : RefWorld) : Z :=
  len (default [] (rw_sl w !! s)).

Definition ref_sl_Close (s : nat) (w : RefWorld) : RefWorld * option error :=
  (w, None).

Definition ref_levels_flush (m : memTable Z nat) (levels : levelManager unit)
                            (w : RefWorld)
  : levelManager unit * RefWorld * option error :=
  match rw_flush_faults w with
  | true :: rest =>
      (levels,
       {| rw_wal := rw_wal w; rw_sl := rw_sl w; rw_tables := rw_tables w;
          rw_flush_faults := rest; rw_dir := rw_dir w |},
       Some (ErrExternal 1))
  | faults =>
      (levels,
       {| rw_wal := rw_wal w; rw_sl := rw_sl w;
          rw_tables := default [] (rw_sl w !! sl m) :: rw_tables w;
          rw_flush_faults := tail faults; rw_dir := rw_dir w |},
       None)
  end.

Definition ref_levels_Get (levels : levelManager unit) (key : list byte)
                          (w : RefWorld) : option RefEntry * option error :=
  (ref_find key (concat (rw_tables w)), None).

Definition ref_EstimateWalCodecSize (e : RefEntry) : Z := 16.
Definition ref_ParseTs (e : RefEntry) : Z := snd e.
Definition ref_ReadDir (dir : string) (w : RefWorld) : list string * option error :=
  (rw_dir w, None).

(** ** A reference codec and checksum

    The protobuf codec of [lsm/pb] and Go's [hash/crc32] are parameters of
    the development. The instances below run the model on concrete
    inputs: a codec that writes the bits of stdpp's [encode], one byte per
    bit, and the bitwise CRC-32 with the Castagnoli polynomial. *)

#[global] Instance byte_countable : Countable byte.
Proof.
  refine (inj_countable' Byte.to_N (fun n => default x00 (Byte.of_N n)) _).
  intros b. by rewrite Byte.of_to_N.
Defined.

#[global] Instance Operation_eq_dec : EqDecision pb.ManifestChange_Operation.
Proof. solve_decision. Defined.

#[global] Instance Operation_countable : Countable pb.ManifestChange_Operation.
Proof.
  refine (inj_countable'
    (fun op => match op with
               | pb.ManifestChange_CREATE => inl true
               | pb.ManifestChange_DELETE => inl false
               | pb.ManifestChange_Other tag => inr tag
               end)
    (fun x => match x with
              | inl true => pb.ManifestChange_CREATE
              | inl false => pb.ManifestChange_DELETE
              | inr tag => pb.ManifestChange_Other tag
              end) _).
  by intros [].
Defined.

#[global] Instance ManifestChange_eq_dec : EqDecision pb.ManifestChange.
Proof. solve_decision. Defined.

#[global] Instance ManifestChange_countable : Countable pb.ManifestChange.
Proof.
  refine (inj_countable'
    (fun c => (pb.Id c, pb.Op c, pb.Level c, pb.Checksum c))
    (fun '(id, op, level, checksum) =>
       {| pb.Id := id; pb.Op := op; pb.Level := level; pb.Checksum := checksum |}) _).
  by intros [].
Defined.

Fixpoint bits_of_positive (p : positive) : list byte :=
  match p with
  | xH => []
  | xO q => x00 :: bits_of_positive q
  | xI q => x01 :: bits_of_positive q
  end.

Fixpoint positive_of_bits (b : list byte) : option positive :=
  match b with
  | [] => Some xH
  | x00 :: rest => xO <$> positive_of_bits rest
  | x01 :: rest => xI <$> positive_of_bits rest
  | _ => None
  end.

Definition ref_Marshal (set : pb.ManifestChangeSet) : error + list byte :=
  let buf := bits_of_positive (encode (pb.Changes set)) in
  if len buf <? 2 ^ 32 then inr buf else inl (ErrCodec 1).

Definition ref_Unmarshal (buf : list byte) : error + pb.ManifestChangeSet :=
  match positive_of_bits buf ≫= decode with
  | Some changes => inr {| pb.Changes := changes |}
  | None => inl (ErrCodec 0)
  end.

Definition crc32c_update (crc : Z) (b : byte) : Z :=
  Nat.iter 8
    (fun c => if Z.testbit c 0
              then Z.lxor (Z.shiftr c 1) 2197175160   (* 0x82F63B78 *)
              else Z.shiftr c 1)
    (Z.lxor crc (byte_to_Z b)).

Definition ref_crc32 (buf : list byte) : Z :=
  Z.lxor (fold_left crc32c_update buf 4294967295) 4294967295 mod 2 ^ 32.

(** ** The manifest file *)

Record ManifestFile := {
  file : os_File;
  manifest : Manifest
}.

Record bufReader := {
  reader : list byte;      (* what the buffered reader has yet to deliver *)
  count : Z
}.

(** [io.ReadFull(reader, buf)] for a buffer of [n] bytes: [io.EOF] when no
    byte could be read, [io.ErrUnexpectedEOF] when fewer than [n] were;
    [bufReader.Read] adds every byte read to [count]. *)
Definition io_ReadFull (r : bufReader) (n : nat) : bufReader * result (list byte) :=
  let got := take n (reader r) in
  let r' := {| reader := drop n (reader r); count := count r + len got |} in
  if decide (length got = n) then (r', Ok got)
  else if decide (length got = 0%nat) then (r', Err io_EOF)
  else (r', Err io_ErrUnexpectedEOF).

(** Modelled from the spec: [utils.Panic] and [utils.CondPanic] are not among
    the sources. [CondPanic(condition, err)] is a precondition check that
    panics with [err] when [condition] holds; an absent error never panics
    (the engine calls [utils.Panic] on the result of every successful close,
    and the bootstrap of a fresh store passes a wrapped nil error). The
    value is [true] when the call panics. *)
Definition utils_Panic (err : option error) : bool := bool_decide (is_Some err).
Definition utils_CondPanic (condition : bool) (err : option error) : bool :=
  condition && utils_Panic err.

(** [errors.Wrap(err, message)] of [github.com/pkg/errors]: nil for a nil
    error, else the error with the message as context. *)
Definition errors_Wrap (err : option error) (message : error) : option error :=
  match err with
  | None => None
  | Some e => Some e
  end.

Section TinyLSM.

(** [ManifestChangeSet.Marshal] and [Unmarshal] of [lsm/pb]. *)
Variable Marshal : pb.ManifestChangeSet -> error + list byte.
Variable Unmarshal : list byte -> error + pb.ManifestChangeSet.
(** [crc32.Checksum(buf, utils.CastagnoliCrcTable)], a uint32. *)
Variable crc32_Checksum : list byte -> Z.
(** The order in which [range m.Tables] visits the map; Go leaves it
    unspecified. *)
Variable range_Tables : gmap Z TableManifest -> list (Z * TableManifest).


Definition asChanges (m : Manifest) : list pb.ManifestChange :=
  map (fun '(sstId, tableManifest) =>
         newCreateChange sstId (Level tableManifest) (Checksum tableManifest))
      (range_Tables (Tables m)).

(** A frame: 4-byte length, 4-byte CRC32, payload. *)
Definition lenCrcBuf (buf : list byte) : list byte :=
  PutUint32 (wrap_uint32 (len buf)) ++ PutUint32 (crc32_Checksum buf).

Definition createFileAndRewrite (manifest : Manifest) : IO (os_File * Z) :=
  manifestfile ← os_OpenFile ManifestRewriteFilename DefaultFileFlag;
  let buf := MagicText ++ PutUint32 MagicVersion in
  let netCreations := Z.of_nat (size (Tables manifest)) in
  let changes := asChanges manifest in
  let set := {| pb.Changes := changes |} in
  changeBuf ← on_error (io_of (Marshal set)) (file_Close manifestfile);
  let buf := buf ++ lenCrcBuf changeBuf ++ changeBuf in
  _ ← on_error (file_Write manifestfile buf) (file_Close manifestfile);
  _ ← on_error (file_Sync manifestfile) (file_Close manifestfile);
  _ ← file_Close manifestfile;
  _ ← os_Rename ManifestRewriteFilename ManifestFilename;
  manifestfile ← os_OpenFile ManifestFilename DefaultFileFlag;
  _ ← on_error (file_SeekEnd manifestfile) (file_Close manifestfile);
  _ ← on_error SyncDir (file_Close manifestfile);
  mret (manifestfile, netCreations).

(** The loop of [ReplayManifestFile]; every round consumes the 8 bytes of
    a prefix, so [fuel] above the length of the stream is never used up. *)
Fixpoint replayLoop (fuel : nat) (r : bufReader) (newManifest : Manifest)
  : option (result (Manifest * Z)) :=
  match fuel with
  | O => None
  | S fuel' =>
      let offset := count r in
      match io_ReadFull r 8 with
      | (_, Err err) =>
          if bool_decide (err = io_EOF \/ err = io_ErrUnexpectedEOF)
          then Some (Ok (newManifest, offset))
          else Some (Err err)
      | (_, Panic) => Some Panic
      | (r, Ok lenAndCrcBuf) =>
          let length := Uint32 (take 4 lenAndCrcBuf) in
          match io_ReadFull r (Z.to_nat length) with
          | (_, Err err) => Some (Err err)
          | (_, Panic) => Some Panic
          | (r, Ok changeBuf) =>
              if negb (crc32_Checksum changeBuf =? Uint32 (drop 4 lenAndCrcBuf))
              then Some (Err ErrBadChecksum)
              else
                match Unmarshal changeBuf with
                | inl err => Some (Err err)
                | inr changeSet =>
                    match applyChangeSet newManifest changeSet with
                    | (_, Err err) => Some (Err err)
                    | (_, Panic) => Some Panic
                    | (newManifest, Ok _) => replayLoop fuel' r newManifest
                    end
                end
          end
      end
  end.

(** [ReplayManifestFile] on the bytes the file delivers. *)
Definition replayStream (stream : list byte) : result (Manifest * Z) :=
  let r := {| reader := stream; count := 0 |} in
  match io_ReadFull r 8 with
  | (_, Err _) | (_, Panic) => Err ErrBadMagic
  | (r, Ok magicBuf) =>
      if negb (bool_decide (take 4 magicBuf = MagicText)) then Err ErrBadMagic
      else
        let version := Uint32 (drop 4 magicBuf) in
        if negb (version =? wrap_uint32 MagicVersion)
        then Err ErrNotSupportManifestVersion
        else
          match replayLoop (S (length (reader r))) r createNewManifest with
          | Some res => res
          | None => Panic
          end
  end.

(** [ReplayManifestFile(file)] reads from the descriptor's offset through
    a buffered reader; when the loop ends at end-of-stream the descriptor
    is at the end of the file. *)
Definition ReplayManifestFile (file : os_File) : IO (Manifest * Z) := fun fs =>
  match fs_open fs !! file with
  | None => (fs, Err ErrBadMagic)
  | Some d =>
      match fs_files fs !! d_name d with
      | None => (fs, Err ErrBadMagic)
      | Some content =>
          match replayStream (drop (d_offset d) content) with
          | Ok res =>
              (fst (set_open
                      (<[file := {| d_name := d_name d;
                                    d_offset := d_offset d `max` length content;
                                    d_append := d_append d |}]> (fs_open fs)) fs),
               Ok res)
          | Err e => (fs, Err e)
          | Panic => (fs, Panic)
          end
      end
  end.

Definition OpenManifestFile : IO ManifestFile := fun fs =>
  match os_OpenFile ManifestFilename O_RDWR fs with
  | (fs, Err err) =>
      if negb (os_IsNotExist err) then (fs, Err err)
      else
        let newManifest := createNewManifest in
        ('(newFile, netCreations) ← createFileAndRewrite newManifest;
         if utils_CondPanic (netCreations =? 0) (errors_Wrap None ErrReWriteFailure)
         then io_panic
         else mret {| file := newFile; manifest := newManifest |}) fs
  | (fs, Panic) => (fs, Panic)
  | (fs, Ok file) =>
      ('(manifest, truncOffset) ← on_error (ReplayManifestFile file) (file_Close file);
       _ ← on_error (file_Truncate file truncOffset) (file_Close file);
       _ ← on_error (file_SeekEnd file) (file_Close file);
       mret {| file := file; manifest := manifest |}) fs
  end.

(** [rewrite], [Close], [addChanges] and [AddTableMeta] are methods of
    [*ManifestFile]: they update the struct in place, so the model
    returns it as the call leaves it with the file system and the
    result. *)
Definition rewrite (mf : ManifestFile) (fs : FileSys)
  : ManifestFile * FileSys * result unit :=
  match file_Close (file mf) fs with
  | (fs, Err err) => (mf, fs, Err err)
  | (fs, Panic) => (mf, fs, Panic)
  | (fs, Ok _) =>
      match createFileAndRewrite (manifest mf) fs with
      | (fs, Err err) => (mf, fs, Err err)
      | (fs, Panic) => (mf, fs, Panic)
      | (fs, Ok (fp, nextCreations)) =>
          ({| file := fp;
              manifest := {| Levels := Levels (manifest mf);
                             Tables := Tables (manifest mf);
                             Creations := nextCreations;
                             Deletions := 0 |} |}, fs, Ok tt)
      end
  end.

Definition Close (mf : ManifestFile) (fs : FileSys)
  : ManifestFile * FileSys * result unit :=
  let '(fs, r) := file_Close (file mf) fs in (mf, fs, r).

Definition addChanges (changesParam : list pb.ManifestChange)
                      (mf : ManifestFile) (fs : FileSys)
  : ManifestFile * FileSys * result unit :=
  let changes := {| pb.Changes := changesParam |} in
  match Marshal changes with
  | inl err => (mf, fs, Err err)
  | inr buf =>
      match applyChangeSet (manifest mf) changes with
      | (m, Err err) => ({| file := file mf; manifest := m |}, fs, Err err)
      | (m, Panic) => ({| file := file mf; manifest := m |}, fs, Panic)
      | (m, Ok _) =>
          let mf := {| file := file mf; manifest := m |} in
          let written :=
            if (Deletions m >? ManifestDeletionsRewriteThreshold)
               && (Deletions m >?
                   wrap_int (ManifestDeletionsRatio
                             * wrap_int (Creations m - Deletions m)))
            then rewrite mf fs
            else
              let buf := lenCrcBuf buf ++ buf in
              let '(fs, r) := file_Write (file mf) buf fs in (mf, fs, r) in
          match written with
          | (mf, fs, Ok _) =>
              let '(fs, err) := file_Sync (file mf) fs in (mf, fs, err)
          | failed => failed
          end
      end
  end.

Definition AddChanges := addChanges.

(** [AddTableMeta] calls [addChanges] and drops what it returns; its
    named result [err] is never assigned. *)
Definition AddTableMeta (levelNum : Z) (t : TableMeta)
                        (mf : ManifestFile) (fs : FileSys)
  : ManifestFile * FileSys * result unit :=
  match addChanges [newCreateChange (ID t) levelNum (meta_Checksum t)] mf fs with
  | (mf, fs, Panic) => (mf, fs, Panic)
  | (mf, fs, _) => (mf, fs, Ok tt)
  end.


(** ** The engine ([lsm] package)

    The write-ahead log, the skip list and the level manager are outside
    the sources; they are parameters. Their mutable state (WAL files,
    skip lists, tables, the directory) is the [World], which every call
    takes and returns; a [*file.WalFile] or [*utils.SkipList] is a handle
    into it. A collaborator's [error] result is [None] for nil. *)
Variable Entry : Type.
Variable World : Type.
Variable WalFile : Type.
Variable SkipList : Type.
(** What the level manager holds beside [maxFID]. *)
Variable LevelState : Type.

Local Abbreviation memTable := (memTable WalFile SkipList).
Local Abbreviation levelManager := (levelManager LevelState).
Local Abbreviation LSM := (LSM WalFile SkipList LevelState).

Variable OpenWalFile : FileOption -> World -> World * WalFile.
(** The file id a WAL handle was opened with. *)
Variable wal_FID : WalFile -> Z.
Variable wal_Size : WalFile -> World -> Z.
Variable wal_Write : WalFile -> Entry -> World -> World * option error.
Variable wal_Close : WalFile -> World -> World * option error.
Variable wal_Truncate : WalFile -> Z -> World -> World * option error.
(** [wal.Iterate(true, 0, fn)]: the entries it hands to [fn], in order,
    the end offset and its own error; an error of [fn] stops it and is
    returned. *)
Variable wal_Iterate : WalFile -> World -> list Entry * Z * option error.
Variable NewSkipList : Z -> World -> World * SkipList.
Variable sl_Add : SkipList -> Entry -> World -> World * option error.
Variable sl_Search : SkipList -> list byte -> World -> option Entry.
Variable sl_Size : SkipList -> World -> Z.
Variable sl_Close : SkipList -> World -> World * option error.
Variable levels_flush :
  memTable -> levelManager -> World -> levelManager * World * option error.
Variable levels_Get :
  levelManager -> list byte -> World -> option Entry * option error.
Variable EstimateWalCodecSize : Entry -> Z.
(** [utils.ParseTs(e.Key)] *)
Variable ParseTs : Entry -> Z.
(** [ioutil.ReadDir(dir)]: the names of the directory's files. *)
Variable ioutil_ReadDir : string -> World -> list string * option error.

Definition set_maxFID (fid : Z) (lsm : LSM) : LSM :=
  {| lsm_memTable := lsm_memTable lsm;
     lsm_immutables := lsm_immutables lsm;
     lsm_levels := {| maxFID := fid;
                      level_state := level_state (lsm_levels lsm) |};
     lsm_option := lsm_option lsm |}.

(** [NewMemtable]: [atomic.AddUint64(&lsm.levels.maxFID, 1)] names the new
    WAL file. *)
Definition NewMemtable (lsm : LSM) (w : World) : LSM * World * memTable :=
  let newFid := wrap_uint64 (maxFID (lsm_levels lsm) + 1) in
  let lsm := set_maxFID newFid lsm in
  let fileOpt :=
    {| WorkDir := opt_WorkDir (lsm_option lsm);
       Flag := {| O_CREATE := true; O_APPEND := false |};
       MaxSz := wrap_int (MemTableSize (lsm_option lsm));
       FID := newFid;
       FileName := filePath (opt_WorkDir (lsm_option lsm)) newFid |} in
  let '(w, walFile) := OpenWalFile fileOpt w in
  let '(w, skipList) := NewSkipList (Z.shiftl 1 20) w in
  (lsm, w, {| wal := walFile; sl := skipList; maxVersion := 0 |}).

Definition memTable_close (m : memTable) (w : World) : World * option error :=
  match wal_Close (wal m) w with
  | (w, Some err) => (w, Some err)
  | (w, None) =>
      match sl_Close (sl m) w with
      | (w, Some err) => (w, Some err)
      | (w, None) => (w, None)
      end
  end.

(** [memTable.set]: the WAL first, then the skip list. *)
Definition memTable_set (m : memTable) (entry : Entry) (w : World)
  : World * option error :=
  match wal_Write (wal m) entry w with
  | (w, Some err) => (w, Some err)
  | (w, None) =>
      match sl_Add (sl m) entry w with
      | (w, Some err) => (w, Some err)
      | (w, None) => (w, None)
      end
  end.

Definition memTable_Get (m : memTable) (key : list byte) (w : World)
  : option Entry * option error :=
  (sl_Search (sl m) key w, None).

(** The flush loop of [Set]: [for _, immutable := range lsm.immutables]. *)
Fixpoint flushImmutables (immutables : list memTable)
                         (levels : levelManager) (w : World)
  : levelManager * World * result unit :=
  match immutables with
  | [] => (levels, w, Ok tt)
  | immutable :: rest =>
      match levels_flush immutable levels w with
      | (levels, w, Some err) => (levels, w, Err err)
      | (levels, w, None) =>
          let '(w, err) := memTable_close immutable w in
          if utils_Panic err then (levels, w, Panic)
          else flushImmutables rest levels w
      end
  end.

Definition set_levels (levels : levelManager) (lsm : LSM) : LSM :=
  {| lsm_memTable := lsm_memTable lsm;
     lsm_immutables := lsm_immutables lsm;
     lsm_levels := levels;
     lsm_option := lsm_option lsm |}.

Definition set_immutables (immutables : list memTable) (lsm : LSM) : LSM :=
  {| lsm_memTable := lsm_memTable lsm;
     lsm_immutables := immutables;
     lsm_levels := lsm_levels lsm;
     lsm_option := lsm_option lsm |}.

Definition set_memTable (m : memTable) (lsm : LSM) : LSM :=
  {| lsm_memTable := m;
     lsm_immutables := lsm_immutables lsm;
     lsm_levels := lsm_levels lsm;
     lsm_option := lsm_option lsm |}.

(** The first statement of [Set]: seal the active memtable when the entry
    would not fit. *)
Definition sealIfFull (entry : Entry) (lsm : LSM) (w : World) : LSM * World :=
  if wrap_int (wrap_int (wal_Size (wal (lsm_memTable lsm)) w)
               + wrap_int (EstimateWalCodecSize entry))
     >? MemTableSize (lsm_option lsm)
  then
    let lsm := set_immutables (lsm_immutables lsm ++ [lsm_memTable lsm]) lsm in
    let '(lsm, w, m) := NewMemtable lsm w in
    (set_memTable m lsm, w)
  else (lsm, w).

(** [LSM.Set] ([Set] is reserved). *)
Definition LSM_Set (entry : Entry) (lsm : LSM) (w : World)
  : LSM * World * result unit :=
  let '(lsm, w) := sealIfFull entry lsm w in
  match memTable_set (lsm_memTable lsm) entry w with
  | (w, Some err) => (lsm, w, Err err)
  | (w, None) =>
      match flushImmutables (lsm_immutables lsm) (lsm_levels lsm) w with
      | (levels, w, Err err) => (set_levels levels lsm, w, Err err)
      | (levels, w, Panic) => (set_levels levels lsm, w, Panic)
      | (levels, w, Ok _) =>
          let lsm := set_levels levels lsm in
          let lsm :=
            if negb (len (lsm_immutables lsm) =? 0)
            then set_immutables [] lsm else lsm in
          (lsm, w, Ok tt)
      end
  end.

(** The loop of [Get]: [for i := len(lsm.immutables) - 1; i >= 0; i--];
    [n] is [i + 1]. [None]: no immutable has the key. *)
Fixpoint scanImmutables (n : nat) (immutables : list memTable)
                        (key : list byte) (w : World)
  : option (result (option Entry * option error)) :=
  match n with
  | O => None
  | S i =>
      match immutables !! i with
      | None => Some Panic
      | Some m =>
          match memTable_Get m key w with
          | (Some entry, err) => Some (Ok (Some entry, err))
          | (None, _) => scanImmutables i immutables key w
          end
      end
  end.

Definition Get (key : list byte) (lsm : LSM) (w : World)
  : result (option Entry * option error) :=
  match memTable_Get (lsm_memTable lsm) key w with
  | (Some entry, err) => Ok (Some entry, err)
  | (None, _) =>
      match scanImmutables (length (lsm_immutables lsm))
                           (lsm_immutables lsm) key w with
      | Some res => res
      | None => Ok (levels_Get (lsm_levels lsm) key w)
      end
  end.

(** The callback of [replayFunction], run over the entries of the WAL. *)
Fixpoint replayEntries (m : memTable) (entries : list Entry) (w : World)
  : memTable * World * option error :=
  match entries with
  | [] => (m, w, None)
  | e :: rest =>
      let ts := ParseTs e in
      let m := if ts >? maxVersion m
               then {| wal := wal m; sl := sl m; maxVersion := ts |} else m in
      match sl_Add (sl m) e w with
      | (w, Some err) => (m, w, Some err)
      | (w, None) => replayEntries m rest w
      end
  end.

Definition UpdateSkipList (m : memTable) (w : World)
  : memTable * World * option error :=
  let '(entries, endOff, iterErr) := wal_Iterate (wal m) w in
  match replayEntries m entries w with
  | (m, w, Some err) => (m, w, Some err)
  | (m, w, None) =>
      match iterErr with
      | Some err => (m, w, Some err)
      | None =>
          let '(w, err) := wal_Truncate (wal m) (wrap_int endOff) w in
          (m, w, err)
      end
  end.

Definition RecoveryMemTable (fid : Z) (lsm : LSM) (w : World)
  : World * result memTable :=
  let fileOpt :=
    {| WorkDir := opt_WorkDir (lsm_option lsm);
       Flag := {| O_CREATE := true; O_APPEND := false |};
       MaxSz := wrap_int (MemTableSize (lsm_option lsm));
       FID := fid;
       FileName := filePath (opt_WorkDir (lsm_option lsm)) fid |} in
  let '(w, s) := NewSkipList (Z.shiftl 1 20) w in
  let '(w, walFile) := OpenWalFile fileOpt w in
  let mt := {| wal := walFile; sl := s; maxVersion := 0 |} in
  let '(mt, w, err) := UpdateSkipList mt w in
  if utils_CondPanic (bool_decide (is_Some err)) err then (w, Panic)
  else (w, Ok mt).

(** The first loop of [recovery]: the ids of the [.wal] files, in the
    order of the listing, and the largest id seen. *)
Fixpoint scanWalFiles (files : list string) (walFileId : list Z) (maxFid : Z)
  : result (list Z * Z) :=
  match files with
  | [] => Ok (walFileId, maxFid)
  | name :: rest =>
      if strings_HasSuffix name walFileExt then
        let fileNameLen := String.length name in
        match strconv_ParseUint
                (String.substring 0 (fileNameLen - String.length walFileExt) name) with
        | inl _ => Panic
        | inr fid =>
            let maxFid := if maxFid <? fid then fid else maxFid in
            scanWalFiles rest (walFileId ++ [fid]) maxFid
        end
      else scanWalFiles rest walFileId maxFid
  end.

(** The second loop: recover the memtable of every id, keep the ones
    that hold entries. *)
Fixpoint recoverMemTables (fids : list Z) (imms : list memTable)
                          (lsm : LSM) (w : World)
  : World * result (list memTable) :=
  match fids with
  | [] => (w, Ok imms)
  | fid :: rest =>
      match RecoveryMemTable fid lsm w with
      | (w, Ok m) =>
          let imms := if negb (sl_Size (sl m) w =? 0) then imms ++ [m] else imms in
          recoverMemTables rest imms lsm w
      | (w, Err err) => (w, Panic)
      | (w, Panic) => (w, Panic)
      end
  end.

Definition recovery (lsm : LSM) (w : World)
  : LSM * World * result (memTable * list memTable) :=
  match ioutil_ReadDir (opt_WorkDir (lsm_option lsm)) w with
  | (_, Some err) => (lsm, w, Panic)
  | (files, None) =>
      match scanWalFiles files [] (maxFID (lsm_levels lsm)) with
      | Err _ | Panic => (lsm, w, Panic)
      | Ok (walFileId, maxFid) =>
          let walFileId := merge_sort Z.le walFileId in
          match recoverMemTables walFileId [] lsm w with
          | (w, Err _) | (w, Panic) => (lsm, w, Panic)
          | (w, Ok imms) =>
              let lsm := set_maxFID maxFid lsm in
              let '(lsm, w, m) := NewMemtable lsm w in
              (lsm, w, Ok (m, imms))
          end
      end
  end.

(** ** Concrete inputs *)

Definition createChange (id level : Z) : pb.ManifestChange :=
  {| pb.Id := id; pb.Op := pb.ManifestChange_CREATE;
     pb.Level := level; pb.Checksum := [] |}.

Definition deleteChange (id : Z) : pb.ManifestChange :=
  {| pb.Id := id; pb.Op := pb.ManifestChange_DELETE;
     pb.Level := 0; pb.Checksum := [] |}.

(** A set that creates table 1 twice. *)
Definition createTwice : pb.ManifestChangeSet :=
  {| pb.Changes := [createChange 1 0; createChange 1 0] |}.

Definition emptyDir : FileSys :=
  {| fs_files := ∅; fs_open := ∅; fs_next := 0; fs_faults := [] |}.

Definition ref_range (m : gmap Z TableManifest) : list (Z * TableManifest) :=
  map_to_list m.

(** ** The manifest file as header and frames *)

Definition header : list byte := MagicText ++ PutUint32 MagicVersion.

Definition frame (payload : list byte) : list byte :=
  lenCrcBuf payload ++ payload.

Definition frames (payloads : list (list byte)) : list byte :=
  concat (map frame payloads).

(** What a sequence of frame payloads stands for: every payload decoded
    to its change set and applied, in order. *)
Fixpoint applyPayloads (mf : Manifest) (payloads : list (list byte))
  : option Manifest :=
  match payloads with
  | [] => Some mf
  | payload :: rest =>
      match Unmarshal payload with
      | inr changeSet =>
          match applyChangeSet mf changeSet with
          | (mf', Ok _) => applyPayloads mf' rest
          | _ => None
          end
      | inl _ => None
      end
  end.

(** A payload whose length the 4-byte length field can hold. *)
Definition fits_uint32 (payload : list byte) : Prop := len payload < 2 ^ 32.

(** ** The logical manifest *)

(** The ids of level [l]; a level beyond [Levels] has none. *)
Definition level_ids (m : Manifest) (l : nat) : gset Z :=
  from_option level_Tables ∅ (Levels m !! l).

(** The invariant of the data model: every tracked table has a uint8
    level and sits in the set of that level, and every id of a level set
    is a tracked table of that level. *)
Definition consistent (m : Manifest) : Prop :=
  (forall id tm, Tables m !! id = Some tm ->
     0 <= Level tm < 256
     /\ id ∈ level_ids m (Z.to_nat (Level tm)))
  /\ (forall l id, id ∈ level_ids m l ->
        exists tm, Tables m !! id = Some tm /\ Z.to_nat (Level tm) = l).

(** A change whose level is a uint8, as the data model has it. *)
Definition level_uint8 (change : pb.ManifestChange) : Prop :=
  0 <= pb.Level change < 256.

(** A history of [AddChanges] calls that all return nil. *)
Fixpoint addHistory (history : list (list pb.ManifestChange))
                    (mf : ManifestFile) (fs : FileSys)
  : option (ManifestFile * FileSys) :=
  match history with
  | [] => Some (mf, fs)
  | changes :: rest =>
      match AddChanges changes mf fs with
      | (mf, fs, Ok _) => addHistory rest mf fs
      | _ => None
      end
  end.

(** Scenario A of the specification. *)
Definition scenarioA : list (list pb.ManifestChange) :=
  [[createChange 1 0]; [createChange 2 0]; [deleteChange 1]].

Definition snapshotChanges (tables : list (Z * TableManifest))
  : list pb.ManifestChange :=
  map (fun '(sstId, tableManifest) =>
         newCreateChange sstId (Level tableManifest) (Checksum tableManifest))
      tables.

(** [fault_free m]: when [m] succeeds, it also succeeds, with the same
    value and the same files and descriptors, on the file system without
    pending faults. *)
Definition fault_free {A} (m : IO A) : Prop :=
  forall fs fs' a,
    m fs = (fs', Ok a) -> m (no_faults fs) = (no_faults fs', Ok a).



(** ** The engine's write surface *)

(** The memtables of a queue flushed to the level manager and closed, one
    after the other from the head (the oldest): each is flushed, then its
    WAL is closed, then its skip list, all without error. *)
Inductive flushed
  : list memTable -> levelManager -> World -> levelManager -> World -> Prop :=
| flushed_nil levels w : flushed [] levels w levels w
| flushed_cons m rest levels w levels1 w1 w2 w3 levels' w' :
    levels_flush m levels w = (levels1, w1, None) ->
    wal_Close (wal m) w1 = (w2, None) ->
    sl_Close (sl m) w2 = (w3, None) ->
    flushed rest levels1 w3 levels' w' ->
    flushed (m :: rest) levels w levels' w'.

(** The immutable queue when the flush loop of [Set] starts. *)
Definition sealed_queue (entry : Entry) (lsm : LSM) (w : World)
  : list memTable :=
  lsm_immutables (sealIfFull entry lsm w).1.

(** ** Recovery *)

(** The id a directory entry stands for, when it names a WAL file. *)
Definition walFileId (name : string) : option Z :=
  if strings_HasSuffix name walFileExt then
    match strconv_ParseUint
            (String.substring 0 (String.length name - String.length walFileExt)
                              name) with
    | inr fid => Some fid
    | inl _ => None
    end
  else None.

Definition walIds (files : list string) : list Z := omap walFileId files.

(** Every [.wal] file of the listing is named by a decimal uint64. *)
Definition wal_names_parse (files : list string) : Prop :=
  Forall (fun name => strings_HasSuffix name walFileExt = true ->
                      is_Some (walFileId name)) files.

(** The WAL file of [fid] replayed into a fresh memtable without error:
    a new skip list is made, the file [filePath] names for [fid] in the
    working directory is opened with file id [fid], and [UpdateSkipList]
    on the two returns nil. *)
Definition replayed_wal (lsm : LSM) (fid : Z) (w : World)
                        (m : memTable) (w' : World) : Prop :=
  exists w1 s w2 walFile,
    NewSkipList (Z.shiftl 1 20) w = (w1, s)
    /\ OpenWalFile
         {| WorkDir := opt_WorkDir (lsm_option lsm);
            Flag := {| O_CREATE := true; O_APPEND := false |};
            MaxSz := wrap_int (MemTableSize (lsm_option lsm));
            FID := fid;
            FileName := filePath (opt_WorkDir (lsm_option lsm)) fid |} w1
       = (w2, walFile)
    /\ UpdateSkipList {| wal := walFile; sl := s; maxVersion := 0 |} w2
       = (m, w', None).

(** The WAL files of [fids] replayed one after the other, in the order of
    the list, each without error; a memtable is kept when its skip list
    is not empty after the replay. *)
Inductive replayed_in_order (lsm : LSM)
  : list Z -> World -> list memTable -> World -> Prop :=
| replayed_nil w : replayed_in_order lsm [] w [] w
| replayed_keep fid rest w w1 m kept w' :
    replayed_wal lsm fid w m w1 ->
    sl_Size (sl m) w1 <> 0 ->
    replayed_in_order lsm rest w1 kept w' ->
    replayed_in_order lsm (fid :: rest) w (m :: kept) w'
| replayed_drop fid rest w w1 m kept w' :
    replayed_wal lsm fid w m w1 ->
    sl_Size (sl m) w1 = 0 ->
    replayed_in_order lsm rest w1 kept w' ->
    replayed_in_order lsm (fid :: rest) w kept w'.

(** The largest of a starting value and the ids of a list. *)
Definition max_seen (prev : Z) (ids : list Z) : Z := foldl Z.max prev ids.

(** ** Keys ([utils.CompareKeys]) *)

(** [bytes.Compare(a, b)]: -1, 0 or +1, lexicographic on unsigned bytes. *)
Fixpoint bytes_Compare (a b : list byte) : Z :=
  match a, b with
  | [], [] => 0
  | [], _ :: _ => -1
  | _ :: _, [] => 1
  | x :: a', y :: b' =>
      if byte_to_Z x <? byte_to_Z y then -1
      else if byte_to_Z y <? byte_to_Z x then 1
      else bytes_Compare a' b'
  end.

(** [CompareKeys(key1, key2)]: the last 8 bytes of a key are its
    timestamp. [CondPanic] is given an error that is never nil, so it
    panics exactly when its condition holds. *)
Definition CompareKeys (key1 key2 : list byte) : result Z :=
  if (len key1 <=? 8) || (len key2 <=? 8) then Panic
  else
    let cmp := bytes_Compare (take (length key1 - 8) key1)
                             (take (length key2 - 8) key2) in
    if negb (cmp =? 0) then Ok cmp
    else Ok (bytes_Compare (drop (length key1 - 8) key1)
                           (drop (length key2 - 8) key2)).

(** ** Table file names ([utils.FID], [utils.SSTableFullPath]) *)

Fixpoint contains_slash (s : string) : bool :=
  match s with
  | EmptyString => false
  | String c rest => is_char c "/" || contains_slash rest
  end.

(** [for len(path) > 0 && path[len(path)-1] == '/' { path = path[:len(path)-1] }] *)
Fixpoint trimRightSlashes (s : string) : string :=
  match s with
  | EmptyString => EmptyString
  | String c rest =>
      let rest' := trimRightSlashes rest in
      if is_char c "/" && bool_decide (rest' = EmptyString)
      then EmptyString else String c rest'
  end.

(** [if i := strings.LastIndex(path, "/"); i >= 0 { path = path[i+1:] }] *)
Fixpoint lastElement (s : string) : string :=
  match s with
  | EmptyString => EmptyString
  | String c rest =>
      if contains_slash rest then lastElement rest
      else if is_char c "/" then rest
      else String c rest
  end.

(** A plain file name: one path element that is not [.] or [..]. *)
Definition plain_name (name : string) : Prop :=
  name <> EmptyString /\ contains_slash name = false
  /\ name <> "." /\ name <> "..".

(** [path.Base(path)] *)
Definition path_Base (path : string) : string :=
  if bool_decide (path = EmptyString) then "."
  else
    let path := lastElement (trimRightSlashes path) in
    if bool_decide (path = EmptyString) then "/" else path.

(** [strings.TrimSuffix(s, suffix)] *)
Definition strings_TrimSuffix (s suffix : string) : string :=
  if strings_HasSuffix s suffix
  then String.substring 0 (String.length s - String.length suffix) s
  else s.

(** [strconv.Atoi(s)]: an optional sign, then decimal digits, at least
    one; the value is an [int]. *)
Definition strconv_Atoi (s : string) : error + Z :=
  let '(neg, digits) :=
    match s with
    | String c rest =>
        if is_char c "-" then (true, rest)
        else if is_char c "+" then (false, rest)
        else (false, s)
    | EmptyString => (false, s)
    end in
  match NilZero.uint_of_string digits with
  | None => inl strconv_ErrSyntax
  | Some d =>
      let n := Z.of_N (N.of_uint d) in
      let v := if neg : bool then - n else n in
      if (v <? - 2 ^ 63) || (2 ^ 63 <=? v) then inl strconv_ErrRange else inr v
  end.

(** [utils.FID(name)]: the id in the name of a table file, 0 for every
    other name ([FID] is the field of [FileOption]). *)
Definition utils_FID (name : string) : Z :=
  let name := path_Base name in
  if negb (strings_HasSuffix name ".sst") then 0
  else
    let name := strings_TrimSuffix name ".sst" in
    match strconv_Atoi name with
    | inl _ => 0
    | inr id => wrap_uint64 id
    end.

(** [fmt.Sprintf("%05d.sst", id)] *)
Definition sstFileName (id : Z) : string := Sprintf_05d id +:+ ".sst".

Definition SSTableFullPath (dir : string) (id : Z) : string :=
  filepath_Join dir (sstFileName id).

(** An entry of a directory listing ([os.FileInfo]). *)
Record FileInfo := { info_Name : string; info_IsDir : bool }.

(** The loop of [LoadSSTIdMap] over the listing. *)
Fixpoint collectIds (fileInfo : list FileInfo) (idMap : gset Z) : gset Z :=
  match fileInfo with
  | [] => idMap
  | info :: rest =>
      if negb (info_IsDir info) then
        let fid := utils_FID (info_Name info) in
        if negb (fid =? 0) then collectIds rest ({[fid]} ∪ idMap)
        else collectIds rest idMap
      else collectIds rest idMap
  end.

(** [utils.LoadSSTIdMap(dir)], given what [ioutil.ReadDir(dir)] returns. *)
Definition LoadSSTIdMap (listing : list FileInfo * option error)
  : result (gset Z) :=
  let '(fileInfo, err) := listing in
  if utils_Panic err then Panic
  else Ok (collectIds fileInfo ∅).

(** ** Reverting the directory to the manifest ([RevertToManifest]) *)

Inductive removeError := remove_ErrNotExist | remove_ErrFault.

(** [os.Remove(name)] in the working directory. *)
Definition os_Remove (name : string) (fs : FileSys)
  : FileSys * option removeError :=
  let remove fs :=
    match fs_files fs !! name with
    | None => (fs, Some remove_ErrNotExist)
    | Some _ =>
        ({| fs_files := delete name (fs_files fs); fs_open := fs_open fs;
            fs_next := fs_next fs; fs_faults := fs_faults fs |}, None)
    end in
  match fs_faults fs with
  | true :: rest =>
      ({| fs_files := fs_files fs; fs_open := fs_open fs;
          fs_next := fs_next fs; fs_faults := rest |}, Some remove_ErrFault)
  | false :: rest =>
      remove {| fs_files := fs_files fs; fs_open := fs_open fs;
                fs_next := fs_next fs; fs_faults := rest |}
  | [] => remove fs
  end.

(** The errors of [RevertToManifest]. *)
Inductive revertError :=
| ErrTableNotInDir (id : Z)     (* "table %d does not exis but recorded in manifest" *)
| ErrRemovingTable (id : Z) (err : removeError).   (* "removing table %d error" *)

(** The order in which [range idMap] visits the set. *)
Variable range_idMap : gset Z -> list Z.

(** [for id := range mf.manifest.Tables] *)
Fixpoint checkTables (ids : list Z) (idMap : gset Z) : option revertError :=
  match ids with
  | [] => None
  | id :: rest =>
      if negb (bool_decide (id ∈ idMap)) then Some (ErrTableNotInDir id)
      else checkTables rest idMap
  end.

(** [for id := range idMap]; the table files are in the working
    directory, under the name [SSTableFullPath] ends in. [utils.PrintErr]
    only logs. *)
Fixpoint removeOrphans (ids : list Z) (tables : gmap Z TableManifest)
                       (fs : FileSys) : FileSys * option revertError :=
  match ids with
  | [] => (fs, None)
  | id :: rest =>
      match tables !! id with
      | None =>
          match os_Remove (sstFileName id) fs with
          | (fs, Some err) => (fs, Some (ErrRemovingTable id err))
          | (fs, None) => removeOrphans rest tables fs
          end
      | Some _ => removeOrphans rest tables fs
      end
  end.

Definition RevertToManifest (idMap : gset Z) (mf : ManifestFile) (fs : FileSys)
  : FileSys * option revertError :=
  match checkTables (range_Tables (Tables (manifest mf))).*1 idMap with
  | Some err => (fs, Some err)
  | None => removeOrphans (range_idMap idMap) (Tables (manifest mf)) fs
  end.

(** The name [filePath] gives the WAL file of [fid] inside the working
    directory. *)
Definition walFileName (fid : Z) : string := Sprintf_05d fid +:+ walFileExt.
(** * Properties *)

(** ** Assumptions on the codec

    Decoding inverts encoding; the checksum is a uint32; the iteration
    over [Tables] visits every entry once; and, the length field of a frame
    having 32 bits, an encoded change set is shorter than 2^32 bytes. *)
Hypothesis Unmarshal_Marshal :
  forall set buf, Marshal set = inr buf -> Unmarshal buf = inr set.
Hypothesis crc32_uint32 : forall buf, 0 <= crc32_Checksum buf < 2 ^ 32.
Hypothesis range_Tables_perm : forall m, range_Tables m ≡ₚ map_to_list m.
Hypothesis Marshal_fits :
  forall set buf, Marshal set = inr buf -> len buf < 2 ^ 32.

(** Drops what the goal does not mention, so that the solvers of stdpp do
    not pick up assumptions of other parts of the development. *)
Ltac clear_context := repeat match goal with H : _ |- _ => clear H end.

(** ** Applying changes *)

Lemma extendLevels_replicate fuel levels level :
  0 <= level ->
  (Z.to_nat (level + 1) - length levels <= fuel)%nat ->
  extendLevels fuel levels level
  = levels ++ replicate (Z.to_nat (level + 1) - length levels) emptyLevel.
Proof.
  intros Hlevel. revert levels.
  induction fuel as [|fuel IH]; intros levels Hfuel; simpl.
  - replace (Z.to_nat (level + 1) - length levels)%nat with 0%nat by lia.
    simpl. by rewrite app_nil_r.
  - unfold len. destruct (Z.leb_spec (Z.of_nat (length levels)) level) as [Hle|Hgt].
    + rewrite IH by (rewrite length_app; simpl; lia).
      rewrite length_app. simpl.
      replace (Z.to_nat (level + 1) - length levels)%nat
        with (S (Z.to_nat (level + 1) - (length levels + 1)))%nat by lia.
      simpl. by rewrite <- app_assoc.
    + replace (Z.to_nat (level + 1) - length levels)%nat with 0%nat by lia.
      simpl. by rewrite app_nil_r.
Qed.

Lemma extendLevels_spec levels level :
  0 <= level ->
  extendLevels (Z.to_nat (level + 1)) levels level
  = levels ++ replicate (Z.to_nat (level + 1) - length levels) emptyLevel.
Proof. intros H. apply extendLevels_replicate; [done | lia]. Qed.

Lemma extendLevels_lookup levels level :
  0 <= level ->
  is_Some (extendLevels (Z.to_nat (level + 1)) levels level !! Z.to_nat level).
Proof.
  intros H. rewrite extendLevels_spec by done.
  apply lookup_lt_is_Some. rewrite length_app, length_replicate. lia.
Qed.

(** A failing change leaves the manifest as it was. *)
Lemma applyManifestChange_Err mf change mf' e :
  applyManifestChange mf change = (mf', Err e) -> mf' = mf.
Proof.
  unfold applyManifestChange. intros H.
  repeat case_match; by simplify_eq.
Qed.

(** The changes of a set before the first failing one stay applied. *)
Lemma applyChanges_app mf pre post mf1 :
  applyChanges mf pre = (mf1, Ok tt) ->
  applyChanges mf (pre ++ post) = applyChanges mf1 post.
Proof.
  revert mf. induction pre as [|c pre IH]; intros mf H; simpl in *.
  - by simplify_eq.
  - destruct (applyManifestChange mf c) as [mf' [[]| |]]; try done. by apply IH.
Qed.

Lemma applyChanges_stops mf pre change post mf1 e :
  applyChanges mf pre = (mf1, Ok tt) ->
  snd (applyManifestChange mf1 change) = Err e ->
  applyChanges mf (pre ++ change :: post) = (mf1, Err e).
Proof.
  intros Hpre Hc. rewrite (applyChanges_app _ _ _ _ Hpre). simpl.
  destruct (applyManifestChange mf1 change) as [mf' r] eqn:E. simpl in Hc. subst r.
  by rewrite (applyManifestChange_Err _ _ _ _ E).
Qed.

(** C6. Applying one change: a CREATE of an id already in [Tables] fails;
    a CREATE of a new id stores [{Level, Checksum}] (the level as the uint8
    the table entry holds) in [Tables], pads [Levels] with empty sets up to
    index [level], adds the id to [Levels[level]] and increments [Creations];
    a DELETE of an absent id fails; a DELETE of a tracked id (whose level
    indexes [Levels], as the manifest invariant says) removes the id from
    [Levels[oldLevel]] and from [Tables] and increments [Deletions]; any
    other operation tag fails; a failing change does not mutate the
    manifest. *)
Theorem applyManifestChange_semantics (mf : Manifest) (change : pb.ManifestChange) :
  0 <= pb.Level change ->
  (pb.Op change = pb.ManifestChange_CREATE ->
     (is_Some (Tables mf !! pb.Id change) ->
        applyManifestChange mf change
        = (mf, Err (ErrTableExists (pb.Id change))))
     /\ (Tables mf !! pb.Id change = None ->
        applyManifestChange mf change
        = ({| Levels :=
                alter (fun lm => {| level_Tables := {[pb.Id change]} ∪ level_Tables lm |})
                  (Z.to_nat (pb.Level change))
                  (Levels mf
                   ++ replicate (Z.to_nat (pb.Level change + 1) - length (Levels mf))
                                {| level_Tables := ∅ |});
              Tables :=
                <[pb.Id change :=
                    {| Level := pb.Level change mod 256;
                       Checksum := pb.Checksum change |}]> (Tables mf);
              Creations := wrap_int (Creations mf + 1);
              Deletions := Deletions mf |}, Ok tt)))
  /\ (pb.Op change = pb.ManifestChange_DELETE ->
     (Tables mf !! pb.Id change = None ->
        applyManifestChange mf change
        = (mf, Err (ErrRemovesNonExisting (pb.Id change))))
     /\ (forall tm,
        Tables mf !! pb.Id change = Some tm ->
        is_Some (Levels mf !! Z.to_nat (Level tm)) ->
        applyManifestChange mf change
        = ({| Levels :=
                alter (fun lm => {| level_Tables := level_Tables lm ∖ {[pb.Id change]} |})
                  (Z.to_nat (Level tm)) (Levels mf);
              Tables := delete (pb.Id change) (Tables mf);
              Creations := Creations mf;
              Deletions := wrap_int (Deletions mf + 1) |}, Ok tt)))
  /\ (forall tag, pb.Op change = pb.ManifestChange_Other tag ->
        applyManifestChange mf change = (mf, Err ErrManifestHasWrongOp))
  /\ (forall mf' e, applyManifestChange mf change = (mf', Err e) -> mf' = mf).
Proof.
  intros Hlevel. repeat split.
  - intros [tm Htm]. unfold applyManifestChange. by rewrite H, Htm.
  - intros Hnone. unfold applyManifestChange. rewrite H, Hnone.
    destruct (extendLevels_lookup (Levels mf) _ Hlevel) as [lm Hlm].
    rewrite Hlm. by rewrite extendLevels_spec.
  - intros Hnone. unfold applyManifestChange. by rewrite H, Hnone.
  - intros tm Htm [lm Hlm]. unfold applyManifestChange. by rewrite H, Htm, Hlm.
  - intros tag Htag. unfold applyManifestChange. by rewrite Htag.
  - intros mf' e. apply applyManifestChange_Err.
Qed.

(** C3, as the code has it. The changes of a set are applied in order and
    the first failing change stops the application with its error: the
    failing change and the ones after it are not applied, the ones before
    it stay applied to the in-memory manifest, and [addChanges] returns the
    error without touching the manifest file. *)
Theorem applyChangeSet_stops_at_first_failure
    (mf : ManifestFile) (fs : FileSys)
    (pre post : list pb.ManifestChange) (change : pb.ManifestChange)
    (mf1 : Manifest) (e : error) (buf : list byte) :
  applyChanges (manifest mf) pre = (mf1, Ok tt) ->
  snd (applyManifestChange mf1 change) = Err e ->
  Marshal {| pb.Changes := pre ++ change :: post |} = inr buf ->
  applyChangeSet (manifest mf) {| pb.Changes := pre ++ change :: post |}
  = (mf1, Err e)
  /\ addChanges (pre ++ change :: post) mf fs
     = ({| file := file mf; manifest := mf1 |}, fs, Err e).
Proof.
  intros Hpre Hchange Hbuf.
  assert (applyChangeSet (manifest mf) {| pb.Changes := pre ++ change :: post |}
          = (mf1, Err e)) as Happly.
  { unfold applyChangeSet. simpl. by apply applyChanges_stops. }
  split; [done|].
  unfold addChanges. by rewrite Hbuf, Happly.
Qed.

(** ** The file-system calls *)

Lemma bind_Ok {A B} (m : IO A) (k : A -> IO B) fs fs' b :
  (m ≫= k) fs = (fs', Ok b) ->
  exists a fs1, m fs = (fs1, Ok a) /\ k a fs1 = (fs', Ok b).
Proof.
  unfold mbind, IO_bind. destruct (m fs) as [fs1 [a| |]]; [eauto|done..].
Qed.

Lemma bind_not_Panic {A B} (m : IO A) (k : A -> IO B) fs :
  snd (m fs) <> Panic ->
  (forall a fs1, snd (k a fs1) <> Panic) ->
  snd ((m ≫= k) fs) <> Panic.
Proof.
  unfold mbind, IO_bind. intros Hm Hk.
  destruct (m fs) as [fs1 [a| |]]; simpl in *; [apply Hk|done..].
Qed.

Lemma on_error_Ok {A} (m : IO A) cleanup fs fs' a :
  on_error m cleanup fs = (fs', Ok a) -> m fs = (fs', Ok a).
Proof. unfold on_error. destruct (m fs) as [fs1 [x| |]]; by intros; simplify_eq. Qed.

Lemma on_error_not_Panic {A} (m : IO A) cleanup fs :
  snd (m fs) <> Panic -> snd (on_error m cleanup fs) <> Panic.
Proof. unfold on_error. by destruct (m fs) as [fs1 [x| |]]. Qed.

(** No call of the file-system model panics. *)
Ltac no_panic :=
  repeat first
    [ done
    | apply bind_not_Panic; [|intros ? ?]
    | apply on_error_not_Panic
    | progress simpl
    | case_match ].

Lemma syscall_not_Panic op fs : snd (syscall op fs) <> Panic.
Proof. unfold syscall. by repeat case_match. Qed.

Lemma descriptor_of_not_Panic f fs : snd (descriptor_of f fs) <> Panic.
Proof. unfold descriptor_of. by case_match. Qed.

Lemma content_of_not_Panic name op fs : snd (content_of name op fs) <> Panic.
Proof. unfold content_of. by case_match. Qed.

Lemma io_of_not_Panic {A} (r : error + A) fs : snd (io_of r fs) <> Panic.
Proof. by destruct r. Qed.

Create HintDb nopanic.

#[local] Hint Resolve syscall_not_Panic descriptor_of_not_Panic
  content_of_not_Panic io_of_not_Panic : nopanic.

Lemma os_OpenFile_not_Panic name flag fs : snd (os_OpenFile name flag fs) <> Panic.
Proof.
  unfold os_OpenFile.
  apply bind_not_Panic; [auto with nopanic|intros _ fs1].
  apply bind_not_Panic; [done|intros files fs2].
  repeat case_match; done.
Qed.

Lemma file_Write_not_Panic f b fs : snd (file_Write f b fs) <> Panic.
Proof.
  unfold file_Write.
  repeat (apply bind_not_Panic; [by auto with nopanic|intros ? ?]). done.
Qed.

Lemma file_Sync_not_Panic f fs : snd (file_Sync f fs) <> Panic.
Proof.
  unfold file_Sync.
  repeat (apply bind_not_Panic; [by auto with nopanic|intros ? ?]).
  auto with nopanic.
Qed.

Lemma file_Close_not_Panic f fs : snd (file_Close f fs) <> Panic.
Proof.
  unfold file_Close.
  repeat (apply bind_not_Panic; [by auto with nopanic|intros ? ?]).
  auto with nopanic.
Qed.

Lemma file_SeekEnd_not_Panic f fs : snd (file_SeekEnd f fs) <> Panic.
Proof.
  unfold file_SeekEnd.
  repeat (apply bind_not_Panic; [by auto with nopanic|intros ? ?]). done.
Qed.

Lemma os_Rename_not_Panic a b fs : snd (os_Rename a b fs) <> Panic.
Proof.
  unfold os_Rename.
  repeat (apply bind_not_Panic; [by auto with nopanic|intros ? ?]). done.
Qed.

Lemma SyncDir_not_Panic fs : snd (SyncDir fs) <> Panic.
Proof.
  unfold SyncDir, syscall. by repeat (case_match; simplify_eq; simpl in * ).
Qed.

#[local] Hint Resolve os_OpenFile_not_Panic file_Write_not_Panic
  file_Sync_not_Panic file_Close_not_Panic file_SeekEnd_not_Panic
  os_Rename_not_Panic SyncDir_not_Panic on_error_not_Panic : nopanic.

Lemma createFileAndRewrite_not_Panic m fs :
  snd (createFileAndRewrite m fs) <> Panic.
Proof.
  unfold createFileAndRewrite.
  repeat (apply bind_not_Panic; [by auto with nopanic|intros ? ?]). done.
Qed.

Lemma rewrite_not_Panic mf fs : snd (rewrite mf fs) <> Panic.
Proof.
  unfold rewrite.
  pose proof (file_Close_not_Panic (file mf) fs) as Hc.
  destruct (file_Close (file mf) fs) as [fs1 [[]| |]]; simpl in *; try done.
  pose proof (createFileAndRewrite_not_Panic (manifest mf) fs1) as Hr.
  destruct (createFileAndRewrite (manifest mf) fs1) as [fs2 [[fp n]| |]]; done.
Qed.

Lemma applyManifestChange_create_not_Panic mf change :
  pb.Op change = pb.ManifestChange_CREATE ->
  0 <= pb.Level change ->
  snd (applyManifestChange mf change) <> Panic.
Proof.
  intros Hop Hlevel. unfold applyManifestChange. rewrite Hop.
  destruct (Tables mf !! pb.Id change); [done|].
  destruct (extendLevels_lookup (Levels mf) _ Hlevel) as [lm Hlm].
  by rewrite Hlm.
Qed.

(** C10. [AddTableMeta] returns nil for every level number and table meta,
    whatever [addChanges] returns: it leaves the manifest file and the file
    system as [addChanges] leaves them and reports no error, also for a
    table the manifest already tracks, where [addChanges] fails. *)
Theorem AddTableMeta_returns_nil
    (levelNum : Z) (t : TableMeta) (mf : ManifestFile) (fs : FileSys) :
  AddTableMeta levelNum t mf fs
  = (fst (addChanges [newCreateChange (ID t) levelNum (meta_Checksum t)] mf fs),
     Ok tt)
  /\ (is_Some (Tables (manifest mf) !! ID t) ->
      exists e,
        snd (addChanges [newCreateChange (ID t) levelNum (meta_Checksum t)] mf fs)
        = Err e).
Proof.
  split.
  - unfold AddTableMeta.
    assert (snd (addChanges [newCreateChange (ID t) levelNum (meta_Checksum t)] mf fs)
            <> Panic) as Hnp.
    { unfold addChanges.
      destruct (Marshal _) as [err|buf]; [done|].
      unfold applyChangeSet. simpl.
      pose proof (applyManifestChange_create_not_Panic (manifest mf)
        (newCreateChange (ID t) levelNum (meta_Checksum t)) eq_refl) as Hc.
      destruct (applyManifestChange _ _) as [m [[]| |]]; simpl in *; try done.
      2:{ exfalso. apply Hc; [|done]. unfold wrap_uint32.
          apply Z.mod_pos_bound. lia. }
      match goal with
      | |- context [if ?c then _ else _] => destruct c
      end.
      - pose proof (rewrite_not_Panic {| file := file mf; manifest := m |} fs) as Hr.
        destruct (rewrite _ fs) as [[mf1 fs1] [[]| |]]; simpl in *; try done.
        pose proof (file_Sync_not_Panic (file mf1) fs1).
        by destruct (file_Sync (file mf1) fs1).
      - pose proof (file_Write_not_Panic (file mf) (lenCrcBuf buf ++ buf) fs) as Hw.
        destruct (file_Write _ _ fs) as [fs1 [[]| |]]; simpl in *; try done.
        pose proof (file_Sync_not_Panic (file mf) fs1).
        by destruct (file_Sync (file mf) fs1). }
    destruct (addChanges _ mf fs) as [[mf1 fs1] [[]| |]]; simpl in *; done.
  - intros [tm Htm]. unfold addChanges.
    destruct (Marshal _) as [err|buf]; [by eexists|].
    unfold applyChangeSet, applyChanges, applyManifestChange, newCreateChange.
    cbn. rewrite Htm. by eexists.
Qed.

(** C7. A successful [rewrite] leaves [Tables] and [Levels] of the in-memory
    manifest as they were, sets [Deletions] to 0 and [Creations] to the
    number of tables in [Tables]. *)
Theorem rewrite_keeps_logical_manifest
    (mf mf' : ManifestFile) (fs fs' : FileSys) :
  rewrite mf fs = (mf', fs', Ok tt) ->
  Tables (manifest mf') = Tables (manifest mf)
  /\ Levels (manifest mf') = Levels (manifest mf)
  /\ Deletions (manifest mf') = 0
  /\ Creations (manifest mf') = Z.of_nat (size (Tables (manifest mf))).
Proof.
  unfold rewrite. intros H.
  destruct (file_Close (file mf) fs) as [fs1 [[]| |]]; try done.
  destruct (createFileAndRewrite (manifest mf) fs1) as [fs2 [[fp n]| |]] eqn:Hc;
    try done.
  simplify_eq. simpl.
  repeat split.
  unfold createFileAndRewrite in Hc.
  repeat (apply bind_Ok in Hc as (? & ? & _ & Hc)).
  unfold mret, IO_ret in Hc. by simplify_eq.
Qed.

(** ** Big-endian words *)

Lemma byte_to_of_Z v : byte_to_Z (byte_of_Z v) = v mod 256.
Proof.
  unfold byte_to_Z, byte_of_Z.
  pose proof (Z.mod_pos_bound v 256 ltac:(lia)) as Hb.
  destruct (Byte.of_N (Z.to_N (v mod 256))) as [b|] eqn:E; simpl.
  - apply Byte.to_of_N in E. rewrite E. lia.
  - apply Byte.of_N_None_iff in E. lia.
Qed.

Lemma testbit_mod_pow2 a n m :
  0 <= n -> Z.testbit (a mod 2 ^ n) m = (m <? n) && Z.testbit a m.
Proof.
  intros Hn. destruct (Z.ltb_spec m n).
  - by rewrite Z.mod_pow2_bits_low.
  - by rewrite Z.mod_pow2_bits_high.
Qed.

Lemma Uint32_PutUint32 v : Uint32 (PutUint32 v) = v mod 2 ^ 32.
Proof.
  unfold Uint32, PutUint32. rewrite !byte_to_of_Z.
  change 256 with (2 ^ 8).
  apply Z.bits_inj'. intros n Hn.
  rewrite !Z.lor_spec, !Z.shiftl_spec, !testbit_mod_pow2 by lia.
  destruct (Z.ltb_spec n 8); [|destruct (Z.ltb_spec n 16);
    [|destruct (Z.ltb_spec n 24); [|destruct (Z.ltb_spec n 32)]]];
  repeat match goal with
    | |- context [?a <? ?b] =>
        first [replace (a <? b) with true by lia
              |replace (a <? b) with false by lia]
    end; simpl; rewrite ?orb_false_r; try done.
  all: repeat match goal with
    | |- context [Z.testbit (Z.shiftr ?a ?k) (?n - ?k)] =>
        first [rewrite (Z.testbit_neg_r (Z.shiftr a k) (n - k)) by lia
              |rewrite (Z.shiftr_spec a k (n - k)) by lia;
               replace (n - k + k) with n by lia]
    end.
  all: by rewrite ?orb_false_r.
Qed.

Lemma length_PutUint32 v : length (PutUint32 v) = 4%nat.
Proof. done. Qed.

Lemma length_lenCrcBuf buf : length (lenCrcBuf buf) = 8%nat.
Proof. done. Qed.

(** ** Replay *)

Lemma io_ReadFull_app a rest c n :
  length a = n ->
  io_ReadFull {| reader := a ++ rest; count := c |} n
  = ({| reader := rest; count := c + len a |}, Ok a).
Proof.
  intros <-. unfold io_ReadFull. cbn [reader count].
  rewrite take_app_length, drop_app_length.
  by destruct (decide (length a = length a)).
Qed.

Lemma io_ReadFull_short s c n :
  (length s < n)%nat ->
  snd (io_ReadFull {| reader := s; count := c |} n)
  = Err (if decide (s = []) then io_EOF else io_ErrUnexpectedEOF).
Proof.
  intros Hlt. unfold io_ReadFull. cbn [reader count].
  rewrite take_ge by lia.
  destruct (decide (length s = n)); [lia|].
  destruct s; simpl; [done|].
  by destruct (decide (S (length s) = 0%nat)).
Qed.

Lemma length_frame payload : length (frame payload) = (8 + length payload)%nat.
Proof. unfold frame. by rewrite length_app, length_lenCrcBuf. Qed.

Lemma length_frames_ge payloads : (length payloads <= length (frames payloads))%nat.
Proof.
  unfold frames. induction payloads as [|p ps IH]; cbn [map concat length]; [done|].
  rewrite length_app, length_frame. lia.
Qed.

Lemma take_lenCrcBuf buf :
  take 4 (lenCrcBuf buf) = PutUint32 (wrap_uint32 (len buf)).
Proof. done. Qed.

Lemma drop_lenCrcBuf buf :
  drop 4 (lenCrcBuf buf) = PutUint32 (crc32_Checksum buf).
Proof. done. Qed.

Lemma replayLoop_S fuel r newManifest :
  replayLoop (S fuel) r newManifest
  = match io_ReadFull r 8 with
    | (_, Err err) =>
        if bool_decide (err = io_EOF \/ err = io_ErrUnexpectedEOF)
        then Some (Ok (newManifest, count r))
        else Some (Err err)
    | (_, Panic) => Some Panic
    | (r, Ok lenAndCrcBuf) =>
        match io_ReadFull r (Z.to_nat (Uint32 (take 4 lenAndCrcBuf))) with
        | (_, Err err) => Some (Err err)
        | (_, Panic) => Some Panic
        | (r, Ok changeBuf) =>
            if negb (crc32_Checksum changeBuf =? Uint32 (drop 4 lenAndCrcBuf))
            then Some (Err ErrBadChecksum)
            else
              match Unmarshal changeBuf with
              | inl err => Some (Err err)
              | inr changeSet =>
                  match applyChangeSet newManifest changeSet with
                  | (_, Err err) => Some (Err err)
                  | (_, Panic) => Some Panic
                  | (newManifest, Ok _) => replayLoop fuel r newManifest
                  end
              end
        end
    end.
Proof. done. Qed.

(** One round of the loop over a complete, well-formed frame. *)
Lemma replayLoop_frame fuel payload rest c mf changeSet mf' :
  fits_uint32 payload ->
  Unmarshal payload = inr changeSet ->
  applyChangeSet mf changeSet = (mf', Ok tt) ->
  replayLoop (S fuel) {| reader := frame payload ++ rest; count := c |} mf
  = replayLoop fuel {| reader := rest; count := c + len (frame payload) |} mf'.
Proof.
  intros Hfit Hdec Happly. unfold frame. rewrite replayLoop_S.
  rewrite <- !app_assoc.
  rewrite (io_ReadFull_app (lenCrcBuf payload)) by done.
  rewrite take_lenCrcBuf, drop_lenCrcBuf, !Uint32_PutUint32.
  assert (wrap_uint32 (len payload) mod 2 ^ 32 = len payload) as ->.
  { unfold wrap_uint32, fits_uint32, len in *. rewrite Z.mod_mod by lia.
    apply Z.mod_small. lia. }
  rewrite io_ReadFull_app by (unfold len; lia).
  rewrite (Z.mod_small (crc32_Checksum payload)) by apply crc32_uint32.
  rewrite Z.eqb_refl. cbn [negb]. rewrite Hdec, Happly.
  f_equal. f_equal. unfold len. rewrite !length_app. lia.
Qed.

Lemma replayLoop_frames payloads : forall fuel rest c mf mf',
  Forall fits_uint32 payloads ->
  applyPayloads mf payloads = Some mf' ->
  replayLoop (length payloads + fuel)
             {| reader := frames payloads ++ rest; count := c |} mf
  = replayLoop fuel {| reader := rest; count := c + len (frames payloads) |} mf'.
Proof.
  induction payloads as [|p ps IH]; intros fuel rest c mf mf' Hfit Happly.
  - simpl in *. simplify_eq. unfold len. simpl. by rewrite Z.add_0_r.
  - simpl in Happly. apply Forall_cons in Hfit as [Hp Hps].
    destruct (Unmarshal p) as [|changeSet] eqn:Hdec; [done|].
    destruct (applyChangeSet mf changeSet) as [mf1 [[]| |]] eqn:Ha; try done.
    unfold frames. cbn [map concat length Nat.add]. rewrite <- app_assoc.
    rewrite (replayLoop_frame _ _ _ _ _ _ _ Hp Hdec Ha).
    fold (frames ps). rewrite (IH _ _ _ _ _ Hps Happly).
    f_equal. f_equal. unfold len. rewrite length_app. lia.
Qed.

(** The loop never runs out of the fuel [ReplayManifestFile] gives it. *)
Lemma replayLoop_is_Some fuel : forall r mf,
  (length (reader r) < fuel)%nat -> is_Some (replayLoop fuel r mf).
Proof.
  induction fuel as [|fuel IH]; intros r mf Hlt; [lia|].
  rewrite replayLoop_S. unfold io_ReadFull at 1.
  destruct (decide (length (take 8 (reader r)) = 8%nat)) as [H8|H8].
  2:{ by repeat case_match. }
  unfold io_ReadFull. simpl.
  repeat case_match; try done.
  apply IH. simplify_eq. simpl.
  rewrite !length_drop. rewrite length_take in H8. lia.
Qed.

Lemma replayStream_header rest :
  replayStream (header ++ rest)
  = match replayLoop (S (length rest)) {| reader := rest; count := 8 |}
                     createNewManifest with
    | Some res => res
    | None => Panic
    end.
Proof. done. Qed.

(** End of stream at a frame boundary or inside a prefix: the manifest of
    the complete frames and the offset where they end. *)
Lemma replayStream_frames payloads tail mf' :
  Forall fits_uint32 payloads ->
  applyPayloads createNewManifest payloads = Some mf' ->
  (length tail < 8)%nat ->
  replayStream (header ++ frames payloads ++ tail)
  = Ok (mf', 8 + len (frames payloads)).
Proof.
  intros Hfit Happly Htail. rewrite replayStream_header.
  pose proof (length_frames_ge payloads) as Hge.
  replace (S (length (frames payloads ++ tail)))
    with (length payloads + S (length (frames payloads ++ tail) - length payloads))%nat
    by (rewrite length_app; lia).
  rewrite (replayLoop_frames _ _ _ _ _ _ Hfit Happly).
  rewrite replayLoop_S.
  pose proof (io_ReadFull_short tail (8 + len (frames payloads)) 8 Htail) as Hrd.
  destruct (io_ReadFull _ 8) as [r' res]. simpl in Hrd. subst res.
  by destruct (decide (tail = [])).
Qed.

(** End of stream inside a payload: the short read is the error. *)
Lemma replayStream_short_payload payloads n crc partial mf' :
  Forall fits_uint32 payloads ->
  applyPayloads createNewManifest payloads = Some mf' ->
  0 <= n < 2 ^ 32 ->
  length crc = 4%nat ->
  len partial < n ->
  replayStream (header ++ frames payloads ++ PutUint32 n ++ crc ++ partial)
  = Err (if decide (partial = []) then io_EOF else io_ErrUnexpectedEOF).
Proof.
  intros Hfit Happly Hn Hcrc Hshort. rewrite replayStream_header.
  pose proof (length_frames_ge payloads) as Hge.
  replace (S (length (frames payloads ++ PutUint32 n ++ crc ++ partial)))
    with (length payloads
          + S (length (frames payloads ++ PutUint32 n ++ crc ++ partial)
               - length payloads))%nat
    by (rewrite length_app; lia).
  rewrite (replayLoop_frames _ _ _ _ _ _ Hfit Happly).
  rewrite replayLoop_S.
  rewrite (app_assoc (PutUint32 n) crc partial).
  rewrite io_ReadFull_app by (rewrite length_app, Hcrc; done).
  rewrite take_app_length' by done. rewrite Uint32_PutUint32.
  rewrite Z.mod_small by done.
  pose proof (io_ReadFull_short partial
    (8 + len (frames payloads) + len (PutUint32 n ++ crc)) (Z.to_nat n)
    ltac:(unfold len in *; lia)) as Hrd.
  destruct (io_ReadFull _ (Z.to_nat n)) as [r' res]. simpl in Hrd. by subst res.
Qed.

(** ** Opening the manifest *)

Ltac unfold_io :=
  unfold os_OpenFile, file_Write, file_Sync, file_Close, file_Truncate,
    file_SeekEnd, os_Rename, SyncDir, ReplayManifestFile, on_error, io_of,
    io_fail, io_panic, descriptor_of, content_of, syscall, set_files,
    set_open, new_descriptor, get_files, get_open, mbind, mret, IO_bind,
    IO_ret in *.

(** Opening an existing manifest file when no system call fails. *)
Lemma OpenManifestFile_existing fs content mf' off :
  fs_faults fs = [] ->
  fs_files fs !! ManifestFilename = Some content ->
  replayStream content = Ok (mf', off) ->
  0 <= off <= len content ->
  exists fs',
    OpenManifestFile fs = (fs', Ok {| file := fs_next fs; manifest := mf' |})
    /\ fs_files fs'
       = <[ManifestFilename := take (Z.to_nat off) content]> (fs_files fs)
    /\ fs_open fs' !! fs_next fs
       = Some {| d_name := ManifestFilename; d_offset := Z.to_nat off;
                 d_append := false |}
    /\ fs_faults fs' = [].
Proof.
  destruct fs as [files open next faults]. simpl.
  intros -> Hfile Hreplay Hoff.
  unfold OpenManifestFile. unfold_io. cbn -[replayStream].
  rewrite Hfile. cbn -[replayStream].
  rewrite lookup_insert_eq. cbn -[replayStream].
  rewrite Hfile, drop_0, Hreplay. cbn -[replayStream].
  rewrite lookup_insert_eq. cbn -[replayStream].
  rewrite Hfile. cbn -[replayStream].
  replace (off <? 0) with false by lia.
  cbn -[replayStream].
  rewrite lookup_insert_eq. cbn -[replayStream].
  rewrite lookup_insert_eq. cbn -[replayStream].
  eexists. split; [done|]. cbn.
  replace (Z.to_nat off - length content)%nat with 0%nat by (unfold len in *; lia).
  rewrite app_nil_r. split; [done|].
  rewrite lookup_insert_eq. split; [|done].
  do 2 f_equal. rewrite length_take. unfold len in *. lia.
Qed.

(** Opening an existing manifest file whose replay fails: the error of the
    replay is what [OpenManifestFile] returns. *)
Lemma OpenManifestFile_replay_error fs content e :
  fs_faults fs = [] ->
  fs_files fs !! ManifestFilename = Some content ->
  replayStream content = Err e ->
  (OpenManifestFile fs).2 = Err e.
Proof.
  destruct fs as [files open next faults]. simpl.
  intros -> Hfile Hreplay.
  unfold OpenManifestFile. unfold_io. cbn -[replayStream].
  rewrite Hfile. cbn -[replayStream].
  rewrite lookup_insert_eq. cbn -[replayStream].
  by rewrite Hfile, drop_0, Hreplay.
Qed.

(** ** A call that succeeds does so without the fault list

    [fault_free m]: when [m] succeeds, it also succeeds, with the same
    value and the same files and descriptors, on the file system without
    pending faults. *)

Lemma ff_bind {A B} (m : IO A) (k : A -> IO B) :
  fault_free m -> (forall a, fault_free (k a)) -> fault_free (m ≫= k).
Proof.
  intros Hm Hk fs fs' b H. apply bind_Ok in H as (a & fs1 & H1 & H2).
  unfold mbind, IO_bind. rewrite (Hm _ _ _ H1). by apply Hk.
Qed.

Lemma ff_on_error {A} (m : IO A) cleanup :
  fault_free m -> fault_free (on_error m cleanup).
Proof.
  intros Hm fs fs' a H. apply on_error_Ok in H.
  unfold on_error. by rewrite (Hm _ _ _ H).
Qed.

Lemma ff_ret {A} (a : A) : fault_free (mret a).
Proof. intros fs fs' b H. unfold mret, IO_ret in *. by simplify_eq. Qed.

Lemma ff_fail {A} e : fault_free (@io_fail A e).
Proof. by intros fs fs' b H. Qed.

Lemma ff_panic {A} : fault_free (@io_panic A).
Proof. by intros fs fs' b H. Qed.

Lemma ff_io_of {A} (r : error + A) : fault_free (io_of r).
Proof. destruct r; [apply ff_fail|apply ff_ret]. Qed.

Lemma ff_syscall op : fault_free (syscall op).
Proof.
  intros fs fs' [] H. unfold syscall in *.
  destruct fs as [files open next [|[] faults]]; simpl in *; by simplify_eq.
Qed.

Lemma ff_set_files files : fault_free (set_files files).
Proof. intros fs fs' [] H. unfold set_files in *. by simplify_eq. Qed.

Lemma ff_set_open open : fault_free (set_open open).
Proof. intros fs fs' [] H. unfold set_open in *. by simplify_eq. Qed.

Lemma ff_new_descriptor d : fault_free (new_descriptor d).
Proof. intros fs fs' f H. unfold new_descriptor in *. by simplify_eq. Qed.

Lemma ff_get_files : fault_free get_files.
Proof. intros fs fs' f H. unfold get_files in *. by simplify_eq. Qed.

Lemma ff_get_open : fault_free get_open.
Proof. intros fs fs' f H. unfold get_open in *. by simplify_eq. Qed.

Lemma ff_descriptor_of f : fault_free (descriptor_of f).
Proof.
  intros fs fs' d H. unfold descriptor_of in *. simpl.
  destruct (fs_open fs !! f); by simplify_eq.
Qed.

Lemma ff_content_of name op : fault_free (content_of name op).
Proof.
  intros fs fs' d H. unfold content_of in *. simpl.
  destruct (fs_files fs !! name); by simplify_eq.
Qed.

Lemma ff_SyncDir : fault_free SyncDir.
Proof.
  intros fs fs' [] H. unfold SyncDir, syscall in *.
  destruct fs as [files open next faults]. simpl in *.
  repeat (case_match; simplify_eq; simpl in * ); done.
Qed.

Create HintDb ff.
#[local] Hint Resolve ff_ret ff_fail ff_panic ff_io_of ff_syscall ff_set_files
  ff_set_open ff_new_descriptor ff_get_files ff_get_open ff_descriptor_of
  ff_content_of ff_SyncDir : ff.

Ltac solve_ff :=
  repeat first
    [ by auto with ff
    | apply ff_bind; [|intros ?]
    | apply ff_on_error
    | case_match ].

Lemma ff_os_OpenFile name flag : fault_free (os_OpenFile name flag).
Proof. unfold os_OpenFile. solve_ff. Qed.

Lemma ff_file_Write f b : fault_free (file_Write f b).
Proof. unfold file_Write. solve_ff. Qed.

Lemma ff_file_Sync f : fault_free (file_Sync f).
Proof. unfold file_Sync. solve_ff. Qed.

Lemma ff_file_Close f : fault_free (file_Close f).
Proof. unfold file_Close. solve_ff. Qed.

Lemma ff_file_SeekEnd f : fault_free (file_SeekEnd f).
Proof. unfold file_SeekEnd. solve_ff. Qed.

Lemma ff_os_Rename a b : fault_free (os_Rename a b).
Proof. unfold os_Rename. solve_ff. Qed.

#[local] Hint Resolve ff_os_OpenFile ff_file_Write ff_file_Sync ff_file_Close
  ff_file_SeekEnd ff_os_Rename : ff.

Lemma ff_createFileAndRewrite m : fault_free (createFileAndRewrite m).
Proof. unfold createFileAndRewrite. solve_ff. Qed.

Lemma write_at_end b content : write_at (length content) b content = content ++ b.
Proof.
  unfold write_at. rewrite take_ge by lia. rewrite drop_ge by lia.
  replace (length content - length content)%nat with 0%nat by lia.
  simpl. by rewrite app_nil_r.
Qed.

(** The calls on a file system without pending faults. *)
Lemma file_Write_run f b fs d content :
  fs_faults fs = [] ->
  fs_open fs !! f = Some d ->
  fs_files fs !! d_name d = Some content ->
  d_append d = true \/ d_offset d = length content ->
  file_Write f b fs
  = ({| fs_files := <[d_name d := content ++ b]> (fs_files fs);
        fs_open := <[f := {| d_name := d_name d;
                             d_offset := (length content + length b)%nat;
                             d_append := d_append d |}]> (fs_open fs);
        fs_next := fs_next fs; fs_faults := [] |}, Ok tt).
Proof.
  destruct fs as [files open next faults]. simpl. intros -> Hd Hc Hpos.
  unfold_io. cbn. rewrite Hd. cbn. rewrite Hc. cbn.
  assert ((if d_append d then length content else d_offset d) = length content)
    as ->.
  { destruct Hpos as [->| ->]; [done|by destruct (d_append d)]. }
  by rewrite write_at_end.
Qed.

Lemma file_Write_Ok f b fs fs' d content :
  file_Write f b fs = (fs', Ok tt) ->
  fs_open fs !! f = Some d ->
  fs_files fs !! d_name d = Some content ->
  d_append d = true \/ d_offset d = length content ->
  fs_files fs' = <[d_name d := content ++ b]> (fs_files fs)
  /\ fs_open fs' = <[f := {| d_name := d_name d;
                             d_offset := (length content + length b)%nat;
                             d_append := d_append d |}]> (fs_open fs)
  /\ fs_next fs' = fs_next fs.
Proof.
  intros H Hd Hc Hpos. apply ff_file_Write in H.
  rewrite (file_Write_run f b (no_faults fs) d content) in H by done.
  destruct fs'. unfold no_faults in H. simpl in *. by simplify_eq.
Qed.

Lemma file_Sync_Ok f fs fs' :
  file_Sync f fs = (fs', Ok tt) ->
  fs_files fs' = fs_files fs /\ fs_open fs' = fs_open fs
  /\ fs_next fs' = fs_next fs.
Proof.
  intros H. apply ff_file_Sync in H.
  destruct fs as [files open next faults], fs' as [files' open' next' faults'].
  unfold no_faults in H. unfold_io. cbn in *.
  destruct (open !! f); cbn in *; by simplify_eq.
Qed.


Lemma file_Close_Ok f fs fs' :
  file_Close f fs = (fs', Ok tt) ->
  fs_files fs' = fs_files fs /\ fs_open fs' = delete f (fs_open fs)
  /\ fs_next fs' = fs_next fs.
Proof.
  intros H. apply ff_file_Close in H.
  destruct fs as [files open next faults], fs' as [files' open' next' faults'].
  unfold no_faults in H. unfold_io. cbn in *.
  destruct (open !! f); cbn in *; by simplify_eq.
Qed.

Lemma bind_run {A B} (m : IO A) (k : A -> IO B) fs fs1 a :
  m fs = (fs1, Ok a) -> (m ≫= k) fs = k a fs1.
Proof. intros H. unfold mbind, IO_bind. by rewrite H. Qed.

Lemma on_error_run {A} (m : IO A) cleanup fs fs1 a :
  m fs = (fs1, Ok a) -> on_error m cleanup fs = (fs1, Ok a).
Proof. intros H. unfold on_error. by rewrite H. Qed.

Lemma os_OpenFile_create_run name fs :
  fs_faults fs = [] ->
  os_OpenFile name DefaultFileFlag fs
  = ({| fs_files := <[name := default [] (fs_files fs !! name)]> (fs_files fs);
        fs_open := <[fs_next fs := {| d_name := name; d_offset := 0;
                                      d_append := true |}]> (fs_open fs);
        fs_next := S (fs_next fs); fs_faults := [] |}, Ok (fs_next fs)).
Proof.
  destruct fs as [files open next faults]. simpl. intros ->.
  unfold_io. cbn.
  destruct (files !! name) as [c|] eqn:Hc; cbn; [|done].
  by rewrite (insert_id files name c Hc).
Qed.

Lemma file_Sync_run f fs d :
  fs_faults fs = [] -> fs_open fs !! f = Some d -> file_Sync f fs = (fs, Ok tt).
Proof.
  destruct fs as [files open next faults]. simpl. intros -> Hd.
  unfold_io. cbn. by rewrite Hd.
Qed.

Lemma file_Close_run f fs d :
  fs_faults fs = [] ->
  fs_open fs !! f = Some d ->
  file_Close f fs
  = ({| fs_files := fs_files fs; fs_open := delete f (fs_open fs);
        fs_next := fs_next fs; fs_faults := [] |}, Ok tt).
Proof.
  destruct fs as [files open next faults]. simpl. intros -> Hd.
  unfold_io. cbn. by rewrite Hd.
Qed.

Lemma os_Rename_run oldname newname fs content :
  fs_faults fs = [] ->
  fs_files fs !! oldname = Some content ->
  os_Rename oldname newname fs
  = ({| fs_files := <[newname := content]> (delete oldname (fs_files fs));
        fs_open := fs_open fs; fs_next := fs_next fs; fs_faults := [] |}, Ok tt).
Proof.
  destruct fs as [files open next faults]. simpl. intros -> Hc.
  unfold_io. cbn. by rewrite Hc.
Qed.

Lemma file_SeekEnd_run f fs d content :
  fs_faults fs = [] ->
  fs_open fs !! f = Some d ->
  fs_files fs !! d_name d = Some content ->
  file_SeekEnd f fs
  = ({| fs_files := fs_files fs;
        fs_open := <[f := {| d_name := d_name d; d_offset := length content;
                             d_append := d_append d |}]> (fs_open fs);
        fs_next := fs_next fs; fs_faults := [] |}, Ok tt).
Proof.
  destruct fs as [files open next faults]. simpl. intros -> Hd Hc.
  unfold_io. cbn. rewrite Hd. cbn. by rewrite Hc.
Qed.

Lemma SyncDir_run fs : fs_faults fs = [] -> SyncDir fs = (fs, Ok tt).
Proof.
  destruct fs as [files open next faults]. simpl. by intros ->.
Qed.

(** [createFileAndRewrite] without pending faults: the snapshot is appended
    to whatever the rewrite file already holds, and the result is renamed
    over the manifest. *)
Lemma createFileAndRewrite_run m fs buf :
  fs_faults fs = [] ->
  Marshal {| pb.Changes := asChanges m |} = inr buf ->
  exists fs',
    createFileAndRewrite m fs
    = (fs', Ok (S (fs_next fs), Z.of_nat (size (Tables m))))
    /\ fs_files fs'
       = <[ManifestFilename :=
             default [] (fs_files fs !! ManifestRewriteFilename)
             ++ header ++ frame buf]>
           (delete ManifestRewriteFilename (fs_files fs))
    /\ fs_open fs' !! S (fs_next fs)
       = Some {| d_name := ManifestFilename;
                 d_offset := length (default [] (fs_files fs !! ManifestRewriteFilename)
                                     ++ header ++ frame buf);
                 d_append := true |}
    /\ fs_faults fs' = [].
Proof.
  intros Hfaults Hbuf.
  set (old := default [] (fs_files fs !! ManifestRewriteFilename)).
  unfold createFileAndRewrite. rewrite Hbuf.
  change (MagicText ++ PutUint32 MagicVersion) with header.
  change (header ++ lenCrcBuf buf ++ buf) with (header ++ frame buf).
  erewrite bind_run by (by apply os_OpenFile_create_run). fold old.
  erewrite bind_run by (by apply on_error_run).
  erewrite bind_run.
  2:{ apply on_error_run.
      eapply (file_Write_run _ _ _ _ old); cbn [fs_files fs_open fs_faults];
        [done|by rewrite lookup_insert_eq|by rewrite lookup_insert_eq|by left]. }
  cbn [d_name d_append].
  erewrite bind_run.
  2:{ apply on_error_run. eapply file_Sync_run; cbn [fs_open fs_faults];
        [done|by rewrite lookup_insert_eq]. }
  erewrite bind_run.
  2:{ eapply file_Close_run; cbn [fs_open fs_faults];
        [done|by rewrite lookup_insert_eq]. }
  cbn [fs_files fs_open fs_next].
  erewrite bind_run.
  2:{ eapply os_Rename_run; cbn [fs_files fs_faults];
        [done|by rewrite lookup_insert_eq]. }
  cbn [fs_files fs_open fs_next].
  erewrite bind_run by (by apply os_OpenFile_create_run).
  cbn [fs_files fs_open fs_next].
  rewrite lookup_insert_eq. cbn [default].
  erewrite bind_run.
  2:{ apply on_error_run. eapply file_SeekEnd_run; cbn [fs_files fs_open fs_faults d_name];
        [done|by rewrite lookup_insert_eq|by rewrite lookup_insert_eq]. }
  cbn [fs_files fs_open fs_next d_name d_append].
  erewrite bind_run by (apply on_error_run; by apply SyncDir_run).
  eexists. split; [done|]. cbn [fs_files fs_open fs_faults].
  rewrite lookup_insert_eq. split; [|done].
  rewrite insert_insert_eq, !delete_insert_eq. done.
Qed.

(** ** The logical manifest under changes *)

Lemma level_ids_padding levels k l :
  from_option level_Tables ∅ ((levels ++ replicate k emptyLevel) !! l)
  = from_option level_Tables ∅ (levels !! l).
Proof.
  destruct (decide (l < length levels)%nat) as [Hlt|Hge].
  - by rewrite lookup_app_l.
  - rewrite lookup_app_r by lia. rewrite (lookup_ge_None_2 levels) by lia.
    destruct (replicate k emptyLevel !! (l - length levels)%nat) as [lm|] eqn:E;
      [|done].
    apply lookup_replicate in E as [-> _]. done.
Qed.

Lemma applyManifestChange_create m change :
  pb.Op change = pb.ManifestChange_CREATE ->
  0 <= pb.Level change ->
  Tables m !! pb.Id change = None ->
  exists m',
    applyManifestChange m change = (m', Ok tt)
    /\ Tables m' = <[pb.Id change := {| Level := pb.Level change mod 256;
                                        Checksum := pb.Checksum change |}]> (Tables m)
    /\ (forall l, level_ids m' l
          = if decide (l = Z.to_nat (pb.Level change))
            then {[pb.Id change]} ∪ level_ids m l else level_ids m l)
    /\ Creations m' = wrap_int (Creations m + 1)
    /\ Deletions m' = Deletions m.
Proof.
  intros Hop Hlevel Hnone. unfold applyManifestChange. rewrite Hop, Hnone.
  destruct (extendLevels_lookup (Levels m) _ Hlevel) as [lm Hlm].
  rewrite Hlm. eexists. split; [done|]. simpl. repeat split.
  intros l. unfold level_ids. simpl.
  rewrite extendLevels_spec in * by done.
  destruct (decide (l = Z.to_nat (pb.Level change))) as [->|Hne].
  - rewrite list_lookup_alter_eq, Hlm. simpl.
    f_equal. rewrite <- (level_ids_padding (Levels m)
      (Z.to_nat (pb.Level change + 1) - length (Levels m))). by rewrite Hlm.
  - rewrite list_lookup_alter_ne by done. apply level_ids_padding.
Qed.

Lemma applyManifestChange_delete m change tm :
  pb.Op change = pb.ManifestChange_DELETE ->
  Tables m !! pb.Id change = Some tm ->
  is_Some (Levels m !! Z.to_nat (Level tm)) ->
  exists m',
    applyManifestChange m change = (m', Ok tt)
    /\ Tables m' = delete (pb.Id change) (Tables m)
    /\ (forall l, level_ids m' l
          = if decide (l = Z.to_nat (Level tm))
            then level_ids m l ∖ {[pb.Id change]} else level_ids m l)
    /\ Creations m' = Creations m
    /\ Deletions m' = wrap_int (Deletions m + 1).
Proof.
  intros Hop Htm [lm Hlm]. unfold applyManifestChange. rewrite Hop, Htm, Hlm.
  eexists. split; [done|]. simpl. repeat split.
  intros l. unfold level_ids. simpl.
  destruct (decide (l = Z.to_nat (Level tm))) as [->|Hne].
  - by rewrite list_lookup_alter_eq, Hlm.
  - by rewrite list_lookup_alter_ne.
Qed.

(** What a successful change was. *)
Lemma applyManifestChange_Ok m change m' :
  applyManifestChange m change = (m', Ok tt) ->
  (pb.Op change = pb.ManifestChange_CREATE /\ Tables m !! pb.Id change = None)
  \/ (pb.Op change = pb.ManifestChange_DELETE
      /\ exists tm, Tables m !! pb.Id change = Some tm).
Proof.
  unfold applyManifestChange. intros H.
  destruct (pb.Op change); [left|right|done].
  - by destruct (Tables m !! pb.Id change).
  - destruct (Tables m !! pb.Id change); [eauto|done].
Qed.

Lemma consistent_level_lookup m id tm :
  consistent m -> Tables m !! id = Some tm ->
  is_Some (Levels m !! Z.to_nat (Level tm)).
Proof.
  clear_context.
  intros [Hc _] Htm. destruct (Hc _ _ Htm) as [_ Hin].
  unfold level_ids in Hin.
  destruct (Levels m !! Z.to_nat (Level tm)); [eauto|set_solver].
Qed.

Lemma applyManifestChange_consistent m change m' :
  consistent m ->
  level_uint8 change ->
  applyManifestChange m change = (m', Ok tt) ->
  consistent m'.
Proof.
  clear_context.
  intros Hc [Hl0 Hl1] Happly.
  destruct (applyManifestChange_Ok _ _ _ Happly) as [[Hop Hnone]|[Hop [tm Htm]]].
  - destruct (applyManifestChange_create m change Hop Hl0 Hnone)
      as (m1 & E & HT & HL & _). rewrite E in Happly. simplify_eq.
    destruct Hc as [Hc1 Hc2]. split.
    + intros id tm. rewrite HT, HL.
      destruct (decide (pb.Id change = id)) as [<-|Hne].
      * rewrite lookup_insert_eq. intros ?. simplify_eq. simpl.
        rewrite Z.mod_small by lia. split; [lia|].
        rewrite decide_True by done. set_solver.
      * rewrite lookup_insert_ne by done. intros Htm.
        destruct (Hc1 _ _ Htm) as [? ?]. split; [done|].
        case_decide; set_solver.
    + intros l id. rewrite HL, HT. intros Hin.
      destruct (decide (pb.Id change = id)) as [<-|Hne].
      * rewrite lookup_insert_eq. eexists. split; [done|]. simpl.
        rewrite Z.mod_small by lia.
        case_decide; [done|].
        destruct (Hc2 _ _ Hin) as (tm & Htm & _). congruence.
      * rewrite lookup_insert_ne by done. apply Hc2.
        case_decide; set_solver.
  - destruct (applyManifestChange_delete m change tm Hop Htm
                (consistent_level_lookup _ _ _ Hc Htm))
      as (m1 & E & HT & HL & _). rewrite E in Happly. simplify_eq.
    destruct Hc as [Hc1 Hc2]. split.
    + intros id tm'. rewrite HT, HL.
      destruct (decide (pb.Id change = id)) as [<-|Hne].
      * by rewrite lookup_delete_eq.
      * rewrite lookup_delete_ne by done. intros Htm'.
        destruct (Hc1 _ _ Htm') as [? ?]. split; [done|].
        case_decide; set_solver.
    + intros l id. rewrite HL, HT. intros Hin.
      destruct (decide (pb.Id change = id)) as [<-|Hne].
      * exfalso. case_decide; [set_solver|].
        destruct (Hc2 _ _ Hin) as (tm' & Htm' & Hl). congruence.
      * rewrite lookup_delete_ne by done. apply Hc2.
        case_decide; set_solver.
Qed.



Lemma applyChanges_consistent changes : forall m m',
  consistent m ->
  Forall level_uint8 changes ->
  applyChanges m changes = (m', Ok tt) ->
  consistent m'.
Proof.
  induction changes as [|c cs IH]; intros m m' Hc Hu H; simpl in H.
  - by simplify_eq.
  - apply Forall_cons in Hu as [Hu1 Hu2].
    destruct (applyManifestChange m c) as [m1 [[]| |]] eqn:E; try done.
    eapply IH; [|done..]. by eapply applyManifestChange_consistent.
Qed.




Lemma consistent_createNewManifest : consistent createNewManifest.
Proof.
  clear_context.
  split.
  - intros id tm H. simpl in H. by rewrite lookup_empty in H.
  - intros l id H. unfold level_ids in H. cbn [Levels createNewManifest] in H.
    destruct l; set_solver.
Qed.

(** ** Replaying a snapshot *)

Lemma snapshotChanges_app l1 l2 :
  snapshotChanges (l1 ++ l2) = snapshotChanges l1 ++ snapshotChanges l2.
Proof. unfold snapshotChanges. apply map_app. Qed.

Lemma applyChanges_snapshot (l : list (Z * TableManifest)) :
  NoDup l.*1 ->
  Forall (fun p => 0 <= Level p.2 < 256) l ->
  Z.of_nat (length l) < 2 ^ 63 ->
  exists m',
    applyChanges createNewManifest (snapshotChanges l) = (m', Ok tt)
    /\ Tables m' = list_to_map l
    /\ Creations m' = Z.of_nat (length l)
    /\ Deletions m' = 0
    /\ consistent m'.
Proof.
  clear_context.
  induction l as [|[id tm] l IH] using rev_ind; intros Hnd Hlv Hlen.
  - exists createNewManifest. repeat split; try done.
    all: apply consistent_createNewManifest.
  - rewrite fmap_app in Hnd. apply NoDup_app in Hnd as (Hnd & Hfresh & _).
    apply Forall_app in Hlv as [Hlv Htm]. apply Forall_inv in Htm.
    rewrite length_app in Hlen. simpl in *.
    destruct (IH Hnd Hlv ltac:(lia)) as (m1 & E1 & HT1 & HC1 & HD1 & Hc1).
    rewrite snapshotChanges_app, (applyChanges_app _ _ _ _ E1).
    assert (id ∉ l.*1) as Hid by (intros Hin; apply (Hfresh _ Hin); set_solver).
    assert (Tables m1 !! id = None) as Hnone.
    { rewrite HT1. by apply not_elem_of_list_to_map_1. }
    set (c := newCreateChange id (Level tm) (Checksum tm)).
    assert (pb.Level c = Level tm) as Hlevel.
    { unfold c, newCreateChange, wrap_uint32. simpl. apply Z.mod_small. lia. }
    destruct (applyManifestChange_create m1 c eq_refl ltac:(lia) Hnone)
      as (m2 & E2 & HT2 & _ & HC2 & HD2).
    exists m2. simpl. fold c. rewrite E2. split; [done|].
    split; [|split; [|split]].
    + rewrite HT2, HT1, list_to_map_snoc by done. f_equal.
      rewrite Hlevel. simpl. rewrite Z.mod_small by lia. by destruct tm.
    + rewrite HC2, HC1, length_app. simpl. unfold wrap_int.
      rewrite Z.mod_small; lia.
    + by rewrite HD2.
    + eapply applyManifestChange_consistent; [exact Hc1| |exact E2].
      unfold level_uint8. lia.
Qed.

Lemma replay_snapshot m :
  consistent m ->
  Z.of_nat (size (Tables m)) < 2 ^ 63 ->
  exists m',
    applyChanges createNewManifest (asChanges m) = (m', Ok tt)
    /\ Tables m' = Tables m
    /\ Creations m' = Z.of_nat (size (Tables m))
    /\ Deletions m' = 0
    /\ consistent m'.
Proof.
  intros Hc Hsize.
  pose proof (range_Tables_perm (Tables m)) as Hperm.
  assert (NoDup (range_Tables (Tables m)).*1) as Hnd.
  { rewrite Hperm. apply NoDup_fst_map_to_list. }
  assert (length (range_Tables (Tables m)) = size (Tables m)) as Hlen.
  { rewrite Hperm. by rewrite length_map_to_list. }
  destruct (applyChanges_snapshot (range_Tables (Tables m)) Hnd)
    as (m' & E & HT & HC & HD & Hc'); [|lia|].
  { apply Forall_forall. intros [id tm] Hin. simpl.
    rewrite Hperm in Hin. apply elem_of_map_to_list in Hin.
    by apply (proj1 Hc) in Hin as [? _]. }
  exists m'. split; [done|]. split; [|by rewrite HC, Hlen].
  rewrite HT. rewrite (list_to_map_proper _ _ Hnd Hperm).
  apply list_to_map_to_list.
Qed.

(** ** The manifest file under [addChanges] *)



Lemma createFileAndRewrite_Ok m fs fs' f n :
  createFileAndRewrite m fs = (fs', Ok (f, n)) ->
  exists buf,
    Marshal {| pb.Changes := asChanges m |} = inr buf
    /\ n = Z.of_nat (size (Tables m))
    /\ fs_files fs'
       = <[ManifestFilename :=
             default [] (fs_files fs !! ManifestRewriteFilename)
             ++ header ++ frame buf]>
           (delete ManifestRewriteFilename (fs_files fs))
    /\ fs_open fs' !! f
       = Some {| d_name := ManifestFilename;
                 d_offset := length (default [] (fs_files fs !! ManifestRewriteFilename)
                                     ++ header ++ frame buf);
                 d_append := true |}.
Proof.
  intros H.
  assert (exists buf, Marshal {| pb.Changes := asChanges m |} = inr buf)
    as [buf Hbuf].
  { unfold createFileAndRewrite in H.
    apply bind_Ok in H as (? & ? & _ & H).
    apply bind_Ok in H as (buf & ? & Hm & _).
    apply on_error_Ok in Hm. exists buf.
    destruct (Marshal _); [done|]. unfold io_of, mret, IO_ret in Hm.
    by simplify_eq. }
  exists buf. split; [done|].
  apply ff_createFileAndRewrite in H.
  destruct (createFileAndRewrite_run m (no_faults fs) buf eq_refl Hbuf)
    as (fs1 & E & Hfiles & Hopen & _).
  rewrite E in H. simplify_eq. by destruct fs'.
Qed.







(** ** Bootstrap, history and reopening *)


Lemma range_Tables_empty : range_Tables ∅ = [].
Proof.
  apply Permutation_nil_r. rewrite range_Tables_perm. by rewrite map_to_list_empty.
Qed.

Lemma asChanges_createNewManifest : asChanges createNewManifest = [].
Proof. unfold asChanges. simpl. by rewrite range_Tables_empty. Qed.







(** ** The counters as totals of the history *)








(** ** The claims on the manifest file *)

Lemma os_OpenFile_missing_run name fs :
  fs_faults fs = [] ->
  fs_files fs !! name = None ->
  os_OpenFile name O_RDWR fs = (fs, Err os_ErrNotExist).
Proof.
  destruct fs as [files open next faults]. simpl. intros -> Hnone.
  unfold_io. cbn. by rewrite Hnone.
Qed.

(** Opening a store without a manifest file when no system call fails: the
    new manifest file is whatever the rewrite file held, then the header
    and one frame with the encoding of the empty change set. *)
Lemma OpenManifestFile_bootstrap_run fs buf :
  fs_faults fs = [] ->
  fs_files fs !! ManifestFilename = None ->
  Marshal {| pb.Changes := [] |} = inr buf ->
  exists fs',
    OpenManifestFile fs
    = (fs', Ok {| file := S (fs_next fs); manifest := createNewManifest |})
    /\ fs_files fs' !! ManifestFilename
       = Some (default [] (fs_files fs !! ManifestRewriteFilename)
               ++ header ++ frame buf)
    /\ fs_files fs' !! ManifestRewriteFilename = None.
Proof.
  intros Hfaults Hnone Hbuf. unfold OpenManifestFile.
  rewrite os_OpenFile_missing_run by done.
  unfold os_IsNotExist. rewrite bool_decide_eq_true_2 by done. cbn [negb].
  rewrite <- asChanges_createNewManifest in Hbuf.
  destruct (createFileAndRewrite_run createNewManifest fs buf Hfaults Hbuf)
    as (fs' & E & Hfiles & _).
  exists fs'.
  erewrite bind_run by exact E. cbn.
  split; [done|]. rewrite Hfiles.
  split; [by rewrite lookup_insert_eq|].
  by rewrite lookup_insert_ne, lookup_delete_eq.
Qed.


(** C2. For a manifest stream with a valid header and complete, well-formed
    frames: when the stream ends at a frame boundary or inside the 8-byte
    length+crc prefix, replay returns without error the manifest of the
    complete frames and the offset where the incomplete prefix starts; when
    it ends inside a payload (fewer bytes than the prefix promised), replay
    returns the short read as an error; and opening the existing file
    truncates it to the returned offset and leaves the descriptor at the
    end of the file. *)
Theorem replay_truncation_point
    (payloads : list (list byte)) (replayed : Manifest) :
  Forall fits_uint32 payloads ->
  applyPayloads createNewManifest payloads = Some replayed ->
  (forall tail,
     (length tail < 8)%nat ->
     replayStream (header ++ frames payloads ++ tail)
     = Ok (replayed, len (header ++ frames payloads)))
  /\ (forall n crc partial,
        0 <= n < 2 ^ 32 ->
        length crc = 4%nat ->
        len partial < n ->
        replayStream (header ++ frames payloads ++ PutUint32 n ++ crc ++ partial)
        = Err (if decide (partial = []) then io_EOF else io_ErrUnexpectedEOF))
  /\ (forall tail fs,
        (length tail < 8)%nat ->
        fs_faults fs = [] ->
        fs_files fs !! ManifestFilename = Some (header ++ frames payloads ++ tail) ->
        exists fs',
          OpenManifestFile fs
          = (fs', Ok {| file := fs_next fs; manifest := replayed |})
          /\ fs_files fs' !! ManifestFilename = Some (header ++ frames payloads)
          /\ fs_open fs' !! fs_next fs
             = Some {| d_name := ManifestFilename;
                       d_offset := length (header ++ frames payloads);
                       d_append := false |}).
Proof.
  intros Hfit Hrep.
  assert (forall tail, (length tail < 8)%nat ->
            replayStream (header ++ frames payloads ++ tail)
            = Ok (replayed, len (header ++ frames payloads))) as Hreplay.
  { intros tail Htail. rewrite (replayStream_frames _ _ _ Hfit Hrep Htail).
    do 2 f_equal. unfold len. rewrite length_app.
    change (length header) with 8%nat. lia. }
  split; [exact Hreplay|]. split.
  - intros n crc partial Hn Hcrc Hshort.
    by apply replayStream_short_payload with (mf' := replayed).
  - intros tail fs Htail Hfaults Hfile.
    destruct (OpenManifestFile_existing fs _ _ _ Hfaults Hfile (Hreplay tail Htail))
      as (fs' & E & Hfiles & Hopen & _).
    { unfold len. rewrite !length_app. lia. }
    exists fs'. split; [done|].
    assert (Z.to_nat (len (header ++ frames payloads))
            = length (header ++ frames payloads)) as Hoff by (unfold len; lia).
    rewrite Hoff in *. split; [|done].
    rewrite Hfiles, lookup_insert_eq. f_equal.
    rewrite (app_assoc header). by rewrite take_app_length.
Qed.

(** ** The engine: [Get] *)

Lemma scanImmutables_newer (older newer : list memTable) m key w e :
  sl_Search (sl m) key w = Some e ->
  Forall (fun m' => sl_Search (sl m') key w = None) newer ->
  forall j, (j <= length newer)%nat ->
    scanImmutables (length older + 1 + j) (older ++ m :: newer) key w
    = Some (Ok (Some e, None)).
Proof.
  intros Hm Hnewer. induction j as [|j IH]; intros Hj.
  - replace (length older + 1 + 0)%nat with (S (length older)) by lia.
    simpl. rewrite list_lookup_middle by done.
    unfold memTable_Get. by rewrite Hm.
  - replace (length older + 1 + S j)%nat with (S (length older + 1 + j)) by lia.
    simpl.
    destruct (lookup_lt_is_Some_2 newer j ltac:(lia)) as [m' Hm'].
    replace ((older ++ m :: newer) !! (length older + 1 + j)%nat) with (Some m').
    2:{ rewrite lookup_app_r by lia.
        replace (length older + 1 + j - length older)%nat with (S j) by lia.
        done. }
    unfold memTable_Get.
    rewrite (proj1 (Forall_lookup _ _) Hnewer _ _ Hm'). apply IH. lia.
Qed.

Lemma scanImmutables_none (immutables : list memTable) key w :
  Forall (fun m => sl_Search (sl m) key w = None) immutables ->
  forall n, (n <= length immutables)%nat ->
    scanImmutables n immutables key w = None.
Proof.
  intros Hnone. induction n as [|n IH]; intros Hn; [done|].
  simpl. destruct (lookup_lt_is_Some_2 immutables n ltac:(lia)) as [m Hm].
  rewrite Hm. unfold memTable_Get.
  rewrite (proj1 (Forall_lookup _ _) Hnone _ _ Hm). apply IH. lia.
Qed.

(** C9. [Get] asks the active memtable first; when it has no entry, the
    immutables from the most recently sealed (the tail of the queue) to the
    oldest, returning the first entry found; when no memtable has an entry,
    the level manager. *)
Theorem Get_lookup_order (key : list byte) (lsm : LSM) (w : World) :
  (forall e,
     sl_Search (sl (lsm_memTable lsm)) key w = Some e ->
     Get key lsm w = Ok (Some e, None))
  /\ (sl_Search (sl (lsm_memTable lsm)) key w = None ->
      (forall older m newer e,
         lsm_immutables lsm = older ++ m :: newer ->
         sl_Search (sl m) key w = Some e ->
         Forall (fun m' => sl_Search (sl m') key w = None) newer ->
         Get key lsm w = Ok (Some e, None))
      /\ (Forall (fun m => sl_Search (sl m) key w = None) (lsm_immutables lsm) ->
          Get key lsm w = Ok (levels_Get (lsm_levels lsm) key w))).
Proof.
  split; [|intros Hactive; split].
  - intros e He. unfold Get, memTable_Get. by rewrite He.
  - intros older m newer e Hq Hm Hnewer.
    unfold Get, memTable_Get at 1. rewrite Hactive, Hq.
    replace (length (older ++ m :: newer))
      with (length older + 1 + length newer)%nat
      by (rewrite length_app; simpl; lia).
    by rewrite (scanImmutables_newer older newer m key w e Hm Hnewer).
  - intros Hnone. unfold Get, memTable_Get at 1. rewrite Hactive.
    by rewrite (scanImmutables_none _ key w Hnone).
Qed.

(** ** The engine: [Set] *)

Lemma memTable_close_Ok m w w' :
  memTable_close m w = (w', None) ->
  exists w1, wal_Close (wal m) w = (w1, None) /\ sl_Close (sl m) w1 = (w', None).
Proof.
  unfold memTable_close. intros H.
  destruct (wal_Close (wal m) w) as [w1 [err|]]; [done|].
  destruct (sl_Close (sl m) w1) as [w2 [err|]] eqn:Hs; [done|].
  simplify_eq. by exists w1.
Qed.

Lemma memTable_close_run m w w1 w2 :
  wal_Close (wal m) w = (w1, None) ->
  sl_Close (sl m) w1 = (w2, None) ->
  memTable_close m w = (w2, None).
Proof. intros Hw Hs. unfold memTable_close. by rewrite Hw, Hs. Qed.

Lemma flushImmutables_Ok immutables : forall levels w levels' w',
  flushImmutables immutables levels w = (levels', w', Ok tt) ->
  flushed immutables levels w levels' w'.
Proof.
  induction immutables as [|m rest IH]; intros levels w levels' w' H; simpl in H.
  - simplify_eq. constructor.
  - destruct (levels_flush m levels w) as [[levels1 w1] [err|]] eqn:Hf; [done|].
    destruct (memTable_close m w1) as [w2 [err|]] eqn:Hc; [done|].
    apply memTable_close_Ok in Hc as (wc & Hwc & Hsc).
    simpl in H. econstructor; [done..|]. by apply IH.
Qed.

Lemma flushImmutables_fails pre : forall m post levels w levels1 w1 levels2 w2 e,
  flushed pre levels w levels1 w1 ->
  levels_flush m levels1 w1 = (levels2, w2, Some e) ->
  flushImmutables (pre ++ m :: post) levels w = (levels2, w2, Err e).
Proof.
  induction pre as [|p pre IH]; intros m post levels w levels1 w1 levels2 w2 e Hpre Hf.
  - inversion Hpre; subst. simpl. by rewrite Hf.
  - inversion Hpre; subst. simpl.
    match goal with
    | Hfl : levels_flush p levels w = _, Hwc : wal_Close (wal p) _ = _,
      Hsc : sl_Close (sl p) _ = _ |- _ =>
        rewrite Hfl, (memTable_close_run _ _ _ _ Hwc Hsc)
    end.
    simpl. by eapply IH.
Qed.

(** Making a memtable does not look at the immutable queue. *)
Lemma NewMemtable_set_immutables queue lsm w :
  NewMemtable (set_immutables queue lsm) w
  = (set_immutables queue (NewMemtable lsm w).1.1,
     (NewMemtable lsm w).1.2, (NewMemtable lsm w).2).
Proof.
  unfold NewMemtable. cbn.
  destruct (OpenWalFile _ w) as [w1 walFile].
  by destruct (NewSkipList _ w1) as [w2 s].
Qed.

(** The first statement of [Set] in terms of [NewMemtable]. *)
Lemma sealIfFull_parts entry lsm w :
  let full :=
    wrap_int (wrap_int (wal_Size (wal (lsm_memTable lsm)) w)
              + wrap_int (EstimateWalCodecSize entry))
    >? MemTableSize (lsm_option lsm) in
  lsm_immutables (sealIfFull entry lsm w).1
  = lsm_immutables lsm ++ (if full then [lsm_memTable lsm] else [])
  /\ lsm_memTable (sealIfFull entry lsm w).1
     = (if full then (NewMemtable lsm w).2 else lsm_memTable lsm)
  /\ lsm_levels (sealIfFull entry lsm w).1
     = (if full then lsm_levels (NewMemtable lsm w).1.1 else lsm_levels lsm)
  /\ (sealIfFull entry lsm w).2
     = (if full then (NewMemtable lsm w).1.2 else w).
Proof.
  intros full. unfold sealIfFull. fold full. destruct full.
  - rewrite NewMemtable_set_immutables. cbn. done.
  - cbn. by rewrite app_nil_r.
Qed.

(** C4, as the code has it. [Set] first seals the active memtable when the
    entry would not fit: the queue the flush loop starts with is the queue
    before the call plus that memtable, and the entry goes to the new
    memtable [NewMemtable] makes. When [Set] returns without error the
    immutable queue is empty, and every memtable of that queue was flushed
    to the level manager, then its WAL and its skip list closed, oldest
    first. When the flush of a queued memtable fails, [Set] returns that
    error after the entry was written to the WAL and the skip list of the
    active memtable; the queue is the one the flush loop started with,
    the memtables flushed and closed before the failing one included, and
    the level manager is as the failed flush left it. *)
Theorem Set_immutable_queue (entry : Entry) (lsm : LSM) (w : World) :
  let full :=
    wrap_int (wrap_int (wal_Size (wal (lsm_memTable lsm)) w)
              + wrap_int (EstimateWalCodecSize entry))
    >? MemTableSize (lsm_option lsm) in
  let queue := lsm_immutables lsm ++ (if full then [lsm_memTable lsm] else []) in
  let active := if full then (NewMemtable lsm w).2 else lsm_memTable lsm in
  let levels0 :=
    if full then lsm_levels (NewMemtable lsm w).1.1 else lsm_levels lsm in
  let w0 := if full then (NewMemtable lsm w).1.2 else w in
  (forall lsm' w',
     LSM_Set entry lsm w = (lsm', w', Ok tt) ->
     lsm_immutables lsm' = []
     /\ lsm_memTable lsm' = active
     /\ exists wa w1,
          wal_Write (wal active) entry w0 = (wa, None)
          /\ sl_Add (sl active) entry wa = (w1, None)
          /\ flushed queue levels0 w1 (lsm_levels lsm') w')
  /\ (forall wa w1 pre m post levels1 w2 levels2 w3 e,
        wal_Write (wal active) entry w0 = (wa, None) ->
        sl_Add (sl active) entry wa = (w1, None) ->
        queue = pre ++ m :: post ->
        flushed pre levels0 w1 levels1 w2 ->
        levels_flush m levels1 w2 = (levels2, w3, Some e) ->
        exists lsm',
          LSM_Set entry lsm w = (lsm', w3, Err e)
          /\ lsm_immutables lsm' = pre ++ m :: post
          /\ lsm_memTable lsm' = active
          /\ lsm_levels lsm' = levels2).
Proof.
  intros full queue active levels0 w0.
  destruct (sealIfFull_parts entry lsm w) as (Hq & Ha & Hl & Hw).
  fold full in Hq, Ha, Hl, Hw. fold queue in Hq. fold active in Ha.
  fold levels0 in Hl. fold w0 in Hw.
  unfold LSM_Set.
  destruct (sealIfFull entry lsm w) as [lsm1 ws]. cbn [fst snd] in *.
  subst ws. unfold memTable_set. rewrite Ha.
  split.
  - intros lsm' w' H.
    destruct (wal_Write (wal active) entry w0) as [wa [err|]] eqn:Hwr; [done|].
    destruct (sl_Add (sl active) entry wa) as [w1 [err|]] eqn:Hadd; [done|].
    destruct (flushImmutables _ _ w1) as [[levels w2] [[]| |]] eqn:Hfl; try done.
    apply flushImmutables_Ok in Hfl. rewrite Hq, Hl in Hfl.
    assert (lsm_immutables lsm' = [] /\ lsm_memTable lsm' = active
            /\ lsm_levels lsm' = levels /\ w' = w2) as (Hi & Hm & Hlv & ->).
    { destruct lsm1 as [a [|m0 q0] lv opt]; cbn in *; by simplify_eq. }
    split; [done|]. split; [done|]. exists wa, w1.
    split; [done|]. split; [done|]. by rewrite Hlv.
  - intros wa w1 pre m post levels1 w2 levels2 w3 e Hwr Hadd Hsplit Hpre Hf.
    rewrite Hwr, Hadd, Hq, Hl, Hsplit.
    rewrite (flushImmutables_fails pre m post _ _ _ _ _ _ e Hpre Hf).
    eexists. split; [done|]. cbn. by rewrite Hq, Hsplit, Ha.
Qed.

(** ** The engine: recovery *)

(** The WAL handle of an open file carries the id it was opened with. *)
Hypothesis OpenWalFile_FID :
  forall opt w, wal_FID (snd (OpenWalFile opt w)) = FID opt.

Lemma scanWalFiles_spec files : forall walFileId0 maxFid,
  wal_names_parse files ->
  scanWalFiles files walFileId0 maxFid
  = Ok (walFileId0 ++ walIds files, max_seen maxFid (walIds files)).
Proof.
  induction files as [|name rest IH]; intros acc mx Hparse.
  - simpl. by rewrite app_nil_r.
  - apply Forall_cons in Hparse as [Hname Hrest].
    cbn [scanWalFiles]. unfold walIds. cbn [omap list_omap].
    fold (walIds rest). unfold walFileId in *.
    destruct (strings_HasSuffix name walFileExt).
    + destruct (Hname eq_refl) as [fid Hfid].
      destruct (strconv_ParseUint _) as [|fid']; [done|]. simplify_eq.
      rewrite IH by done. cbn [mbind option_bind from_option].
      rewrite <- app_assoc. do 2 f_equal. cbn [max_seen foldl app].
      unfold max_seen. f_equal.
      destruct (Z.ltb_spec mx fid); lia.
    + by rewrite IH.
Qed.

Lemma max_seen_ge ids : forall prev,
  prev <= max_seen prev ids
  /\ (forall id, id ∈ ids -> id <= max_seen prev ids)
  /\ (max_seen prev ids = prev \/ max_seen prev ids ∈ ids).
Proof.
  unfold max_seen. induction ids as [|x ids IH]; intros prev; simpl.
  - split; [lia|]. split; [|by left]. intros id Hin. by apply elem_of_nil in Hin.
  - destruct (IH (Z.max prev x)) as (H1 & H2 & H3). split; [lia|]. split.
    + intros id Hin. apply elem_of_cons in Hin as [->|Hin]; [lia|by apply H2].
    + destruct H3 as [H3|H3].
      * rewrite H3. destruct (Z.max_spec prev x) as [[_ ->]|[_ ->]];
          [right; left|by left].
      * right. by right.
Qed.

Lemma walFileId_range name fid : walFileId name = Some fid -> 0 <= fid < 2 ^ 64.
Proof.
  unfold walFileId, strconv_ParseUint. intros H.
  repeat case_match; simplify_eq. lia.
Qed.

Lemma walIds_range files id : id ∈ walIds files -> 0 <= id < 2 ^ 64.
Proof.
  unfold walIds. intros Hin. apply list_elem_of_omap in Hin as (name & _ & H).
  by eapply walFileId_range.
Qed.

Lemma replayEntries_handles entries : forall m w m' w' err,
  replayEntries m entries w = (m', w', err) ->
  wal m' = wal m /\ sl m' = sl m.
Proof.
  induction entries as [|e rest IH]; intros m w m' w' err H; simpl in H.
  - by simplify_eq.
  - match type of H with
    | context [sl_Add (sl ?m1) e w] =>
        assert (wal m1 = wal m /\ sl m1 = sl m) as [Hw Hs]
          by (by destruct (ParseTs e >? maxVersion m));
        destruct (sl_Add (sl m1) e w) as [w1 [err1|]]
    end.
    + by simplify_eq.
    + apply IH in H as [Hw' Hs']. split; congruence.
Qed.

Lemma UpdateSkipList_handles m w m' w' err :
  UpdateSkipList m w = (m', w', err) -> wal m' = wal m /\ sl m' = sl m.
Proof.
  unfold UpdateSkipList.
  destruct (wal_Iterate (wal m) w) as [[entries endOff] iterErr].
  destruct (replayEntries m entries w) as [[m1 w1] err1] eqn:Hrep.
  apply replayEntries_handles in Hrep.
  destruct err1 as [e1|]; [intros ?; by simplify_eq|].
  destruct iterErr as [e2|]; [intros ?; by simplify_eq|].
  destruct (wal_Truncate _ _ w1) as [w2 err2]. intros ?. by simplify_eq.
Qed.

(** A replay without error is what [RecoveryMemTable] returns, and the
    memtable carries the id of the file. *)
Lemma replayed_wal_RecoveryMemTable lsm fid w m w' :
  replayed_wal lsm fid w m w' ->
  RecoveryMemTable fid lsm w = (w', Ok m) /\ wal_FID (wal m) = fid.
Proof.
  intros (w1 & s & w2 & walFile & Hs & Ho & Hu).
  unfold RecoveryMemTable. rewrite Hs, Ho, Hu. split; [done|].
  apply UpdateSkipList_handles in Hu as [Hw _]. rewrite Hw. cbn [wal].
  match type of Ho with
  | OpenWalFile ?opt w1 = _ =>
      pose proof (OpenWalFile_FID opt w1) as Hfid
  end.
  by rewrite Ho in Hfid.
Qed.

Lemma recoverMemTables_spec lsm fids : forall imms w kept w',
  replayed_in_order lsm fids w kept w' ->
  recoverMemTables fids imms lsm w = (w', Ok (imms ++ kept))
  /\ Forall (fun m => wal_FID (wal m) ∈ fids) kept.
Proof.
  induction fids as [|fid rest IH]; intros imms w kept w' Hrep;
    inversion Hrep; subst.
  - simpl. by rewrite app_nil_r.
  - match goal with
    | Hone : replayed_wal lsm fid w _ _ |- _ =>
        destruct (replayed_wal_RecoveryMemTable _ _ _ _ _ Hone) as [E Hfid]
    end.
    simpl. rewrite E.
    match goal with
    | Hrest : replayed_in_order lsm rest _ _ _ |- _ =>
        destruct (IH (imms ++ [m]) _ _ _ Hrest) as [E' Hall]
    end.
    destruct (Z.eqb_spec (sl_Size (sl m) w1) 0) as [Hz|Hnz]; [done|].
    cbn [negb]. rewrite E', <- app_assoc. split; [done|].
    apply Forall_cons. split; [rewrite Hfid; by left|].
    eapply Forall_impl; [exact Hall|]. intros x Hx. by right.
  - match goal with
    | Hone : replayed_wal lsm fid w _ _ |- _ =>
        destruct (replayed_wal_RecoveryMemTable _ _ _ _ _ Hone) as [E Hfid]
    end.
    simpl. rewrite E.
    match goal with
    | Hrest : replayed_in_order lsm rest _ _ _, Hz : sl_Size _ _ = 0 |- _ =>
        destruct (IH imms _ _ _ Hrest) as [E' Hall]; rewrite Hz
    end.
    cbn [negb Z.eqb]. split; [done|].
    eapply Forall_impl; [exact Hall|]. intros x Hx. by right.
Qed.

Lemma NewMemtable_fid lsm w :
  exists lsm' w' m,
    NewMemtable lsm w = (lsm', w', m)
    /\ maxFID (lsm_levels lsm') = wrap_uint64 (maxFID (lsm_levels lsm) + 1)
    /\ wal_FID (wal m) = wrap_uint64 (maxFID (lsm_levels lsm) + 1).
Proof.
  unfold NewMemtable.
  match goal with
  | |- context [OpenWalFile ?opt w] =>
      pose proof (OpenWalFile_FID opt w) as Hfid;
      destruct (OpenWalFile opt w) as [w1 walFile]
  end.
  destruct (NewSkipList _ w1) as [w2 s]. simpl in Hfid.
  by eexists _, _, _.
Qed.

(** C8, as the code has it. When every [.wal] file of the directory is
    named by a decimal uint64, [recovery] takes the ids of these names,
    sorts them, and replays for each id, in ascending order, the WAL file
    [filePath] names for it (the file found, when its name has the form
    [filePath] writes); when each of these replays reports no error, it
    returns the memtables that are not empty after their replay, each
    with the id of a file found, sets the file-id allocator to the maximum
    of the parsed ids and the previous maximum, and makes the new active
    memtable with [NewMemtable], which gives it the next id,
    [maximum + 1] wrapped to 64 bits; when the maximum is below 2^64 - 1,
    that id is strictly greater than every id found and than the id of
    every recovered memtable. *)
Theorem recovery_file_ids
    (lsm : LSM) (w : World) (files : list string)
    (imms : list memTable) (w1 : World) :
  ioutil_ReadDir (opt_WorkDir (lsm_option lsm)) w = (files, None) ->
  wal_names_parse files ->
  replayed_in_order lsm (merge_sort Z.le (walIds files)) w imms w1 ->
  0 <= maxFID (lsm_levels lsm) < 2 ^ 64 ->
  exists lsm' w' active,
    recovery lsm w = (lsm', w', Ok (active, imms))
    /\ StronglySorted Z.le (merge_sort Z.le (walIds files))
    /\ merge_sort Z.le (walIds files) ≡ₚ walIds files
    /\ Forall (fun m => wal_FID (wal m) ∈ walIds files) imms
    /\ maxFID (lsm_levels lsm) <= max_seen (maxFID (lsm_levels lsm)) (walIds files)
    /\ (forall id, id ∈ walIds files ->
          id <= max_seen (maxFID (lsm_levels lsm)) (walIds files))
    /\ (max_seen (maxFID (lsm_levels lsm)) (walIds files) = maxFID (lsm_levels lsm)
        \/ max_seen (maxFID (lsm_levels lsm)) (walIds files) ∈ walIds files)
    /\ NewMemtable
         (set_maxFID (max_seen (maxFID (lsm_levels lsm)) (walIds files)) lsm) w1
       = (lsm', w', active)
    /\ maxFID (lsm_levels lsm')
       = wrap_uint64 (max_seen (maxFID (lsm_levels lsm)) (walIds files) + 1)
    /\ wal_FID (wal active)
       = wrap_uint64 (max_seen (maxFID (lsm_levels lsm)) (walIds files) + 1)
    /\ (max_seen (maxFID (lsm_levels lsm)) (walIds files) < 2 ^ 64 - 1 ->
        (forall id, id ∈ walIds files -> id < wal_FID (wal active))
        /\ Forall (fun m => wal_FID (wal m) < wal_FID (wal active)) imms).
Proof.
  intros Hdir Hparse Hrep Hprev.
  set (M := max_seen (maxFID (lsm_levels lsm)) (walIds files)).
  destruct (max_seen_ge (walIds files) (maxFID (lsm_levels lsm)))
    as (HM1 & HM2 & HM3). fold M in HM1, HM2, HM3.
  unfold recovery. rewrite Hdir, (scanWalFiles_spec files [] _ Hparse).
  cbn [app]. fold M.
  destruct (recoverMemTables_spec lsm _ [] _ _ _ Hrep) as [E Hall].
  rewrite E. cbn [app].
  assert (Forall (fun m => wal_FID (wal m) ∈ walIds files) imms) as Hall'.
  { eapply Forall_impl; [exact Hall|]. intros m Hm. cbn in Hm.
    by rewrite merge_sort_Permutation in Hm. }
  destruct (NewMemtable_fid (set_maxFID M lsm) w1)
    as (lsm' & w' & active & En & Hmax & Hfid).
  rewrite En. cbn [set_maxFID lsm_levels maxFID] in Hmax, Hfid.
  exists lsm', w', active.
  split; [done|].
  split; [apply StronglySorted_merge_sort; [intros x y z; lia|intros x y; lia]|].
  split; [apply merge_sort_Permutation|].
  split; [done|]. split; [done|]. split; [done|]. split; [done|].
  split; [done|]. split; [done|]. split; [done|].
  intros HM.
  assert (forall id, id ∈ walIds files -> id < wal_FID (wal active)) as Hlt.
  { intros id Hin. rewrite Hfid. unfold wrap_uint64.
    pose proof (HM2 id Hin). rewrite Z.mod_small; lia. }
  split; [exact Hlt|].
  eapply Forall_impl; [exact Hall'|]. intros m Hm. by apply Hlt.
Qed.

(** * Further properties of the manifest *)

Lemma applyManifestChange_consistent_any m change :
  consistent m ->
  level_uint8 change ->
  consistent (applyManifestChange m change).1
  /\ (applyManifestChange m change).2 <> Panic.
Proof.
  intros Hc Hu.
  destruct (applyManifestChange m change) as [m' [[]|e|]] eqn:E; simpl.
  - split; [|done]. by eapply applyManifestChange_consistent.
  - split; [|done]. by rewrite (applyManifestChange_Err _ _ _ _ E).
  - exfalso. unfold applyManifestChange in E.
    destruct (pb.Op change); [| |done].
    + destruct (Tables m !! pb.Id change); [done|].
      destruct (extendLevels_lookup (Levels m) _ (proj1 Hu)) as [lm Hlm].
      by rewrite Hlm in E.
    + destruct (Tables m !! pb.Id change) as [tm|] eqn:Htm; [|done].
      destruct (consistent_level_lookup _ _ _ Hc Htm) as [lm Hlm].
      by rewrite Hlm in E.
Qed.

(** X1. The invariant of the manifest survives every change set with uint8
    levels, accepted or rejected, and applying one to a consistent manifest
    never panics. *)
Theorem applyChangeSet_keeps_invariant
    (m : Manifest) (changeSet : pb.ManifestChangeSet) :
  consistent m ->
  Forall level_uint8 (pb.Changes changeSet) ->
  consistent (applyChangeSet m changeSet).1
  /\ (applyChangeSet m changeSet).2 <> Panic.
Proof.
  unfold applyChangeSet. generalize (pb.Changes changeSet). clear changeSet.
  intros changes. revert m.
  induction changes as [|c cs IH]; intros m Hc Hu; simpl; [done|].
  apply Forall_cons in Hu as [Hu1 Hu2].
  destruct (applyManifestChange_consistent_any m c Hc Hu1) as [Hc1 Hnp].
  destruct (applyManifestChange m c) as [m1 [[]|e|]]; simpl in *; try done.
  by apply IH.
Qed.

(** * Further properties of replay *)

(** X2. A stream shorter than the 8-byte header, or one that does not start
    with the magic text, is rejected with [ErrBadMagic]. *)
Theorem replayStream_bad_magic (stream : list byte) :
  (length stream < 8)%nat \/ take 4 stream <> MagicText ->
  replayStream stream = Err ErrBadMagic.
Proof.
  intros H. unfold replayStream, io_ReadFull. cbn [reader count].
  destruct (decide (length (take 8 stream) = 8%nat)) as [Hl|Hl].
  - destruct H as [H|H]; [rewrite length_take in Hl; lia|].
    rewrite take_take. change (4 `min` 8)%nat with 4%nat.
    by rewrite bool_decide_false.
  - by destruct (decide (length (take 8 stream) = 0%nat)).
Qed.

(** X3. A stream with the magic text and another version than [MagicVersion]
    is rejected with [ErrNotSupportManifestVersion], whatever follows. *)
Theorem replayStream_wrong_version (version : Z) (rest : list byte) :
  0 <= version < 2 ^ 32 ->
  version <> MagicVersion ->
  replayStream (MagicText ++ PutUint32 version ++ rest)
  = Err ErrNotSupportManifestVersion.
Proof.
  intros Hv Hne. unfold replayStream.
  rewrite (app_assoc MagicText).
  rewrite (io_ReadFull_app (MagicText ++ PutUint32 version)) by done.
  rewrite take_app_length' by done. rewrite bool_decide_true by done.
  cbn [negb]. rewrite drop_app_length' by done.
  rewrite Uint32_PutUint32, Z.mod_small by done.
  unfold wrap_uint32. rewrite (Z.mod_small MagicVersion) by done.
  destruct (Z.eqb_spec version MagicVersion); done.
Qed.

(** X4. A frame whose stored checksum is not the CRC of its payload stops the
    replay with [ErrBadChecksum], after any number of good frames and
    whatever follows the bad one. *)
Theorem replayStream_checksum_mismatch
    (payloads : list (list byte)) (replayed : Manifest)
    (payload : list byte) (crc : Z) (rest : list byte) :
  Forall fits_uint32 payloads ->
  applyPayloads createNewManifest payloads = Some replayed ->
  fits_uint32 payload ->
  0 <= crc < 2 ^ 32 ->
  crc <> crc32_Checksum payload ->
  replayStream (header ++ frames payloads
                ++ PutUint32 (len payload) ++ PutUint32 crc ++ payload ++ rest)
  = Err ErrBadChecksum.
Proof.
  intros Hfit Happly Hp Hcrc Hne. rewrite replayStream_header.
  pose proof (length_frames_ge payloads) as Hge.
  match goal with
  | |- context [S (length (frames payloads ++ ?t))] =>
      replace (S (length (frames payloads ++ t)))
        with (length payloads + S (length (frames payloads ++ t) - length payloads))%nat
        by (rewrite length_app; lia)
  end.
  rewrite (replayLoop_frames _ _ _ _ _ _ Hfit Happly).
  rewrite replayLoop_S.
  rewrite (app_assoc (PutUint32 (len payload)) (PutUint32 crc)).
  rewrite io_ReadFull_app by done.
  rewrite take_app_length' by done. rewrite drop_app_length' by done.
  rewrite !Uint32_PutUint32.
  rewrite (Z.mod_small (len payload)) by (unfold fits_uint32, len in *; lia).
  rewrite io_ReadFull_app by (unfold len; lia).
  rewrite (Z.mod_small crc) by done.
  destruct (Z.eqb_spec (crc32_Checksum payload) crc); [congruence|done].
Qed.

Lemma io_ReadFull_enough s c n :
  (n <= length s)%nat ->
  io_ReadFull {| reader := s; count := c |} n
  = ({| reader := drop n s; count := c + Z.of_nat n |}, Ok (take n s)).
Proof.
  intros H. rewrite <- (take_drop n s) at 1.
  rewrite io_ReadFull_app by (rewrite length_take; lia).
  unfold len. rewrite length_take. do 3 f_equal. lia.
Qed.

(** The bytes before the offset a replay returns replay to the same
    manifest and the same offset. *)
Lemma replayLoop_take fuel : forall s c m m' off,
  replayLoop fuel {| reader := s; count := c |} m = Some (Ok (m', off)) ->
  c <= off <= c + len s
  /\ forall fuel', (length (take (Z.to_nat (off - c)) s) < fuel')%nat ->
       replayLoop fuel' {| reader := take (Z.to_nat (off - c)) s; count := c |} m
       = Some (Ok (m', off)).
Proof.
  induction fuel as [|fuel IH]; intros s c m m' off Hrun; [done|].
  rewrite replayLoop_S in Hrun.
  destruct (le_lt_dec 8 (length s)) as [H8|H8].
  2:{ pose proof (io_ReadFull_short s c 8 H8) as Hrd.
      destruct (io_ReadFull _ 8) as [r' res]. simpl in Hrd. subst res.
      assert (off = c /\ m' = m) as [-> ->].
      { destruct (decide (s = [])); simpl in Hrun; by simplify_eq. }
      split; [unfold len; lia|]. intros [|fuel'] Hf; [lia|].
      rewrite Z.sub_diag. simpl take. by rewrite replayLoop_S. }
  rewrite io_ReadFull_enough in Hrun by done.
  set (n := Z.to_nat (Uint32 (take 4 (take 8 s)))) in *.
  destruct (le_lt_dec n (length (drop 8 s))) as [Hn|Hn].
  2:{ pose proof (io_ReadFull_short (drop 8 s) (c + Z.of_nat 8) n Hn) as Hrd.
      destruct (io_ReadFull _ n) as [r' res]. simpl in Hrd. by subst res. }
  rewrite io_ReadFull_enough in Hrun by done.
  destruct (crc32_Checksum (take n (drop 8 s))
            =? Uint32 (drop 4 (take 8 s))) eqn:Hcrc; [|done].
  cbn [negb] in Hrun.
  destruct (Unmarshal (take n (drop 8 s))) as [|changeSet] eqn:Hdec; [done|].
  destruct (applyChangeSet m changeSet) as [m1 [[]| |]] eqn:Ha; try done.
  apply IH in Hrun as [Hoff Hrest].
  rewrite length_drop in Hn.
  unfold len in *. rewrite !length_drop in Hoff.
  split; [lia|]. intros [|fuel'] Hf; [lia|].
  rewrite length_take in Hf.
  set (k := Z.to_nat (off - (c + Z.of_nat 8 + Z.of_nat n))) in *.
  assert (Z.to_nat (off - c) = (8 + (n + k))%nat) as Hsplit by lia.
  assert (take (Z.to_nat (off - c)) s
          = take 8 s ++ take n (drop 8 s) ++ take k (drop n (drop 8 s))) as Hs.
  { rewrite Hsplit. rewrite <- (take_drop 8 s) at 1.
    rewrite take_app_add' by (rewrite length_take; lia). f_equal.
    rewrite <- (take_drop n (drop 8 s)) at 1.
    rewrite take_app_add' by (rewrite length_take, length_drop; lia). done. }
  rewrite Hs. rewrite replayLoop_S.
  rewrite io_ReadFull_app by (rewrite length_take; lia).
  fold n. rewrite io_ReadFull_app by (rewrite length_take, length_drop; lia).
  rewrite Hcrc. cbn [negb]. rewrite Hdec, Ha.
  unfold len. rewrite !length_take, !length_drop.
  replace (c + Z.of_nat (8 `min` length s) + Z.of_nat (n `min` (length s - 8)))
    with (c + Z.of_nat 8 + Z.of_nat n) by lia.
  apply Hrest. rewrite length_take, length_drop. lia.
Qed.

Lemma replayStream_take stream m off :
  replayStream stream = Ok (m, off) ->
  8 <= off <= len stream
  /\ replayStream (take (Z.to_nat off) stream) = Ok (m, off).
Proof.
  intros Hrun. unfold replayStream in Hrun.
  destruct (le_lt_dec 8 (length stream)) as [H8|H8].
  2:{ pose proof (io_ReadFull_short stream 0 8 H8) as Hrd.
      destruct (io_ReadFull _ 8) as [r' res]. simpl in Hrd. by subst res. }
  rewrite io_ReadFull_enough in Hrun by done.
  destruct (bool_decide (take 4 (take 8 stream) = MagicText)) eqn:Hm; [|done].
  cbn [negb] in Hrun.
  destruct (Uint32 (drop 4 (take 8 stream)) =? wrap_uint32 MagicVersion) eqn:Hv;
    [|done].
  cbn [negb reader] in Hrun.
  destruct (replayLoop _ _ _) as [res|] eqn:Hloop; [|done]. subst res.
  apply replayLoop_take in Hloop as [Hoff Hrest].
  unfold len in *. rewrite length_drop in Hoff.
  split; [lia|].
  assert (take (Z.to_nat off) stream
          = take 8 stream ++ take (Z.to_nat (off - (0 + Z.of_nat 8))) (drop 8 stream))
    as Hs.
  { replace (Z.to_nat off) with (8 + Z.to_nat (off - (0 + Z.of_nat 8)))%nat by lia.
    rewrite <- (take_drop 8 stream) at 1.
    rewrite take_app_add' by (rewrite length_take; lia). done. }
  rewrite Hs. unfold replayStream.
  rewrite io_ReadFull_app by (rewrite length_take; lia).
  rewrite Hm, Hv. cbn [negb reader].
  unfold len.
  replace (length (take 8 stream)) with 8%nat by (rewrite length_take; lia).
  rewrite Hrest; [done|]. lia.
Qed.

(** X5. Replay is stable under the truncation it asks for: the offset it
    returns lies between the header and the end of the stream, and the
    stream cut at that offset replays to the same manifest and offset. *)
Theorem replay_truncation_stable
    (stream : list byte) (m : Manifest) (off : Z) :
  replayStream stream = Ok (m, off) ->
  8 <= off <= len stream
  /\ replayStream (take (Z.to_nat off) stream) = Ok (m, off).
Proof.
  intros Hrun. unfold replayStream in Hrun.
  destruct (le_lt_dec 8 (length stream)) as [H8|H8].
  2:{ pose proof (io_ReadFull_short stream 0 8 H8) as Hrd.
      destruct (io_ReadFull _ 8) as [r' res]. simpl in Hrd. by subst res. }
  rewrite io_ReadFull_enough in Hrun by done.
  destruct (bool_decide (take 4 (take 8 stream) = MagicText)) eqn:Hm; [|done].
  cbn [negb] in Hrun.
  destruct (Uint32 (drop 4 (take 8 stream)) =? wrap_uint32 MagicVersion) eqn:Hv;
    [|done].
  cbn [negb reader] in Hrun.
  destruct (replayLoop _ _ _) as [res|] eqn:Hloop; [|done]. subst res.
  apply replayLoop_take in Hloop as [Hoff Hrest].
  unfold len in *. rewrite length_drop in Hoff.
  split; [lia|].
  assert (take (Z.to_nat off) stream
          = take 8 stream ++ take (Z.to_nat (off - (0 + Z.of_nat 8))) (drop 8 stream))
    as Hs.
  { replace (Z.to_nat off) with (8 + Z.to_nat (off - (0 + Z.of_nat 8)))%nat by lia.
    rewrite <- (take_drop 8 stream) at 1.
    rewrite take_app_add' by (rewrite length_take; lia). done. }
  rewrite Hs. unfold replayStream.
  rewrite io_ReadFull_app by (rewrite length_take; lia).
  rewrite Hm, Hv. cbn [negb reader].
  unfold len.
  replace (length (take 8 stream)) with 8%nat by (rewrite length_take; lia).
  rewrite Hrest; [done|]. lia.
Qed.

(** * Further properties of opening the manifest *)

Lemma OpenManifestFile_replay_Panic fs content :
  fs_faults fs = [] ->
  fs_files fs !! ManifestFilename = Some content ->
  replayStream content = Panic ->
  (OpenManifestFile fs).2 = Panic.
Proof.
  destruct fs as [files open next faults]. simpl.
  intros -> Hfile Hreplay.
  unfold OpenManifestFile. unfold_io. cbn -[replayStream].
  rewrite Hfile. cbn -[replayStream].
  rewrite lookup_insert_eq. cbn -[replayStream].
  by rewrite Hfile, drop_0, Hreplay.
Qed.

(** X6. A manifest file whose replay fails is reported with the error of the
    replay, its bytes stay as they are and the descriptor that read it is
    closed: no other file changes and no descriptor is left open. *)
Theorem OpenManifestFile_rejects_untouched
    (fs : FileSys) (content : list byte) (e : error) :
  fs_faults fs = [] ->
  fs_open fs !! fs_next fs = None ->
  fs_files fs !! ManifestFilename = Some content ->
  replayStream content = Err e ->
  exists fs',
    OpenManifestFile fs = (fs', Err e)
    /\ fs_files fs' = fs_files fs
    /\ fs_open fs' = fs_open fs.
Proof.
  destruct fs as [files open next faults]. simpl.
  intros -> Hfresh Hfile Hreplay.
  unfold OpenManifestFile. unfold_io. cbn -[replayStream].
  rewrite Hfile. cbn -[replayStream].
  rewrite lookup_insert_eq. cbn -[replayStream].
  rewrite Hfile, drop_0, Hreplay. cbn -[replayStream].
  rewrite lookup_insert_eq. cbn -[replayStream].
  eexists. split; [done|]. cbn. split; [done|].
  rewrite delete_insert_eq. by apply delete_id.
Qed.

(** X7. Opening an existing manifest is idempotent: once an open has succeeded
    and cut the file at the replay offset, a second open succeeds with the
    same manifest and leaves every file as the first open left it. *)
Theorem OpenManifestFile_twice
    (fs fs1 : FileSys) (content : list byte) (mf1 : ManifestFile) :
  fs_faults fs = [] ->
  fs_files fs !! ManifestFilename = Some content ->
  OpenManifestFile fs = (fs1, Ok mf1) ->
  exists fs2,
    OpenManifestFile fs1
    = (fs2, Ok {| file := fs_next fs1; manifest := manifest mf1 |})
    /\ fs_files fs2 = fs_files fs1.
Proof.
  intros Hff Hfile Hopen.
  destruct (replayStream content) as [[m off]|e|] eqn:Hreplay.
  - destruct (replayStream_take _ _ _ Hreplay) as [Hoff Hagain].
    destruct (OpenManifestFile_existing fs content m off Hff Hfile Hreplay
                ltac:(lia)) as (fs1' & E & Hfiles & _ & Hff1).
    rewrite E in Hopen. simplify_eq. cbn [manifest].
    destruct (OpenManifestFile_existing fs1 (take (Z.to_nat off) content) m off)
      as (fs2 & E2 & Hfiles2 & _); try done.
    + rewrite Hfiles. apply lookup_insert_eq.
    + unfold len in *. rewrite length_take. lia.
    + exists fs2. split; [done|]. rewrite Hfiles2, Hfiles.
      rewrite take_take, Nat.min_id. by rewrite insert_insert_eq.
  - pose proof (OpenManifestFile_replay_error fs content e Hff Hfile Hreplay) as H.
    by rewrite Hopen in H.
  - pose proof (OpenManifestFile_replay_Panic fs content Hff Hfile Hreplay) as H.
    by rewrite Hopen in H.
Qed.

(** * Further properties of the manifest log *)

(** X8. The file a successful [rewrite] leaves: the header and one frame, the
    snapshot of the live tables; no rewrite file is left, no other file
    changes, and replaying the new file gives the tables of the manifest in
    memory with [Creations] their number and [Deletions] 0. *)
Theorem rewrite_compacts_file
    (mf mf' : ManifestFile) (fs fs' : FileSys) :
  consistent (manifest mf) ->
  Z.of_nat (size (Tables (manifest mf))) < 2 ^ 63 ->
  fs_files fs !! ManifestRewriteFilename = None ->
  rewrite mf fs = (mf', fs', Ok tt) ->
  exists buf replayed,
    Marshal {| pb.Changes := asChanges (manifest mf) |} = inr buf
    /\ fs_files fs'
       = <[ManifestFilename := header ++ frame buf]> (fs_files fs)
    /\ replayStream (header ++ frame buf)
       = Ok (replayed, len (header ++ frame buf))
    /\ Tables replayed = Tables (manifest mf)
    /\ Creations replayed = Z.of_nat (size (Tables (manifest mf)))
    /\ Deletions replayed = 0.
Proof.
  intros Hc Hsize Hnone H. unfold rewrite in H.
  destruct (file_Close (file mf) fs) as [fsa [[]| |]] eqn:Hcl; try done.
  destruct (createFileAndRewrite (manifest mf) fsa) as [fsb [[fp n]| |]] eqn:Hcr;
    try done.
  simplify_eq.
  apply file_Close_Ok in Hcl as (Hf & _ & _).
  apply createFileAndRewrite_Ok in Hcr as (buf & Hbuf & -> & Hfiles & Hopen).
  rewrite Hf, Hnone in Hfiles. simpl in Hfiles.
  destruct (replay_snapshot (manifest mf) Hc Hsize) as (m' & E & HT & HC & HD & Hc').
  exists buf, m'. split; [done|]. split.
  { rewrite Hfiles. f_equal. by apply delete_id. }
  split; [|done].
  pose proof (replayStream_frames [buf] [] m') as Hr.
  assert (frames [buf] = frame buf) as Hfr.
  { unfold frames. simpl. by rewrite app_nil_r. }
  rewrite Hfr, app_nil_r in Hr. rewrite Hr.
  - do 2 f_equal. unfold len. rewrite length_app. simpl. lia.
  - apply Forall_singleton. by eapply Marshal_fits.
  - simpl. rewrite (Unmarshal_Marshal _ _ Hbuf). unfold applyChangeSet. simpl.
    by rewrite E.
  - simpl. lia.
Qed.

(** X9. Below the rewrite threshold a successful [addChanges] appends exactly
    one frame, the marshalled change set behind its length and CRC, to the
    manifest file; the bytes already there and every other file stay. *)
Theorem addChanges_appends_one_frame
    (changes : list pb.ManifestChange) (mf mf' : ManifestFile)
    (fs fs' : FileSys) (d : descriptor) (content buf : list byte) :
  fs_open fs !! file mf = Some d ->
  fs_files fs !! d_name d = Some content ->
  d_append d = true \/ d_offset d = length content ->
  Marshal {| pb.Changes := changes |} = inr buf ->
  Deletions (applyChangeSet (manifest mf) {| pb.Changes := changes |}).1
    <= ManifestDeletionsRewriteThreshold ->
  addChanges changes mf fs = (mf', fs', Ok tt) ->
  fs_files fs' = <[d_name d := content ++ frame buf]> (fs_files fs)
  /\ file mf' = file mf
  /\ manifest mf' = (applyChangeSet (manifest mf) {| pb.Changes := changes |}).1.
Proof.
  intros Hd Hcontent Hend Hbuf Hdel H. unfold addChanges in H.
  rewrite Hbuf in H.
  destruct (applyChangeSet _ _) as [m [[]| |]] eqn:Happly; try done.
  cbn [fst] in Hdel.
  replace (Deletions m >? ManifestDeletionsRewriteThreshold) with false in H by lia.
  cbn [andb] in H.
  destruct (file_Write _ _ fs) as [fs1 [[]| |]] eqn:Hw; try done.
  cbn [file] in H. destruct (file_Sync (file mf) fs1) as [fs2 r] eqn:Hsync.
  simplify_eq. cbn [file manifest].
  apply file_Sync_Ok in Hsync as (Hf2 & _ & _).
  destruct (file_Write_Ok _ _ _ _ _ _ Hw Hd Hcontent Hend) as (Hf1 & _ & _).
  by rewrite Hf2, Hf1.
Qed.

Lemma wrap_int_small z : - 2 ^ 63 <= z < 2 ^ 63 -> wrap_int z = z.
Proof. intros H. unfold wrap_int. rewrite Z.mod_small; lia. Qed.

Lemma applyChanges_accounting changes : forall m m' r,
  applyChanges m changes = (m', r) ->
  r <> Panic ->
  0 <= Creations m -> 0 <= Deletions m ->
  Creations m + len changes < 2 ^ 63 ->
  Deletions m + len changes < 2 ^ 63 ->
  Creations m' - Deletions m' - Z.of_nat (size (Tables m'))
  = Creations m - Deletions m - Z.of_nat (size (Tables m))
  /\ Creations m <= Creations m' <= Creations m + len changes
  /\ Deletions m <= Deletions m' <= Deletions m + len changes.
Proof.
  unfold len.
  induction changes as [|c cs IH]; intros m m' r H Hr HC0 HD0 HC HD; simpl in *.
  - simplify_eq. lia.
  - destruct (applyManifestChange m c) as [m1 r1] eqn:E.
    assert (r1 <> Panic) as Hr1.
    { intros ->. by simplify_eq. }
    assert (r1 = Ok tt
            /\ Creations m1 - Deletions m1 - Z.of_nat (size (Tables m1))
               = Creations m - Deletions m - Z.of_nat (size (Tables m))
            /\ Creations m <= Creations m1 <= Creations m + 1
            /\ Deletions m <= Deletions m1 <= Deletions m + 1
            \/ (exists e, r1 = Err e) /\ m1 = m) as Hstep.
    { unfold applyManifestChange in E.
      destruct (pb.Op c).
      - destruct (Tables m !! pb.Id c) eqn:Hid; [right; simplify_eq; eauto|].
        destruct (_ !! Z.to_nat (pb.Level c)); simplify_eq; try done.
        left. cbn. rewrite wrap_int_small by lia.
        rewrite map_size_insert_None by done. split; [done|lia].
      - destruct (Tables m !! pb.Id c) eqn:Hid; [|right; simplify_eq; eauto].
        destruct (_ !! Z.to_nat (Level _)); simplify_eq; try done.
        left. cbn. rewrite wrap_int_small by lia.
        assert (size (Tables m) = S (size (delete (pb.Id c) (Tables m)))) as Hsz.
        { rewrite <- (insert_delete_id (Tables m) _ _ Hid) at 1.
          rewrite map_size_insert_None; [done|apply lookup_delete_eq]. }
        split; [done|lia].
      - right; simplify_eq; eauto. }
    destruct Hstep as [(-> & H1 & H2 & H3)|[[e ->] ->]].
    + destruct (IH _ _ _ H Hr) as (I1 & I2 & I3); lia.
    + simplify_eq. lia.
Qed.

(** X10. The counters account for the live tables: when [Creations - Deletions]
    is the number of tables before a call of [addChanges], it is the number
    of tables after it, whether the call appends, rewrites or fails with an
    error after applying a part of the changes. *)
Theorem addChanges_counts_live_tables
    (changes : list pb.ManifestChange) (mf mf' : ManifestFile)
    (fs fs' : FileSys) (r : result unit) :
  Creations (manifest mf) - Deletions (manifest mf)
    = Z.of_nat (size (Tables (manifest mf))) ->
  0 <= Deletions (manifest mf) ->
  Creations (manifest mf) + len changes < 2 ^ 63 ->
  addChanges changes mf fs = (mf', fs', r) ->
  r <> Panic ->
  Creations (manifest mf') - Deletions (manifest mf')
  = Z.of_nat (size (Tables (manifest mf')))
  /\ 0 <= Deletions (manifest mf').
Proof.
  intros Hinv HD0 HC H Hr. unfold addChanges in H.
  destruct (Marshal _) as [|buf]; [by simplify_eq|].
  destruct (applyChangeSet _ _) as [m ra] eqn:Happly.
  unfold applyChangeSet in Happly. cbn [pb.Changes] in Happly.
  assert (ra <> Panic) as Hra.
  { intros ->. by simplify_eq. }
  destruct (applyChanges_accounting _ _ _ _ Happly Hra) as (Hacc & HCm & HDm);
    [unfold len in *; lia..|].
  assert (Creations m - Deletions m = Z.of_nat (size (Tables m))
          /\ 0 <= Deletions m) as Hm by lia.
  destruct ra as [[]|e|]; [|by simplify_eq|done].
  match type of H with
  | context [if ?c then _ else _] => destruct c
  end.
  - unfold rewrite in H. cbn [file manifest] in H.
    destruct (file_Close (file mf) fs) as [fsa [[]| |]] eqn:Hcl;
      [|by simplify_eq..].
    destruct (createFileAndRewrite m fsa) as [fsb [[fp n]| |]] eqn:Hcr;
      [|by simplify_eq..].
    apply createFileAndRewrite_Ok in Hcr as (buf' & _ & -> & _).
    cbn [file] in H. destruct (file_Sync fp fsb) as [fsc rs]. simplify_eq.
    cbn. lia.
  - destruct (file_Write _ _ fs) as [fs1 [[]| |]]; [|by simplify_eq..].
    cbn [file] in H. destruct (file_Sync (file mf) fs1) as [fs2 rs].
    by simplify_eq.
Qed.

(** X11. The snapshot [rewrite] writes holds one CREATE change for every
    table of the manifest and nothing else, in whatever order the map is
    ranged over: it has as many changes as there are tables, no id twice,
    and a change is in it exactly when its id is a tracked table, its
    operation is CREATE, its level is the level of the table (as a uint32)
    and its checksum is the checksum of the table. *)
Theorem asChanges_snapshot (m : Manifest) :
  length (asChanges m) = size (Tables m)
  /\ NoDup (pb.Id <$> asChanges m)
  /\ forall change,
       change ∈ asChanges m
       <-> exists tm, Tables m !! pb.Id change = Some tm
                      /\ pb.Op change = pb.ManifestChange_CREATE
                      /\ pb.Level change = Level tm mod 2 ^ 32
                      /\ pb.Checksum change = Checksum tm.
Proof.
  unfold asChanges.
  pose proof (range_Tables_perm (Tables m)) as Hperm.
  split; [|split].
  - rewrite length_map, Hperm. by rewrite length_map_to_list.
  - rewrite <- list_fmap_compose.
    rewrite (list_fmap_ext _ fst (range_Tables (Tables m)))
      by (by intros i [id tm] _).
    rewrite Hperm. apply NoDup_fst_map_to_list.
  - intros change. rewrite list_elem_of_fmap. split.
    + intros [[id tm] [-> Hin]]. rewrite Hperm in Hin.
      apply elem_of_map_to_list in Hin. cbn. eauto.
    + intros (tm & Hin & Hop & Hlevel & Hsum).
      exists (pb.Id change, tm). split.
      * destruct change as [id op level checksum]. cbn in *.
        unfold newCreateChange, wrap_uint32. by subst.
      * rewrite Hperm. by apply elem_of_map_to_list.
Qed.

(** * File names *)

Lemma string_length_app s1 s2 :
  String.length (s1 +:+ s2) = (String.length s1 + String.length s2)%nat.
Proof. induction s1 as [|c s1 IH]; simpl; [done|]. by rewrite IH. Qed.

Lemma substring_0_length s : String.substring 0 (String.length s) s = s.
Proof. induction s as [|c s IH]; simpl; [done|]. by rewrite IH. Qed.

Lemma substring_0_app s1 s2 :
  String.substring 0 (String.length s1) (s1 +:+ s2) = s1.
Proof.
  induction s1 as [|c s1 IH]; simpl.
  - by destruct s2.
  - by rewrite IH.
Qed.

Lemma substring_skip_app s1 s2 :
  String.substring (String.length s1) (String.length s2) (s1 +:+ s2) = s2.
Proof.
  induction s1 as [|c s1 IH]; simpl; [apply substring_0_length|done].
Qed.

Lemma strings_HasSuffix_app s suffix : strings_HasSuffix (s +:+ suffix) suffix = true.
Proof.
  unfold strings_HasSuffix. rewrite string_length_app.
  replace (String.length s + String.length suffix - String.length suffix)%nat
    with (String.length s) by lia.
  rewrite substring_skip_app, bool_decide_true by done.
  rewrite andb_true_r. apply Nat.leb_le. lia.
Qed.

Lemma trim_suffix_app s suffix :
  String.substring 0 (String.length (s +:+ suffix) - String.length suffix)
                   (s +:+ suffix) = s.
Proof.
  rewrite string_length_app.
  replace (String.length s + String.length suffix - String.length suffix)%nat
    with (String.length s) by lia.
  apply substring_0_app.
Qed.

(** Decimal digits. *)
Lemma uint_of_string_zero s :
  NilEmpty.uint_of_string ("0" +:+ s) = Decimal.D0 <$> NilEmpty.uint_of_string s.
Proof.
  unfold String.app. simpl. by destruct (NilEmpty.uint_of_string s).
Qed.

Lemma uint_of_string_zeros k s d :
  NilEmpty.uint_of_string s = Some d ->
  NilEmpty.uint_of_string (String.concat "" (replicate k "0") +:+ s)
  = Some (Nat.iter k Decimal.D0 d).
Proof.
  intros H. induction k as [|k IH]; [done|].
  assert (String.concat "" (replicate (S k) "0") +:+ s
          = "0" +:+ (String.concat "" (replicate k "0") +:+ s)) as ->.
  { simpl. by destruct (replicate k "0"). }
  rewrite uint_of_string_zero, IH. done.
Qed.

Lemma of_uint_zeros k d : N.of_uint (Nat.iter k Decimal.D0 d) = N.of_uint d.
Proof. induction k as [|k IH]; [done|]. simpl. exact IH. Qed.

Lemma to_uint_nonnil n : N.to_uint n <> Decimal.Nil.
Proof. destruct n; [done|]. apply DecimalPos.Unsigned.to_uint_nonnil. Qed.

Lemma string_of_uint_nonempty d : NilZero.string_of_uint d <> EmptyString.
Proof. by destruct d. Qed.

(** The digits [Sprintf_05d] prints are the decimal numeral of the id,
    behind zeros. *)
Lemma Sprintf_05d_digits fid :
  0 <= fid ->
  exists d,
    NilEmpty.uint_of_string (Sprintf_05d fid) = Some d
    /\ Z.of_N (N.of_uint d) = fid
    /\ Sprintf_05d fid <> EmptyString.
Proof.
  intros Hfid. unfold Sprintf_05d.
  set (u := N.to_uint (Z.to_N fid)).
  assert (NilEmpty.uint_of_string (NilZero.string_of_uint u) = Some u) as Hu.
  { pose proof (NilZero.usu u (to_uint_nonnil _)) as H.
    unfold NilZero.uint_of_string in H.
    pose proof (string_of_uint_nonempty u).
    by destruct (NilZero.string_of_uint u). }
  eexists. split; [by apply uint_of_string_zeros|]. split.
  - rewrite of_uint_zeros. subst u. rewrite DecimalN.Unsigned.of_to. lia.
  - pose proof (string_of_uint_nonempty u) as Hne.
    destruct (String.concat _ _); simpl; [done|done].
Qed.

Lemma strconv_ParseUint_Sprintf fid :
  0 <= fid < 2 ^ 64 -> strconv_ParseUint (Sprintf_05d fid) = inr fid.
Proof.
  intros Hfid. destruct (Sprintf_05d_digits fid) as (d & Hd & Hv & Hne); [lia|].
  unfold strconv_ParseUint, NilZero.uint_of_string.
  destruct (Sprintf_05d fid); [done|]. rewrite Hd, Hv.
  by replace (fid <? 2 ^ 64) with true by lia.
Qed.

Lemma walFileId_Sprintf fid :
  0 <= fid < 2 ^ 64 -> walFileId (Sprintf_05d fid +:+ walFileExt) = Some fid.
Proof.
  intros Hfid. unfold walFileId.
  rewrite strings_HasSuffix_app, trim_suffix_app.
  by rewrite strconv_ParseUint_Sprintf.
Qed.

(** Digits hold no slash and no sign. *)
Lemma digits_no_slash s d :
  NilEmpty.uint_of_string s = Some d -> contains_slash s = false.
Proof.
  revert d. induction s as [|c s IH]; intros d H; [done|].
  simpl in H. destruct (NilEmpty.uint_of_string s) as [d'|] eqn:E.
  - simpl. rewrite (IH d' eq_refl), orb_false_r.
    unfold is_char. apply bool_decide_eq_false. intros Hc. by simplify_eq.
  - unfold uint_of_char in H. by repeat case_match.
Qed.

Lemma digits_no_sign c s d :
  NilEmpty.uint_of_string (String c s) = Some d ->
  is_char c "-" = false /\ is_char c "+" = false.
Proof.
  intros H. unfold is_char.
  split; apply bool_decide_eq_false; intros Hc; simplify_eq; simpl in H;
    by destruct (NilEmpty.uint_of_string s).
Qed.

Lemma contains_slash_app s1 s2 :
  contains_slash (s1 +:+ s2) = contains_slash s1 || contains_slash s2.
Proof.
  induction s1 as [|c s1 IH]; simpl; [done|]. by rewrite IH, orb_assoc.
Qed.

Lemma trimRightSlashes_no_slash s :
  contains_slash s = false -> trimRightSlashes s = s.
Proof.
  induction s as [|c s IH]; simpl; [done|].
  intros H. apply orb_false_iff in H as [Hc Hs]. by rewrite Hc, IH.
Qed.

Lemma lastElement_no_slash s :
  contains_slash s = false -> lastElement s = s.
Proof.
  destruct s as [|c s]; simpl; [done|].
  intros H. apply orb_false_iff in H as [Hc Hs]. by rewrite Hs, Hc.
Qed.

Lemma path_Base_name s :
  s <> EmptyString -> contains_slash s = false -> path_Base s = s.
Proof.
  intros Hne Hs. unfold path_Base.
  rewrite bool_decide_false by done.
  rewrite trimRightSlashes_no_slash, lastElement_no_slash by done.
  by rewrite bool_decide_false.
Qed.

Lemma strconv_Atoi_Sprintf id :
  0 <= id ->
  strconv_Atoi (Sprintf_05d id)
  = if id <? 2 ^ 63 then inr id else inl strconv_ErrRange.
Proof.
  intros Hid. destruct (Sprintf_05d_digits id Hid) as (d & Hd & Hv & Hne).
  unfold strconv_Atoi.
  destruct (Sprintf_05d id) as [|c s] eqn:E; [done|].
  destruct (digits_no_sign _ _ _ Hd) as [-> ->].
  unfold NilZero.uint_of_string. rewrite Hd, Hv.
  replace (id <? - 2 ^ 63) with false by lia. simpl.
  destruct (Z.ltb_spec id (2 ^ 63)), (Z.leb_spec (2 ^ 63) id); try lia; done.
Qed.

Lemma sstFileName_no_slash id :
  0 <= id -> contains_slash (sstFileName id) = false.
Proof.
  intros Hid. destruct (Sprintf_05d_digits id Hid) as (d & Hd & _ & _).
  unfold sstFileName. rewrite contains_slash_app.
  by rewrite (digits_no_slash _ _ Hd).
Qed.

Lemma utils_FID_sstFileName id :
  0 <= id < 2 ^ 64 ->
  utils_FID (sstFileName id) = if id <? 2 ^ 63 then id else 0.
Proof.
  intros Hid. unfold utils_FID.
  rewrite path_Base_name.
  - unfold sstFileName, strings_TrimSuffix.
    rewrite strings_HasSuffix_app. cbn [negb]. rewrite trim_suffix_app.
    rewrite strconv_Atoi_Sprintf by lia.
    destruct (id <? 2 ^ 63) eqn:E; [|done].
    unfold wrap_uint64. apply Z.mod_small. lia.
  - unfold sstFileName. by destruct (Sprintf_05d id).
  - apply sstFileName_no_slash. lia.
Qed.

Lemma walIds_names fids :
  Forall (fun fid => 0 <= fid < 2 ^ 64) fids ->
  walIds (walFileName <$> fids) = fids
  /\ wal_names_parse (walFileName <$> fids).
Proof.
  unfold walIds, wal_names_parse, walFileName.
  induction 1 as [|fid fids Hfid _ [IH1 IH2]]; [done|].
  cbn [fmap list_fmap omap list_omap].
  rewrite (walFileId_Sprintf fid Hfid). split.
  - cbn. f_equal. exact IH1.
  - apply Forall_cons. split; [|exact IH2].
    intros _. rewrite (walFileId_Sprintf fid Hfid). by eexists.
Qed.

Lemma trimRightSlashes_app x name :
  name <> EmptyString -> contains_slash name = false ->
  trimRightSlashes (x +:+ name) = x +:+ name.
Proof.
  intros Hne Hs. induction x as [|c x IH].
  - by apply trimRightSlashes_no_slash.
  - unfold String.app in *. simpl. rewrite IH.
    assert (String.append x name <> EmptyString) as Hx.
    { destruct x; [done|]. by simpl. }
    rewrite (bool_decide_false _ Hx). by rewrite andb_false_r.
Qed.

Lemma lastElement_app x name :
  contains_slash name = false ->
  lastElement (x +:+ "/" +:+ name) = name.
Proof.
  intros Hs. induction x as [|c x IH].
  - unfold String.app. simpl. by rewrite Hs.
  - assert (contains_slash (x +:+ "/" +:+ name) = true) as Hx.
    { rewrite contains_slash_app. unfold String.app at 1. simpl.
      apply orb_true_r. }
    unfold String.app in *. simpl. by rewrite Hx.
Qed.

Lemma string_app_assoc s1 s2 s3 : s1 +:+ s2 +:+ s3 = (s1 +:+ s2) +:+ s3.
Proof.
  unfold String.app. induction s1 as [|c s1 IH]; simpl; [done|]. by rewrite IH.
Qed.

Lemma string_app_nil_r s : s +:+ "" = s.
Proof.
  unfold String.app. induction s as [|c s IH]; simpl; [done|]. by rewrite IH.
Qed.

(** ** Cleaned paths *)

Lemma splitSlash_nonempty s : splitSlash s <> [].
Proof.
  destruct s as [|c s]; simpl; [done|].
  destruct (is_char c "/"); [done|]. by destruct (splitSlash s).
Qed.

Lemma splitSlash_no_slash s : contains_slash s = false -> splitSlash s = [s].
Proof.
  induction s as [|c s IH]; simpl; [done|].
  intros H. apply orb_false_iff in H as [Hc Hs]. by rewrite Hc, (IH Hs).
Qed.

Lemma splitSlash_app a b :
  splitSlash (a +:+ "/" +:+ b) = splitSlash a ++ splitSlash b.
Proof.
  unfold String.app. induction a as [|c a IH]; simpl; [done|].
  rewrite IH. destruct (is_char c "/"); [done|].
  pose proof (splitSlash_nonempty a). by destruct (splitSlash a).
Qed.

Lemma concat_slash_snoc l x :
  String.concat "/" (l ++ [x])
  = if decide (l = []) then x else String.concat "/" l +:+ "/" +:+ x.
Proof.
  unfold String.app. induction l as [|y l IH]; [done|].
  rewrite decide_False by done.
  destruct l as [|z l].
  - done.
  - change (String.concat "/" ((y :: z :: l) ++ [x]))
      with (String.append y (String.append "/" (String.concat "/" ((z :: l) ++ [x])))).
    rewrite IH, decide_False by done.
    change (String.concat "/" (y :: z :: l))
      with (String.append y (String.append "/" (String.concat "/" (z :: l)))).
    pose proof string_app_assoc as Ha. unfold String.app in Ha.
    by rewrite <- !Ha.
Qed.

(** Cleaning a path that ends in a plain name keeps the name as the last
    element. *)
Lemma filepath_Clean_name rooted stack name :
  plain_name name ->
  exists prefix,
    (if rooted : bool then "/" else "")
    +:+ String.concat "/" (reverse (cleanElement rooted stack name))
    = prefix +:+ name
    /\ (prefix = "" \/ exists q, prefix = q +:+ "/").
Proof.
  intros (Hne & Hs & Hdot & Hdots). unfold cleanElement.
  rewrite !bool_decide_false by done. cbn [orb].
  rewrite reverse_cons, concat_slash_snoc.
  destruct (decide (reverse stack = [])) as [Hnil|Hstack].
  - destruct rooted.
    + exists "/". split; [done|]. right. by exists "".
    + exists "". split; [done|]. by left.
  - exists ((if rooted then "/" else "")
            +:+ String.concat "/" (reverse stack) +:+ "/").
    split; [by rewrite <- !string_app_assoc|].
    right. eexists. by rewrite string_app_assoc.
Qed.

Lemma path_Base_prefix prefix name :
  plain_name name ->
  prefix = "" \/ (exists q, prefix = q +:+ "/") ->
  path_Base (prefix +:+ name) = name.
Proof.
  intros (Hne & Hs & _) Hp. unfold path_Base.
  assert (prefix +:+ name <> "") as Hnn.
  { unfold String.app. destruct prefix; [done|]. by simpl. }
  rewrite (bool_decide_false _ Hnn).
  rewrite trimRightSlashes_app by done.
  destruct Hp as [->|[q ->]].
  - change ("" +:+ name) with name. rewrite lastElement_no_slash by done.
    by rewrite bool_decide_false.
  - rewrite <- string_app_assoc, lastElement_app by done.
    by rewrite bool_decide_false.
Qed.

Lemma filepath_Clean_snoc dir name :
  dir <> "" -> plain_name name ->
  exists prefix,
    filepath_Clean (dir +:+ "/" +:+ name) = prefix +:+ name
    /\ (prefix = "" \/ exists q, prefix = q +:+ "/").
Proof.
  intros Hdir Hname. unfold filepath_Clean.
  rewrite splitSlash_app.
  rewrite (splitSlash_no_slash name) by apply Hname.
  rewrite foldl_app. cbn [foldl].
  set (rooted := match dir +:+ "/" +:+ name with
                 | String c _ => is_char c "/"
                 | EmptyString => false
                 end).
  destruct (filepath_Clean_name rooted
              (foldl (cleanElement rooted) [] (splitSlash dir)) name Hname)
    as (prefix & E & Hp).
  rewrite E. exists prefix. split; [|done].
  rewrite bool_decide_false; [done|].
  destruct Hname as (Hne & _). unfold String.app.
  destruct prefix; [done|]. by simpl.
Qed.

(** [path.Base] gives back the name [filepath.Join] put behind a
    directory, whatever the directory is. *)
Lemma path_Base_join dir name :
  plain_name name -> path_Base (filepath_Join dir name) = name.
Proof.
  intros Hname. unfold filepath_Join.
  destruct (decide (dir = "")) as [->|Hdir].
  - rewrite bool_decide_true by done. cbn [negb].
    rewrite bool_decide_false by apply Hname. cbn [negb].
    unfold filepath_Clean.
    rewrite (splitSlash_no_slash name) by apply Hname. cbn [foldl].
    set (rooted := match name with
                   | String c _ => is_char c "/"
                   | EmptyString => false
                   end).
    destruct (filepath_Clean_name rooted [] name Hname) as (prefix & E & Hp).
    rewrite E.
    rewrite bool_decide_false.
    + by apply path_Base_prefix.
    + destruct Hname as (Hne & _). unfold String.app.
      destruct prefix; [done|]. by simpl.
  - rewrite bool_decide_false by done. cbn [negb].
    destruct (filepath_Clean_snoc dir name Hdir Hname) as (prefix & E & Hp).
    rewrite E. by apply path_Base_prefix.
Qed.

Lemma suffixed_name_plain s suffix :
  contains_slash (s +:+ suffix) = false ->
  strings_HasSuffix "." suffix = false ->
  strings_HasSuffix ".." suffix = false ->
  strings_HasSuffix "" suffix = false ->
  plain_name (s +:+ suffix).
Proof.
  intros Hs H1 H2 H0.
  pose proof (strings_HasSuffix_app s suffix) as Hsuf.
  repeat split; [|done|..]; intros E; rewrite E in Hsuf; congruence.
Qed.

Lemma walFileName_plain fid : 0 <= fid < 2 ^ 64 -> plain_name (walFileName fid).
Proof.
  intros Hfid. apply suffixed_name_plain; [|done..].
  destruct (Sprintf_05d_digits fid ltac:(lia)) as (d & Hd & _ & _).
  rewrite contains_slash_app. by rewrite (digits_no_slash _ _ Hd).
Qed.

Lemma sstFileName_plain id : 0 <= id < 2 ^ 64 -> plain_name (sstFileName id).
Proof.
  intros Hid. apply suffixed_name_plain; [|done..].
  apply sstFileName_no_slash. lia.
Qed.

(** X12. The WAL file names [NewMemtable] gives out are read back by
    [recovery]: the scan of a directory listing that holds the WAL files
    of the ids [fids] collects exactly these ids, in the order of the
    listing, with the largest of them and the previous maximum; and two
    ids never share a file. *)
Theorem recovery_reads_back_wal_names
    (dir : string) (fids : list Z) (prev : Z) :
  Forall (fun fid => 0 <= fid < 2 ^ 64) fids ->
  scanWalFiles (walFileName <$> fids) [] prev = Ok (fids, max_seen prev fids)
  /\ forall fid1 fid2,
       fid1 ∈ fids -> fid2 ∈ fids ->
       filePath dir fid1 = filePath dir fid2 -> fid1 = fid2.
Proof.
  intros Hfids. destruct (walIds_names fids Hfids) as [Hids Hparse]. split.
  - rewrite (scanWalFiles_spec _ [] prev Hparse). by rewrite Hids.
  - intros fid1 fid2 H1 H2 Heq.
    rewrite Forall_forall in Hfids.
    apply (f_equal path_Base) in Heq. unfold filePath in Heq.
    fold (walFileName fid1) (walFileName fid2) in Heq.
    rewrite !path_Base_join in Heq by (by apply walFileName_plain, Hfids).
    pose proof (walFileId_Sprintf fid1 (Hfids _ H1)) as E1.
    pose proof (walFileId_Sprintf fid2 (Hfids _ H2)) as E2.
    fold (walFileName fid1) in E1. fold (walFileName fid2) in E2.
    rewrite Heq in E1. congruence.
Qed.

(** X13. [FID] reads the id back from the path [SSTableFullPath] gives a table
    and from its file name, as long as the id is below 2^63; for a larger
    id the name does not parse as an [int] and [FID] returns 0, the value
    it returns for a file that is no table. *)
Theorem FID_SSTableFullPath (dir : string) (id : Z) :
  0 <= id < 2 ^ 64 ->
  utils_FID (SSTableFullPath dir id) = (if id <? 2 ^ 63 then id else 0)
  /\ utils_FID (sstFileName id) = (if id <? 2 ^ 63 then id else 0).
Proof.
  intros Hid. split; [|by apply utils_FID_sstFileName].
  rewrite <- (utils_FID_sstFileName id Hid).
  pose proof (sstFileName_plain id Hid) as Hplain.
  unfold utils_FID, SSTableFullPath.
  rewrite path_Base_join by done.
  rewrite path_Base_name; [done|apply Hplain..].
Qed.

(** * The table ids of a directory *)

Lemma collectIds_spec fileInfo : forall idMap id,
  id ∈ collectIds fileInfo idMap
  <-> id ∈ idMap
      \/ id <> 0
         /\ exists info, info ∈ fileInfo /\ info_IsDir info = false
                         /\ utils_FID (info_Name info) = id.
Proof.
  clear_context.
  induction fileInfo as [|info rest IH]; intros idMap id; simpl.
  - split; [by left|]. intros [H|(_ & info & Hin & _)]; [done|].
    by apply elem_of_nil in Hin.
  - destruct (info_IsDir info) eqn:Hdir; simpl.
    { rewrite IH. split.
      - intros [H|(Hne & i & Hin & H1 & H2)]; [by left|].
        right. split; [done|]. exists i. split; [by right|done].
      - intros [H|(Hne & i & Hin & H1 & H2)]; [by left|].
        apply elem_of_cons in Hin as [->|Hin]; [congruence|].
        right. split; [done|]. by exists i. }
    destruct (Z.eqb_spec (utils_FID (info_Name info)) 0) as [Hz|Hz]; simpl.
    { rewrite IH. split.
      - intros [H|(Hne & i & Hin & H1 & H2)]; [by left|].
        right. split; [done|]. exists i. split; [by right|done].
      - intros [H|(Hne & i & Hin & H1 & H2)]; [by left|].
        apply elem_of_cons in Hin as [->|Hin]; [congruence|].
        right. split; [done|]. by exists i. }
    rewrite IH. rewrite elem_of_union, elem_of_singleton. split.
    + intros [[->|H]|(Hne & i & Hin & H1 & H2)].
      * right. split; [done|]. exists info. split; [by left|done].
      * by left.
      * right. split; [done|]. exists i. split; [by right|done].
    + intros [H|(Hne & i & Hin & H1 & H2)]; [by left; right|].
      apply elem_of_cons in Hin as [->|Hin]; [by left; left|].
      right. split; [done|]. by exists i.
Qed.

(** X14. [LoadSSTIdMap] panics when the directory cannot be read; otherwise it
    returns the ids [FID] reads from the names of the entries that are no
    directories, 0 left out: the id of every table file named by
    [SSTableFullPath] with an id from 1 to 2^63 - 1 is in the map, and 0
    never is. *)
Theorem LoadSSTIdMap_ids
    (fileInfo : list FileInfo) (err : option error) :
  (is_Some err -> LoadSSTIdMap (fileInfo, err) = Panic)
  /\ (err = None ->
      exists idMap,
        LoadSSTIdMap (fileInfo, err) = Ok idMap
        /\ (0 ∉ idMap)
        /\ (forall id,
              id ∈ idMap
              <-> id <> 0
                  /\ exists info, info ∈ fileInfo /\ info_IsDir info = false
                                  /\ utils_FID (info_Name info) = id)
        /\ (forall id,
              0 < id < 2 ^ 63 ->
              {| info_Name := sstFileName id; info_IsDir := false |} ∈ fileInfo ->
              id ∈ idMap)).
Proof.
  split.
  - intros [e ->]. done.
  - intros ->. eexists. split; [done|].
    assert (forall id,
              id ∈ collectIds fileInfo ∅
              <-> id <> 0
                  /\ exists info, info ∈ fileInfo /\ info_IsDir info = false
                                  /\ utils_FID (info_Name info) = id) as Hspec.
    { intros id. rewrite collectIds_spec. split; [|by right].
      intros [H|H]; [|done]. by apply elem_of_empty in H. }
    split; [|split; [exact Hspec|]].
    + intros H. apply Hspec in H as [H _]. done.
    + intros id Hid Hin. apply Hspec. split; [lia|].
      eexists. split; [exact Hin|]. split; [done|]. cbn.
      rewrite utils_FID_sstFileName by lia.
      by replace (id <? 2 ^ 63) with true by lia.
Qed.

(** * Key order *)

Lemma byte_to_Z_inj x y : byte_to_Z x = byte_to_Z y -> x = y.
Proof.
  unfold byte_to_Z. intros H. apply N2Z.inj in H.
  assert (Some x = Some y) as Hs; [|by simplify_eq].
  by rewrite <- (Byte.of_to_N x), <- (Byte.of_to_N y), H.
Qed.

Lemma bytes_Compare_range a : forall b,
  bytes_Compare a b = -1 \/ bytes_Compare a b = 0 \/ bytes_Compare a b = 1.
Proof.
  induction a as [|x a IH]; intros [|y b]; simpl; auto.
  repeat case_match; auto.
Qed.

Lemma bytes_Compare_eq a : forall b, bytes_Compare a b = 0 <-> a = b.
Proof.
  induction a as [|x a IH]; intros [|y b]; simpl; try done.
  destruct (Z.ltb_spec (byte_to_Z x) (byte_to_Z y));
    [split; [done|intros ?; simplify_eq; lia]|].
  destruct (Z.ltb_spec (byte_to_Z y) (byte_to_Z x));
    [split; [done|intros ?; simplify_eq; lia]|].
  assert (x = y) as -> by (apply byte_to_Z_inj; lia).
  rewrite IH. split; [by intros ->|by intros ?; simplify_eq].
Qed.

Lemma bytes_Compare_flip a : forall b, bytes_Compare b a = - bytes_Compare a b.
Proof.
  induction a as [|x a IH]; intros [|y b]; simpl; try done.
  destruct (Z.ltb_spec (byte_to_Z x) (byte_to_Z y)),
           (Z.ltb_spec (byte_to_Z y) (byte_to_Z x)); try lia; try done;
    try apply IH.
Qed.

Lemma bytes_Compare_trans a : forall b c,
  bytes_Compare a b = -1 -> bytes_Compare b c = -1 -> bytes_Compare a c = -1.
Proof.
  induction a as [|x a IH]; intros [|y b] [|z c]; simpl; try done.
  destruct (Z.ltb_spec (byte_to_Z x) (byte_to_Z y)),
           (Z.ltb_spec (byte_to_Z y) (byte_to_Z x)),
           (Z.ltb_spec (byte_to_Z y) (byte_to_Z z)),
           (Z.ltb_spec (byte_to_Z z) (byte_to_Z y)),
           (Z.ltb_spec (byte_to_Z x) (byte_to_Z z)),
           (Z.ltb_spec (byte_to_Z z) (byte_to_Z x));
    try lia; try done; try apply IH.
Qed.

Lemma bytes_Compare_prefix a : forall x, x <> [] -> bytes_Compare a (a ++ x) = -1.
Proof.
  induction a as [|y a IH]; intros x Hx; simpl.
  - by destruct x.
  - rewrite Z.ltb_irrefl. by apply IH.
Qed.

(** A key as its user key and its timestamp. *)
Lemma CompareKeys_long key1 key2 :
  (8 < length key1)%nat -> (8 < length key2)%nat ->
  CompareKeys key1 key2
  = Ok (if bytes_Compare (take (length key1 - 8) key1)
                         (take (length key2 - 8) key2) =? 0
        then bytes_Compare (drop (length key1 - 8) key1)
                           (drop (length key2 - 8) key2)
        else bytes_Compare (take (length key1 - 8) key1)
                           (take (length key2 - 8) key2)).
Proof.
  intros H1 H2. unfold CompareKeys, len.
  replace (Z.of_nat (length key1) <=? 8) with false by lia.
  replace (Z.of_nat (length key2) <=? 8) with false by lia.
  cbn [orb]. by destruct (_ =? 0).
Qed.

(** X15. [CompareKeys] panics exactly when one of the keys has no byte beside
    the 8 bytes of a timestamp. *)
Theorem CompareKeys_panics_iff (key1 key2 : list byte) :
  CompareKeys key1 key2 = Panic
  <-> (length key1 <= 8)%nat \/ (length key2 <= 8)%nat.
Proof.
  unfold CompareKeys, len. split.
  - intros H.
    destruct (Z.leb_spec (Z.of_nat (length key1)) 8); [left; lia|].
    destruct (Z.leb_spec (Z.of_nat (length key2)) 8); [right; lia|].
    cbn [orb] in H. by destruct (negb _).
  - intros [H|H].
    + by replace (Z.of_nat (length key1) <=? 8) with true by lia.
    + replace (Z.of_nat (length key2) <=? 8) with true by lia.
      by rewrite orb_true_r.
Qed.

(** X16. On keys longer than a timestamp [CompareKeys] is a total order: the
    result is -1, 0 or 1, swapping the keys negates it, it is 0 exactly
    for equal keys, and "less than" is transitive. *)
Theorem CompareKeys_total_order (key1 key2 key3 : list byte) :
  (8 < length key1)%nat -> (8 < length key2)%nat -> (8 < length key3)%nat ->
  (exists r,
     CompareKeys key1 key2 = Ok r
     /\ (r = -1 \/ r = 0 \/ r = 1)
     /\ CompareKeys key2 key1 = Ok (- r)
     /\ (r = 0 <-> key1 = key2))
  /\ (CompareKeys key1 key2 = Ok (-1) ->
      CompareKeys key2 key3 = Ok (-1) ->
      CompareKeys key1 key3 = Ok (-1)).
Proof.
  intros H1 H2 H3.
  rewrite !CompareKeys_long by done.
  set (u1 := take (length key1 - 8) key1). set (t1 := drop (length key1 - 8) key1).
  set (u2 := take (length key2 - 8) key2). set (t2 := drop (length key2 - 8) key2).
  set (u3 := take (length key3 - 8) key3). set (t3 := drop (length key3 - 8) key3).
  assert (key1 = u1 ++ t1) as E1 by (symmetry; apply take_drop).
  assert (key2 = u2 ++ t2) as E2 by (symmetry; apply take_drop).
  pose proof (bytes_Compare_flip u1 u2) as Fu.
  pose proof (bytes_Compare_flip t1 t2) as Ft.
  pose proof (bytes_Compare_range u1 u2) as Ru.
  pose proof (bytes_Compare_range t1 t2) as Rt.
  pose proof (bytes_Compare_eq u1 u2) as Eu.
  pose proof (bytes_Compare_eq t1 t2) as Et.
  split.
  - eexists. split; [done|]. rewrite Fu, Ft.
    destruct (Z.eqb_spec (bytes_Compare u1 u2) 0) as [Hz|Hz].
    + rewrite Hz. cbn [Z.opp Z.eqb]. split; [done|]. split; [done|].
      rewrite Et. split.
      * intros Ht. rewrite E1, E2. f_equal; [by apply Eu|done].
      * intros Hk. subst t1 t2. by rewrite Hk.
    + destruct (Z.eqb_spec (- bytes_Compare u1 u2) 0); [lia|].
      split; [done|]. split; [done|]. split; [done|].
      intros Hk. apply Eu. subst u1 u2. by rewrite Hk.
  - intros H12 H23.
    destruct (Z.eqb_spec (bytes_Compare u1 u2) 0) as [Hz12|Hz12];
      destruct (Z.eqb_spec (bytes_Compare u2 u3) 0) as [Hz23|Hz23];
      simplify_eq.
    + apply Eu in Hz12. apply bytes_Compare_eq in Hz23.
      rewrite Hz12, Hz23.
      rewrite (proj2 (bytes_Compare_eq u3 u3) eq_refl). cbn [Z.eqb].
      f_equal. by eapply bytes_Compare_trans.
    + apply Eu in Hz12. rewrite Hz12.
      destruct (Z.eqb_spec (bytes_Compare u2 u3) 0); [done|]. by f_equal.
    + apply bytes_Compare_eq in Hz23. rewrite <- Hz23.
      destruct (Z.eqb_spec (bytes_Compare u1 u2) 0); [done|]. by f_equal.
    + assert (bytes_Compare u1 u3 = -1) as ->
        by (by eapply bytes_Compare_trans).
      done.
Qed.

(** X17. The user key decides before the timestamp: keys with different user
    keys compare as their user keys do, whatever their timestamps, and
    only keys with the same user key are ordered by the timestamp bytes;
    so a user key sorts before every longer user key it is a prefix of. *)
Theorem CompareKeys_user_key_first (user1 user2 ts1 ts2 : list byte) :
  user1 <> [] -> user2 <> [] ->
  length ts1 = 8%nat -> length ts2 = 8%nat ->
  CompareKeys (user1 ++ ts1) (user2 ++ ts2)
  = Ok (if bytes_Compare user1 user2 =? 0
        then bytes_Compare ts1 ts2 else bytes_Compare user1 user2)
  /\ (forall more, more <> [] -> user2 = user1 ++ more ->
      CompareKeys (user1 ++ ts1) (user2 ++ ts2) = Ok (-1)).
Proof.
  intros Hu1 Hu2 Ht1 Ht2.
  assert (CompareKeys (user1 ++ ts1) (user2 ++ ts2)
          = Ok (if bytes_Compare user1 user2 =? 0
                then bytes_Compare ts1 ts2 else bytes_Compare user1 user2)) as E.
  { rewrite CompareKeys_long.
    - rewrite !length_app, Ht1, Ht2, !Nat.add_sub.
      by rewrite !take_app_length, !drop_app_length.
    - rewrite length_app. destruct user1; [done|]. simpl. lia.
    - rewrite length_app. destruct user2; [done|]. simpl. lia. }
  split; [exact E|].
  intros more Hm ->. rewrite E.
  by rewrite (bytes_Compare_prefix user1 more Hm).
Qed.

(** * Reverting the directory to the manifest *)

(** [range idMap] visits every id of the set once. *)
Hypothesis range_idMap_perm : forall s, range_idMap s ≡ₚ elements s.

Lemma checkTables_spec ids idMap :
  match checkTables ids idMap with
  | None => Forall (fun id => id ∈ idMap) ids
  | Some err => exists id, err = ErrTableNotInDir id /\ id ∈ ids /\ id ∉ idMap
  end.
Proof.
  clear_context.
  induction ids as [|id rest IH]; simpl; [done|].
  destruct (decide (id ∈ idMap)) as [Hin|Hin].
  - rewrite bool_decide_true by done. cbn [negb].
    destruct (checkTables rest idMap) as [err|].
    + destruct IH as (id' & -> & H1 & H2). exists id'.
      split; [done|]. split; [by right|done].
    + by apply Forall_cons.
  - rewrite bool_decide_false by done. cbn [negb].
    exists id. split; [done|]. split; [by left|done].
Qed.

Lemma range_Tables_ids (tables : gmap Z TableManifest) id :
  id ∈ (range_Tables tables).*1 <-> is_Some (tables !! id).
Proof.
  rewrite (range_Tables_perm tables). rewrite list_elem_of_fmap. split.
  - intros [[i tm] [-> Hin]]. apply elem_of_map_to_list in Hin. by eexists.
  - intros [tm Htm]. exists (id, tm). split; [done|].
    by apply elem_of_map_to_list.
Qed.

(** X18. A table of the manifest that is not among the ids of the directory
    stops [RevertToManifest] before it removes anything: it returns the
    error that names such a table and the directory is as it was. *)
Theorem RevertToManifest_missing_table
    (idMap : gset Z) (mf : ManifestFile) (fs : FileSys) (missing : Z) :
  is_Some (Tables (manifest mf) !! missing) ->
  missing ∉ idMap ->
  exists id,
    RevertToManifest idMap mf fs = (fs, Some (ErrTableNotInDir id))
    /\ is_Some (Tables (manifest mf) !! id)
    /\ id ∉ idMap.
Proof.
  intros Htracked Hmissing. unfold RevertToManifest.
  pose proof (checkTables_spec (range_Tables (Tables (manifest mf))).*1 idMap) as H.
  destruct (checkTables _ _) as [err|].
  - destruct H as (id & -> & Hin & Hnot). exists id. split; [done|].
    split; [by apply range_Tables_ids|done].
  - rewrite Forall_forall in H. exfalso. apply Hmissing, H.
    by apply range_Tables_ids.
Qed.

Lemma sstFileName_inj id1 id2 :
  0 <= id1 < 2 ^ 64 -> 0 <= id2 < 2 ^ 64 ->
  sstFileName id1 = sstFileName id2 -> id1 = id2.
Proof.
  intros H1 H2 Heq. unfold sstFileName in Heq.
  pose proof (trim_suffix_app (Sprintf_05d id1) ".sst") as E1.
  pose proof (trim_suffix_app (Sprintf_05d id2) ".sst") as E2.
  rewrite Heq, E2 in E1.
  pose proof (strconv_ParseUint_Sprintf id1 H1) as P1.
  pose proof (strconv_ParseUint_Sprintf id2 H2) as P2.
  rewrite <- E1 in P1. congruence.
Qed.

Lemma sstFileName_suffix id : strings_HasSuffix (sstFileName id) ".sst" = true.
Proof. apply strings_HasSuffix_app. Qed.

Lemma os_Remove_run name fs content :
  fs_faults fs = [] ->
  fs_files fs !! name = Some content ->
  os_Remove name fs
  = ({| fs_files := delete name (fs_files fs); fs_open := fs_open fs;
        fs_next := fs_next fs; fs_faults := [] |}, None).
Proof.
  intros Hff Hfile. unfold os_Remove. by rewrite Hff, Hfile.
Qed.

Lemma removeOrphans_run (tables : gmap Z TableManifest) ids : forall fs,
  fs_faults fs = [] ->
  NoDup ids ->
  Forall (fun id => 0 <= id < 2 ^ 64) ids ->
  (forall id, id ∈ ids -> tables !! id = None ->
     is_Some (fs_files fs !! sstFileName id)) ->
  exists fs',
    removeOrphans ids tables fs = (fs', None)
    /\ fs_open fs' = fs_open fs
    /\ (forall id, id ∈ ids -> tables !! id = None ->
          fs_files fs' !! sstFileName id = None)
    /\ (forall name,
          (forall id, id ∈ ids -> tables !! id = None -> name <> sstFileName id) ->
          fs_files fs' !! name = fs_files fs !! name).
Proof.
  clear_context.
  induction ids as [|id rest IH]; intros fs Hff Hnd Hrange Hfiles.
  - exists fs. split; [done|]. split; [done|]. split; [|done].
    intros id Hin. by apply elem_of_nil in Hin.
  - apply NoDup_cons in Hnd as [Hnotin Hnd].
    apply Forall_cons in Hrange as [Hid Hrange].
    cbn [removeOrphans].
    destruct (tables !! id) as [tm|] eqn:Htm.
    + destruct (IH fs Hff Hnd Hrange) as (fs' & E & Hopen & Ha & Hb).
      { intros id' Hin. apply Hfiles. by right. }
      exists fs'. split; [done|]. split; [done|]. split.
      * intros id' Hin Hnone.
        apply elem_of_cons in Hin as [->|Hin]; [congruence|by apply Ha].
      * intros name Hname. apply Hb. intros id' Hin. apply Hname. by right.
    + destruct (Hfiles id ltac:(by left) Htm) as [content Hcontent].
      rewrite (os_Remove_run _ _ _ Hff Hcontent).
      assert (forall id', id' ∈ rest -> sstFileName id' <> sstFileName id) as Hne.
      { intros id' Hin Heq. rewrite Forall_forall in Hrange.
        apply sstFileName_inj in Heq; [|by apply Hrange|done]. by subst. }
      match goal with
      | |- context [removeOrphans rest tables ?fs1] =>
          destruct (IH fs1) as (fs' & E & Hopen & Ha & Hb); [done..| |]
      end.
      { intros id' Hin Hnone. cbn. rewrite lookup_delete_ne by (by apply not_eq_sym, Hne).
        apply Hfiles; [by right|done]. }
      exists fs'. split; [done|]. split; [done|]. split.
      * intros id' Hin Hnone. apply elem_of_cons in Hin as [->|Hin]; [|by apply Ha].
        rewrite Hb; [cbn; apply lookup_delete_eq|].
        intros id' Hin _. by apply not_eq_sym, Hne.
      * intros name Hname. rewrite Hb.
        -- cbn. apply lookup_delete_ne. apply not_eq_sym, Hname; [by left|done].
        -- intros id' Hin. apply Hname. by right.
Qed.

(** X19. When every table of the manifest is among the ids of the directory
    and no call fails, [RevertToManifest] returns nil and removes exactly
    the table files of the ids the manifest does not track: the file of a
    tracked table and every file that is no [.sst] file stay as they are. *)
Theorem RevertToManifest_removes_orphans
    (idMap : gset Z) (mf : ManifestFile) (fs : FileSys) :
  fs_faults fs = [] ->
  (forall id, is_Some (Tables (manifest mf) !! id) -> id ∈ idMap) ->
  (forall id, id ∈ idMap -> 0 <= id < 2 ^ 64) ->
  (forall id, id ∈ idMap -> Tables (manifest mf) !! id = None ->
     is_Some (fs_files fs !! sstFileName id)) ->
  exists fs',
    RevertToManifest idMap mf fs = (fs', None)
    /\ fs_open fs' = fs_open fs
    /\ (forall id, id ∈ idMap -> Tables (manifest mf) !! id = None ->
          fs_files fs' !! sstFileName id = None)
    /\ (forall id, is_Some (Tables (manifest mf) !! id) ->
          fs_files fs' !! sstFileName id = fs_files fs !! sstFileName id)
    /\ (forall name, strings_HasSuffix name ".sst" = false ->
          fs_files fs' !! name = fs_files fs !! name).
Proof.
  intros Hff Htracked Hrange Hfiles. unfold RevertToManifest.
  pose proof (checkTables_spec (range_Tables (Tables (manifest mf))).*1 idMap) as H.
  destruct (checkTables _ _) as [err|].
  { destruct H as (id & _ & Hin & Hnot). exfalso. apply Hnot, Htracked.
    by apply range_Tables_ids. }
  clear H.
  assert (forall id, id ∈ range_idMap idMap <-> id ∈ idMap) as Hids.
  { intros id. rewrite (range_idMap_perm idMap). apply elem_of_elements. }
  destruct (removeOrphans_run (Tables (manifest mf)) (range_idMap idMap) fs)
    as (fs' & E & Hopen & Ha & Hb); [done| | | |].
  - rewrite (range_idMap_perm idMap). apply NoDup_elements.
  - apply Forall_forall. intros id Hin. by apply Hrange, Hids.
  - intros id Hin. by apply Hfiles, Hids.
  - exists fs'. split; [done|]. split; [done|]. split; [|split].
    + intros id Hin. by apply Ha, Hids.
    + intros id Hsome. apply Hb. intros id' Hin Hnone Heq.
      apply sstFileName_inj in Heq;
        [|by apply Hrange, Htracked|by apply Hrange, Hids].
      subst. rewrite Hnone in Hsome. by destruct Hsome.
    + intros name Hname. apply Hb. intros id _ _ ->.
      by rewrite sstFileName_suffix in Hname.
Qed.

(** * Further properties of the engine *)

Lemma scanWalFiles_bad_name files :
  Exists (fun name => strings_HasSuffix name walFileExt = true
                      /\ walFileId name = None) files ->
  forall walFileId0 maxFid, scanWalFiles files walFileId0 maxFid = Panic.
Proof.
  clear_context.
  induction 1 as [name rest [Hsuffix Hbad]|name rest _ IH]; intros acc mx;
    cbn [scanWalFiles].
  - unfold walFileId in Hbad. rewrite Hsuffix in *.
    by destruct (strconv_ParseUint _).
  - destruct (strings_HasSuffix name walFileExt); [|apply IH].
    destruct (strconv_ParseUint _); [done|apply IH].
Qed.

(** X20. [recovery] panics before it opens or replays any WAL file when the
    working directory cannot be listed, or when it holds a file whose name
    ends in [.wal] and is no decimal uint64 before the extension: the
    engine and the world are as they were. *)
Theorem recovery_panics_on_listing
    (lsm : LSM) (w : World) (files : list string) (err : option error) :
  ioutil_ReadDir (opt_WorkDir (lsm_option lsm)) w = (files, err) ->
  is_Some err
  \/ Exists (fun name => strings_HasSuffix name walFileExt = true
                         /\ walFileId name = None) files ->
  recovery lsm w = (lsm, w, Panic).
Proof.
  intros Hdir Hbad. unfold recovery. rewrite Hdir.
  destruct err as [e|]; [done|].
  destruct Hbad as [[e He]|Hbad]; [done|].
  by rewrite (scanWalFiles_bad_name files Hbad).
Qed.

(** X21. [Set] writes ahead: when the WAL write fails, [Set] returns that error
    with the world as the failed write left it, so nothing reached the
    skip list and no immutable was flushed; when the skip list rejects the
    entry after the WAL took it, [Set] returns that error, again before
    any flush. A memtable this call sealed stays in the queue. *)
Theorem Set_write_ahead (entry : Entry) (lsm : LSM) (w : World) :
  (forall w1 e,
     wal_Write (wal (lsm_memTable (sealIfFull entry lsm w).1)) entry
               (sealIfFull entry lsm w).2 = (w1, Some e) ->
     LSM_Set entry lsm w = ((sealIfFull entry lsm w).1, w1, Err e))
  /\ (forall w1 w2 e,
        wal_Write (wal (lsm_memTable (sealIfFull entry lsm w).1)) entry
                  (sealIfFull entry lsm w).2 = (w1, None) ->
        sl_Add (sl (lsm_memTable (sealIfFull entry lsm w).1)) entry w1
        = (w2, Some e) ->
        LSM_Set entry lsm w = ((sealIfFull entry lsm w).1, w2, Err e)).
Proof.
  unfold LSM_Set.
  destruct (sealIfFull entry lsm w) as [lsm1 w0]. cbn [fst snd].
  unfold memTable_set. split.
  - intros w1 e Hw. by rewrite Hw.
  - intros w1 w2 e Hw Ha. by rewrite Hw, Ha.
Qed.

Lemma flushImmutables_close_fails pre :
  forall m post levels w levels1 w1 levels2 w2 w3 e,
  flushed pre levels w levels1 w1 ->
  levels_flush m levels1 w1 = (levels2, w2, None) ->
  memTable_close m w2 = (w3, Some e) ->
  flushImmutables (pre ++ m :: post) levels w = (levels2, w3, Panic).
Proof.
  induction pre as [|p pre IH];
    intros m post levels w levels1 w1 levels2 w2 w3 e Hpre Hf Hc.
  - inversion Hpre; subst. simpl. by rewrite Hf, Hc.
  - inversion Hpre; subst. simpl.
    match goal with
    | Hfl : levels_flush p levels w = _, Hwc : wal_Close (wal p) _ = _,
      Hsc : sl_Close (sl p) _ = _ |- _ =>
        rewrite Hfl, (memTable_close_run _ _ _ _ Hwc Hsc)
    end.
    simpl. by eapply IH.
Qed.

(** X22. [Set] panics when an immutable memtable was flushed and its close
    fails: the memtables before it in the queue are flushed and closed,
    this one is flushed, and the call does not return. *)
Theorem Set_panics_when_close_fails
    (entry : Entry) (lsm : LSM) (w : World)
    (w1 : World) (pre : list memTable) (m : memTable) (post : list memTable)
    (levels1 : levelManager) (w2 : World) (levels2 : levelManager)
    (w3 w4 : World) (e : error) :
  memTable_set (lsm_memTable (sealIfFull entry lsm w).1) entry
               (sealIfFull entry lsm w).2 = (w1, None) ->
  sealed_queue entry lsm w = pre ++ m :: post ->
  flushed pre (lsm_levels (sealIfFull entry lsm w).1) w1 levels1 w2 ->
  levels_flush m levels1 w2 = (levels2, w3, None) ->
  memTable_close m w3 = (w4, Some e) ->
  (LSM_Set entry lsm w).2 = Panic.
Proof.
  unfold LSM_Set, sealed_queue.
  destruct (sealIfFull entry lsm w) as [lsm1 w0]. cbn [fst snd].
  intros Hset Hq Hpre Hf Hc. rewrite Hset, Hq.
  by rewrite (flushImmutables_close_fails pre m post _ _ _ _ _ _ _ e Hpre Hf Hc).
Qed.

Lemma replayEntries_maxVersion entries : forall m w m' w' err,
  replayEntries m entries w = (m', w', err) ->
  wal m' = wal m /\ sl m' = sl m
  /\ (err = None -> maxVersion m' = max_seen (maxVersion m) (ParseTs <$> entries))
  /\ maxVersion m <= maxVersion m'.
Proof.
  unfold max_seen.
  induction entries as [|e rest IH]; intros m w m' w' err H; simpl in H.
  - simplify_eq. split; [done|]. split; [done|]. split; [done|lia].
  - set (m1 := if ParseTs e >? maxVersion m
               then {| wal := wal m; sl := sl m; maxVersion := ParseTs e |}
               else m) in *.
    assert (wal m1 = wal m /\ sl m1 = sl m
            /\ maxVersion m1 = Z.max (maxVersion m) (ParseTs e)) as (Hw & Hs & Hv).
    { subst m1. destruct (Z.gtb_spec (ParseTs e) (maxVersion m)); cbn;
        (split; [done|]); (split; [done|]); lia. }
    destruct (sl_Add (sl m1) e w) as [w1 [err1|]].
    + simplify_eq. split; [done|]. split; [done|]. split; [done|lia].
    + apply IH in H as (Hw' & Hs' & Hv' & Hle).
      split; [congruence|]. split; [congruence|]. split; [|lia].
      intros ->. rewrite Hv' by done. cbn. by rewrite Hv.
Qed.

(** X23. After a WAL replay that reports no error, the memtable's [maxVersion]
    is the largest timestamp among the replayed entries, or the version it
    had before when that is larger; the WAL handle and the skip list of
    the memtable are the ones it had. *)
Theorem UpdateSkipList_maxVersion
    (m m' : memTable) (w w' : World) :
  UpdateSkipList m w = (m', w', None) ->
  maxVersion m'
  = max_seen (maxVersion m) (ParseTs <$> (wal_Iterate (wal m) w).1.1)
  /\ wal m' = wal m /\ sl m' = sl m.
Proof.
  unfold UpdateSkipList.
  destruct (wal_Iterate (wal m) w) as [[entries endOff] iterErr]. cbn [fst].
  destruct (replayEntries m entries w) as [[m1 w1] err1] eqn:Hrep.
  apply replayEntries_maxVersion in Hrep as (Hw & Hs & Hv & _).
  destruct err1 as [e1|]; [done|].
  destruct iterErr as [e2|]; [done|].
  destruct (wal_Truncate _ _ w1) as [w2 err2]. intros H. simplify_eq.
  split; [by apply Hv|done].
Qed.

(** X24. Two memtables made one after the other never share a WAL file id:
    each gets the allocator's value after its increment, the second id is
    not the first, and while the allocator is below 2^64 - 2 the ids are
    the next two numbers. *)
Theorem NewMemtable_successive_ids
    (lsm lsm1 lsm2 : LSM) (w w1 w2 : World) (m1 m2 : memTable) :
  NewMemtable lsm w = (lsm1, w1, m1) ->
  NewMemtable lsm1 w1 = (lsm2, w2, m2) ->
  wal_FID (wal m1) = maxFID (lsm_levels lsm1)
  /\ wal_FID (wal m2) = maxFID (lsm_levels lsm2)
  /\ wal_FID (wal m2) <> wal_FID (wal m1)
  /\ (0 <= maxFID (lsm_levels lsm) < 2 ^ 64 - 2 ->
      wal_FID (wal m1) = maxFID (lsm_levels lsm) + 1
      /\ wal_FID (wal m2) = maxFID (lsm_levels lsm) + 2).
Proof.
  intros H1 H2.
  destruct (NewMemtable_fid lsm w) as (l1 & w1' & m1' & E1 & Hmax1 & Hfid1).
  destruct (NewMemtable_fid lsm1 w1) as (l2 & w2' & m2' & E2 & Hmax2 & Hfid2).
  rewrite E1 in H1. rewrite E2 in H2. simplify_eq.
  rewrite Hfid1, Hfid2, Hmax2, Hmax1. unfold wrap_uint64.
  pose proof (Z.mod_pos_bound (maxFID (lsm_levels lsm) + 1) (2 ^ 64) ltac:(lia))
    as Hb.
  set (x := (maxFID (lsm_levels lsm) + 1) mod 2 ^ 64) in *.
  split; [done|]. split; [done|]. split.
  - destruct (decide (x + 1 < 2 ^ 64)).
    + rewrite Z.mod_small by lia. lia.
    + replace (x + 1) with (2 ^ 64) by lia. rewrite Z.mod_same by lia. lia.
  - intros Hrange. subst x.
    rewrite (Z.mod_small (maxFID (lsm_levels lsm) + 1)) by lia.
    rewrite Z.mod_small by lia. lia.
Qed.

(** * The rewrite threshold and the level range *)

(** X25. Past the rewrite threshold a successful [addChanges] compacts the
    log: when, after the changes, [Deletions] is above 10000 and above ten
    times [Creations - Deletions], the manifest file is replaced by the
    header and one frame, the snapshot of the tables after the changes,
    and the counters restart at [Creations] = number of tables,
    [Deletions] = 0, with the tables as the changes left them. *)
Theorem addChanges_rewrites_past_threshold
    (changes : list pb.ManifestChange) (mf mf' : ManifestFile)
    (fs fs' : FileSys) (m : Manifest) :
  applyChangeSet (manifest mf) {| pb.Changes := changes |} = (m, Ok tt) ->
  ManifestDeletionsRewriteThreshold < Deletions m ->
  ManifestDeletionsRatio * (Creations m - Deletions m) < Deletions m ->
  - 2 ^ 59 <= Creations m - Deletions m < 2 ^ 59 ->
  fs_files fs !! ManifestRewriteFilename = None ->
  addChanges changes mf fs = (mf', fs', Ok tt) ->
  Tables (manifest mf') = Tables m
  /\ Levels (manifest mf') = Levels m
  /\ Creations (manifest mf') = Z.of_nat (size (Tables m))
  /\ Deletions (manifest mf') = 0
  /\ exists buf,
       Marshal {| pb.Changes := asChanges m |} = inr buf
       /\ fs_files fs' = <[ManifestFilename := header ++ frame buf]> (fs_files fs).
Proof.
  intros Happly Hthr Hratio Hnowrap Hnone H. unfold addChanges in H.
  destruct (Marshal {| pb.Changes := changes |}) as [|buf0]; [done|].
  rewrite Happly in H.
  replace (Deletions m >? ManifestDeletionsRewriteThreshold) with true in H by lia.
  rewrite (wrap_int_small (Creations m - Deletions m)) in H by lia.
  rewrite wrap_int_small in H by (unfold ManifestDeletionsRatio; lia).
  replace (Deletions m >? ManifestDeletionsRatio * (Creations m - Deletions m))
    with true in H by lia.
  cbn [andb] in H.
  unfold rewrite in H. cbn [file manifest] in H.
  destruct (file_Close (file mf) fs) as [fsa [[]| |]] eqn:Hcl; try done.
  destruct (createFileAndRewrite m fsa) as [fsb [[fp n]| |]] eqn:Hcr; try done.
  cbn [file] in H. destruct (file_Sync fp fsb) as [fsc rs] eqn:Hsync.
  simplify_eq. cbn [manifest Tables Levels Creations Deletions].
  apply file_Close_Ok in Hcl as (Hf & _ & _).
  apply createFileAndRewrite_Ok in Hcr as (buf & Hbuf & -> & Hfiles & _).
  apply file_Sync_Ok in Hsync as (Hfc & _ & _).
  rewrite Hf, Hnone in Hfiles. simpl in Hfiles.
  repeat (split; [done|]).
  exists buf. split; [done|]. rewrite Hfc, Hfiles. f_equal. by apply delete_id.
Qed.

Lemma applyManifestChange_create_length m change m' :
  pb.Op change = pb.ManifestChange_CREATE ->
  0 <= pb.Level change ->
  applyManifestChange m change = (m', Ok tt) ->
  (Z.to_nat (pb.Level change) < length (Levels m'))%nat.
Proof.
  intros Hop Hlevel H. unfold applyManifestChange in H. rewrite Hop in H.
  destruct (Tables m !! pb.Id change); [done|].
  destruct (_ !! Z.to_nat (pb.Level change)) eqn:Hl; [|done].
  simplify_eq. cbn. rewrite length_alter. by eapply lookup_lt_Some.
Qed.

(** X26. The level of a table is kept as a uint8 while the change carries
    a uint32: a table created at a level from 256 on is put into the set
    of that level and recorded with the level modulo 256, so deleting it
    removes it from [Tables] and from the set of the wrong level, and the
    id stays in the set of the level it was created at. *)
Theorem level_above_255_leaves_stale_id
    (m : Manifest) (id level : Z) (checksum : list byte) :
  Tables m !! id = None ->
  256 <= level < 2 ^ 32 ->
  exists m1 m2,
    applyManifestChange m {| pb.Id := id; pb.Op := pb.ManifestChange_CREATE;
                             pb.Level := level; pb.Checksum := checksum |}
    = (m1, Ok tt)
    /\ Level <$> Tables m1 !! id = Some (level mod 256)
    /\ applyManifestChange m1 (deleteChange id) = (m2, Ok tt)
    /\ Tables m2 !! id = None
    /\ id ∈ level_ids m2 (Z.to_nat level).
Proof.
  clear_context.
  intros Hnone Hlevel.
  set (create := {| pb.Id := id; pb.Op := pb.ManifestChange_CREATE;
                    pb.Level := level; pb.Checksum := checksum |}).
  destruct (applyManifestChange_create m create eq_refl) as
    (m1 & E1 & HT1 & HL1 & _); [simpl; lia|done|].
  pose proof (applyManifestChange_create_length m create m1 eq_refl
                ltac:(simpl; lia) E1) as Hlen.
  cbn [pb.Level pb.Id pb.Checksum create] in *.
  pose proof (Z.mod_pos_bound level 256 ltac:(lia)) as Hmod.
  assert (Tables m1 !! id = Some {| Level := level mod 256; Checksum := checksum |})
    as Htm by (rewrite HT1; apply lookup_insert_eq).
  destruct (applyManifestChange_delete m1 (deleteChange id) _ eq_refl Htm)
    as (m2 & E2 & HT2 & HL2 & _).
  { apply lookup_lt_is_Some. cbn. lia. }
  exists m1, m2. split; [done|]. split; [by rewrite Htm|]. split; [done|].
  split.
  - rewrite HT2. apply lookup_delete_eq.
  - rewrite HL2. cbn [Level].
    rewrite decide_False by lia.
    rewrite HL1. rewrite decide_True by done. set_solver.
Qed.

(** * Histories that create and delete one table *)







End TinyLSM.

(** * The reference instances satisfy the assumptions *)

Lemma positive_of_bits_of_positive p :
  positive_of_bits (bits_of_positive p) = Some p.
Proof. induction p as [p IH|p IH|]; simpl; by rewrite ?IH. Qed.

Lemma ref_Unmarshal_Marshal set buf :
  ref_Marshal set = inr buf -> ref_Unmarshal buf = inr set.
Proof.
  unfold ref_Marshal, ref_Unmarshal. case_match; [|done].
  intros ?. simplify_eq. rewrite positive_of_bits_of_positive. simpl.
  rewrite decode_encode. by destruct set.
Qed.

Lemma ref_crc32_uint32 buf : 0 <= ref_crc32 buf < 2 ^ 32.
Proof. unfold ref_crc32. apply Z.mod_pos_bound. lia. Qed.

Lemma ref_range_perm m : ref_range m ≡ₚ map_to_list m.
Proof. done. Qed.

Lemma ref_Marshal_fits set buf : ref_Marshal set = inr buf -> len buf < 2 ^ 32.
Proof.
  unfold ref_Marshal. case_match eqn:E; [|done].
  intros ?. simplify_eq. lia.
Qed.

Lemma ref_OpenWalFile_FID opt w :
  ref_wal_FID (ref_OpenWalFile opt w).2 = FID opt.
Proof. done. Qed.


(** * The model on concrete inputs *)

Definition ref_OpenManifestFile : IO ManifestFile :=
  OpenManifestFile ref_Marshal ref_Unmarshal ref_crc32 ref_range.

Definition ref_payload (changes : list pb.ManifestChange) : list byte :=
  bits_of_positive (encode changes).

(** A fresh store: the manifest opened in an empty directory. *)
Definition freshFile : ManifestFile :=
  {| file := 1%nat; manifest := createNewManifest |}.
Definition freshDir : FileSys := (ref_OpenManifestFile emptyDir).1.

(** Scenario A run on the fresh store. *)
Definition afterScenarioA : ManifestFile * FileSys :=
  default (freshFile, freshDir)
    (addHistory ref_Marshal ref_crc32 ref_range scenarioA freshFile freshDir).

(** A directory in which a bootstrap was interrupted between writing the
    rewrite file and renaming it. *)
Definition leftoverDir : FileSys :=
  {| fs_files := {[ManifestRewriteFilename
                   := header ++ frame ref_crc32 (ref_payload [])]};
     fs_open := ∅; fs_next := 0; fs_faults := [] |}.


Lemma replay_truncation_point_witness :
  replayStream ref_Unmarshal ref_crc32
    (header ++ frames ref_crc32 [ref_payload [createChange 1 0]]
            ++ [x00; x00; x01])
  = Ok ((applyChangeSet createNewManifest
           {| pb.Changes := [createChange 1 0] |}).1,
        len (header ++ frames ref_crc32 [ref_payload [createChange 1 0]])).
Proof.
  assert (Forall fits_uint32 [ref_payload [createChange 1 0]]) as Hfit.
  { apply Forall_singleton. vm_compute. reflexivity. }
  assert (applyPayloads ref_Unmarshal createNewManifest
            [ref_payload [createChange 1 0]]
          = Some (applyChangeSet createNewManifest
                    {| pb.Changes := [createChange 1 0] |}).1) as Happly.
  { vm_compute. reflexivity. }
  destruct (replay_truncation_point ref_Marshal ref_Unmarshal ref_crc32 ref_range
              ref_crc32_uint32 [ref_payload [createChange 1 0]]
              (applyChangeSet createNewManifest
                 {| pb.Changes := [createChange 1 0] |}).1 Hfit Happly)
    as [Hprefix _].
  exact (Hprefix [x00; x00; x01] ltac:(simpl; lia)).
Defined.

Lemma applyChangeSet_stops_at_first_failure_witness :
  applyChangeSet createNewManifest
    {| pb.Changes := [createChange 1 0] ++ createChange 1 0 :: [] |}
  = ((applyChanges createNewManifest [createChange 1 0]).1,
     Err (ErrTableExists 1)).
Proof.
  assert (applyChanges (manifest freshFile) [createChange 1 0]
          = ((applyChanges createNewManifest [createChange 1 0]).1, Ok tt))
    as Hpre by (vm_compute; reflexivity).
  assert ((applyManifestChange
             (applyChanges createNewManifest [createChange 1 0]).1
             (createChange 1 0)).2 = Err (ErrTableExists 1))
    as Hfail by (vm_compute; reflexivity).
  assert (ref_Marshal
            {| pb.Changes := [createChange 1 0] ++ createChange 1 0 :: [] |}
          = inr (ref_payload [createChange 1 0; createChange 1 0]))
    as Hbuf by (vm_compute; reflexivity).
  destruct (applyChangeSet_stops_at_first_failure ref_Marshal ref_crc32 ref_range
              freshFile emptyDir [createChange 1 0] [] (createChange 1 0)
              (applyChanges createNewManifest [createChange 1 0]).1
              (ErrTableExists 1)
              (ref_payload [createChange 1 0; createChange 1 0])
              Hpre Hfail Hbuf) as [Hstop _].
  exact Hstop.
Defined.

Lemma applyManifestChange_semantics_witness :
  0 <= pb.Level (createChange 1 0)
  /\ applyManifestChange createNewManifest (createChange 1 0)
     = ({| Levels := [{| level_Tables := {[1]} |}];
           Tables := {[1 := {| Level := 0; Checksum := [] |}]};
           Creations := 1; Deletions := 0 |}, Ok tt)
  /\ applyManifestChange
       {| Levels := [{| level_Tables := {[1]} |}];
          Tables := {[1 := {| Level := 0; Checksum := [] |}]};
          Creations := 1; Deletions := 0 |} (deleteChange 1)
     = ({| Levels := [{| level_Tables := ∅ |}]; Tables := ∅;
           Creations := 1; Deletions := 1 |}, Ok tt).
Proof.
  assert (0 <= pb.Level (createChange 1 0)) as Hlevel by (simpl; lia).
  split; [exact Hlevel|]. split.
  - destruct (applyManifestChange_semantics createNewManifest (createChange 1 0)
                Hlevel) as (Hcreate & _).
    destruct (Hcreate eq_refl) as [_ Hnew].
    rewrite Hnew; [|reflexivity]. vm_compute. reflexivity.
  - destruct (applyManifestChange_semantics
                {| Levels := [{| level_Tables := {[1]} |}];
                   Tables := {[1 := {| Level := 0; Checksum := [] |}]};
                   Creations := 1; Deletions := 0 |} (deleteChange 1)
                ltac:(simpl; lia)) as (_ & Hdelete & _).
    destruct (Hdelete eq_refl) as [_ Hgone].
    rewrite (Hgone {| Level := 0; Checksum := [] |});
      [|reflexivity|eexists; reflexivity].
    vm_compute. reflexivity.
Defined.

Lemma rewrite_keeps_logical_manifest_witness :
  Tables (manifest (rewrite ref_Marshal ref_crc32 ref_range
                      afterScenarioA.1 afterScenarioA.2).1.1)
  = Tables (manifest afterScenarioA.1)
  /\ Creations (manifest (rewrite ref_Marshal ref_crc32 ref_range
                            afterScenarioA.1 afterScenarioA.2).1.1) = 1.
Proof.
  destruct (rewrite_keeps_logical_manifest ref_Marshal ref_crc32 ref_range
              afterScenarioA.1
              (rewrite ref_Marshal ref_crc32 ref_range
                 afterScenarioA.1 afterScenarioA.2).1.1
              afterScenarioA.2
              (rewrite ref_Marshal ref_crc32 ref_range
                 afterScenarioA.1 afterScenarioA.2).1.2)
    as (HT & _ & _ & HC).
  - vm_compute. reflexivity.
  - split; [exact HT|]. rewrite HC. vm_compute. reflexivity.
Defined.

Lemma AddTableMeta_returns_nil_witness :
  (AddTableMeta ref_Marshal ref_crc32 ref_range 0
     {| ID := 2; meta_Checksum := [] |} afterScenarioA.1 afterScenarioA.2).2
  = Ok tt
  /\ exists e,
       (addChanges ref_Marshal ref_crc32 ref_range
          [newCreateChange 2 0 []] afterScenarioA.1 afterScenarioA.2).2
       = Err e.
Proof.
  destruct (AddTableMeta_returns_nil ref_Marshal ref_crc32 ref_range 0
              {| ID := 2; meta_Checksum := [] |}
              afterScenarioA.1 afterScenarioA.2) as [Hnil Herr].
  split.
  - rewrite Hnil. reflexivity.
  - apply Herr. vm_compute. eexists. reflexivity.
Defined.

(** C3, the claim as stated fails: a set that creates table 1 twice is
    rejected, and the first CREATE stays applied to the manifest. *)
Lemma changeSet_not_atomic :
  (applyChangeSet createNewManifest createTwice).2 = Err (ErrTableExists 1)
  /\ (applyChangeSet createNewManifest createTwice).1 <> createNewManifest
  /\ Tables (applyChangeSet createNewManifest createTwice).1 !! 1
     = Some {| Level := 0; Checksum := [] |}.
Proof.
  split; [reflexivity|]. split; [|reflexivity].
  intros H. apply (f_equal Creations) in H. vm_compute in H. discriminate.
Defined.




(** C5, the code at a store left by an interrupted bootstrap (no manifest
    file, a complete rewrite file): the rewrite file is opened for append
    without truncation, so the new manifest file holds the old content,
    then a second header and frame; the store opens, but the file is not
    the header and one frame, and the next open fails on it. *)
Theorem bootstrap_with_leftover_rewrite_file :
  exists fs' mf',
    ref_OpenManifestFile leftoverDir = (fs', Ok mf')
    /\ manifest mf' = createNewManifest
    /\ fs_files fs' !! ManifestFilename
       = Some ((header ++ frame ref_crc32 (ref_payload []))
               ++ header ++ frame ref_crc32 (ref_payload []))
    /\ fs_files fs' !! ManifestFilename
       <> Some (header ++ frame ref_crc32 (ref_payload []))
    /\ (ref_OpenManifestFile (no_faults (Close mf' fs').1.2)).2
       = Err io_ErrUnexpectedEOF.
Proof.
  eexists _, _. split; [vm_compute; reflexivity|].
  split; [reflexivity|]. split; [vm_compute; reflexivity|].
  split; [vm_compute; discriminate|].
  apply (OpenManifestFile_replay_error ref_Marshal ref_Unmarshal ref_crc32
           ref_range _
           (header ++ frames ref_crc32 [ref_payload []]
            ++ PutUint32 1464421921 ++ [x00; x00; x00; x01]
            ++ frame ref_crc32 (ref_payload []))).
  - reflexivity.
  - vm_compute. reflexivity.
  - rewrite (replayStream_short_payload ref_Unmarshal ref_crc32
               ref_crc32_uint32 [ref_payload []] 1464421921
               [x00; x00; x00; x01] (frame ref_crc32 (ref_payload []))
               createNewManifest).
    + reflexivity.
    + apply Forall_singleton. vm_compute. reflexivity.
    + vm_compute. reflexivity.
    + lia.
    + reflexivity.
    + vm_compute. reflexivity.
Qed.

(** * The engine on the reference collaborators *)

Definition ref_options : lsmOptions :=
  {| opt_WorkDir := "db"; MemTableSize := 64 |}.

Definition key1 : list byte := [x6b; x31; x00; x00; x00; x00; x00; x00; x00; x01].
Definition key2 : list byte := [x6b; x32; x00; x00; x00; x00; x00; x00; x00; x05].

(** One sealed memtable (WAL 1, skip list 0) holding [key1], and an empty
    active memtable (WAL 2, skip list 1). *)
Definition lsmA : LSM Z nat unit :=
  {| lsm_memTable := {| wal := 2; sl := 1%nat; maxVersion := 0 |};
     lsm_immutables := [{| wal := 1; sl := 0%nat; maxVersion := 1 |}];
     lsm_levels := {| maxFID := 2; level_state := tt |};
     lsm_option := ref_options |}.

Definition worldA : RefWorld :=
  {| rw_wal := {[1 := [(key1, 1)]; 2 := []]};
     rw_sl := {[0%nat := [(key1, 1)]; 1%nat := []]};
     rw_tables := [];
     rw_flush_faults := [];
     rw_dir := ["00001.wal"; "00002.wal"; "MANIFEST"]%string |}.

(** A directory whose largest WAL id is the largest uint64. *)
Definition lsmW : LSM Z nat unit :=
  {| lsm_memTable := {| wal := 0; sl := 0%nat; maxVersion := 0 |};
     lsm_immutables := [];
     lsm_levels := {| maxFID := 0; level_state := tt |};
     lsm_option := ref_options |}.

Definition worldW : RefWorld :=
  {| rw_wal := {[0 := [(key1, 1)]; 18446744073709551615 := [(key2, 5)]]};
     rw_sl := ∅;
     rw_tables := [];
     rw_flush_faults := [];
     rw_dir := ["00000.wal"; "18446744073709551615.wal"]%string |}.

(** A sealed memtable (WAL 1, skip list 0) in the queue and a full active
    memtable (WAL 2, skip list 1): the next [Set] seals it. The level
    manager takes the first flush and fails the second. *)
Definition lsmB : LSM Z nat unit :=
  {| lsm_memTable := {| wal := 2; sl := 1%nat; maxVersion := 4 |};
     lsm_immutables := [{| wal := 1; sl := 0%nat; maxVersion := 1 |}];
     lsm_levels := {| maxFID := 2; level_state := tt |};
     lsm_option := ref_options |}.

Definition worldB : RefWorld :=
  {| rw_wal := {[1 := [(key1, 1)];
                 2 := [(key1, 2); (key1, 3); (key1, 4); (key2, 4)]]};
     rw_sl := {[0%nat := [(key1, 1)];
                1%nat := [(key2, 4); (key1, 4); (key1, 3); (key1, 2)]]};
     rw_tables := [];
     rw_flush_faults := [false; true];
     rw_dir := ["00001.wal"; "00002.wal"; "MANIFEST"]%string |}.

Definition ref_Set :=
  LSM_Set RefEntry RefWorld Z nat unit ref_OpenWalFile ref_wal_Size
    ref_wal_Write ref_wal_Close ref_NewSkipList ref_sl_Add ref_sl_Close
    ref_levels_flush ref_EstimateWalCodecSize.

Definition ref_Get :=
  Get RefEntry RefWorld Z nat unit ref_sl_Search ref_levels_Get.

Definition ref_recovery :=
  recovery RefEntry RefWorld Z nat unit ref_OpenWalFile ref_wal_Truncate
    ref_wal_Iterate ref_NewSkipList ref_sl_Add ref_sl_Size ref_ParseTs
    ref_ReadDir.

Lemma Set_immutable_queue_witness :
  (lsm_immutables (ref_Set (key2, 5) lsmA worldA).1.1 = []
   /\ exists wa w1,
        ref_wal_Write 2 (key2, 5) worldA = (wa, None)
        /\ ref_sl_Add 1%nat (key2, 5) wa = (w1, None)
        /\ flushed RefWorld Z nat unit ref_wal_Close ref_sl_Close ref_levels_flush
             [{| wal := 1; sl := 0%nat; maxVersion := 1 |}]
             (lsm_levels lsmA) w1
             (lsm_levels (ref_Set (key2, 5) lsmA worldA).1.1)
             (ref_Set (key2, 5) lsmA worldA).1.2)
  /\ exists lsm' w',
       ref_Set (key2, 5) lsmB worldB = (lsm', w', Err (ErrExternal 1))
       /\ lsm_immutables lsm'
          = [{| wal := 1; sl := 0%nat; maxVersion := 1 |};
             {| wal := 2; sl := 1%nat; maxVersion := 4 |}].
Proof.
  split.
  - destruct (proj1 (Set_immutable_queue RefEntry RefWorld Z nat unit
                       ref_OpenWalFile ref_wal_Size ref_wal_Write ref_wal_Close
                       ref_NewSkipList ref_sl_Add ref_sl_Close ref_levels_flush
                       ref_EstimateWalCodecSize (key2, 5) lsmA worldA)
                (ref_Set (key2, 5) lsmA worldA).1.1
                (ref_Set (key2, 5) lsmA worldA).1.2)
      as (Hempty & _ & wa & w1 & Hwr & Hadd & Hfl).
    + vm_compute. reflexivity.
    + split; [exact Hempty|]. exists wa, w1.
      split; [exact Hwr|]. split; [exact Hadd|]. exact Hfl.
  - pose (wa := (ref_wal_Write 3 (key2, 5)
                   (NewMemtable RefWorld Z nat unit ref_OpenWalFile
                      ref_NewSkipList lsmB worldB).1.2).1).
    pose (w1 := (ref_sl_Add 2%nat (key2, 5) wa).1).
    pose (f1 := ref_levels_flush {| wal := 1; sl := 0%nat; maxVersion := 1 |}
                  {| maxFID := 3; level_state := tt |} w1).
    pose (f2 := ref_levels_flush {| wal := 2; sl := 1%nat; maxVersion := 4 |}
                  f1.1.1 f1.1.2).
    destruct (proj2 (Set_immutable_queue RefEntry RefWorld Z nat unit
                       ref_OpenWalFile ref_wal_Size ref_wal_Write ref_wal_Close
                       ref_NewSkipList ref_sl_Add ref_sl_Close ref_levels_flush
                       ref_EstimateWalCodecSize (key2, 5) lsmB worldB)
                wa w1 [{| wal := 1; sl := 0%nat; maxVersion := 1 |}]
                {| wal := 2; sl := 1%nat; maxVersion := 4 |} []
                f1.1.1 f1.1.2 f2.1.1 f2.1.2 (ErrExternal 1))
      as (lsm' & E & Hqueue & _).
    + vm_compute. reflexivity.
    + vm_compute. reflexivity.
    + vm_compute. reflexivity.
    + apply (flushed_cons RefWorld Z nat unit ref_wal_Close ref_sl_Close
               ref_levels_flush _ [] _ w1 f1.1.1 f1.1.2 f1.1.2 f1.1.2).
      * vm_compute. reflexivity.
      * reflexivity.
      * reflexivity.
      * constructor.
    + vm_compute. reflexivity.
    + exists lsm', f2.1.2. split; [exact E|exact Hqueue].
Defined.

(** C4, the claim as worded, at a call whose second flush fails: [Set]
    returns the error, but the queue is not the one before the call (the
    memtable sealed by this call was added to it), the first memtable of
    the queue was flushed to the level manager and is still queued, and
    the entry is in the WAL of the new active memtable: the state is not
    the one the call started from. *)
Lemma Set_flush_failure_changes_state :
  (ref_Set (key2, 5) lsmB worldB).2 = Err (ErrExternal 1)
  /\ lsm_immutables (ref_Set (key2, 5) lsmB worldB).1.1
     = lsm_immutables lsmB ++ [lsm_memTable lsmB]
  /\ lsm_immutables (ref_Set (key2, 5) lsmB worldB).1.1 <> lsm_immutables lsmB
  /\ rw_tables worldB = []
  /\ rw_tables (ref_Set (key2, 5) lsmB worldB).1.2 = [[(key1, 1)]]
  /\ rw_wal worldB !! 3 = None
  /\ rw_wal (ref_Set (key2, 5) lsmB worldB).1.2 !! 3 = Some [(key2, 5)]
  /\ ref_wal_FID (wal (lsm_memTable (ref_Set (key2, 5) lsmB worldB).1.1)) = 3.
Proof.
  split; [vm_compute; reflexivity|]. split; [vm_compute; reflexivity|].
  split; [vm_compute; discriminate|]. split; [reflexivity|].
  split; [vm_compute; reflexivity|]. split; [vm_compute; reflexivity|].
  split; vm_compute; reflexivity.
Defined.

Lemma Get_lookup_order_witness :
  ref_Get key1 lsmA worldA = Ok (Some (key1, 1), None).
Proof.
  apply (proj1 (proj2 (Get_lookup_order RefEntry RefWorld Z nat unit
                         ref_sl_Search ref_levels_Get key1 lsmA worldA)
                  eq_refl)
           [] {| wal := 1; sl := 0%nat; maxVersion := 1 |} [] (key1, 1)).
  - reflexivity.
  - vm_compute. reflexivity.
  - constructor.
Defined.

Lemma recovery_file_ids_witness :
  exists lsm' w' active,
    ref_recovery lsmA worldA
    = (lsm', w', Ok (active, [{| wal := 1; sl := 2%nat; maxVersion := 1 |}]))
    /\ ref_wal_FID (wal active) = 3
    /\ forall id, id ∈ walIds (rw_dir worldA) -> id < ref_wal_FID (wal active).
Proof.
  edestruct (recovery_file_ids RefEntry RefWorld Z nat unit
               ref_OpenWalFile ref_wal_FID ref_wal_Truncate ref_wal_Iterate
               ref_NewSkipList ref_sl_Add ref_sl_Size ref_ParseTs ref_ReadDir
               ref_OpenWalFile_FID lsmA worldA (rw_dir worldA)
               [{| wal := 1; sl := 2%nat; maxVersion := 1 |}])
    as (lsm' & w' & active & E & _ & _ & _ & _ & _ & _ & _ & _ & Hfid & Hgt).
  - reflexivity.
  - repeat constructor.
    + intros _. vm_compute. eexists. reflexivity.
    + intros _. vm_compute. eexists. reflexivity.
    + intros H. vm_compute in H. discriminate.
  - replace (merge_sort Z.le (walIds (rw_dir worldA))) with [1; 2]
      by (vm_compute; reflexivity).
    eapply replayed_keep.
    + eexists _, _, _, _. split; [reflexivity|]. split; [reflexivity|].
      reflexivity.
    + vm_compute. discriminate.
    + eapply replayed_drop.
      * eexists _, _, _, _. split; [reflexivity|]. split; [reflexivity|].
        reflexivity.
      * vm_compute. reflexivity.
      * apply replayed_nil.
  - vm_compute. split; [discriminate|reflexivity].
  - exists lsm', w', active. split; [exact E|]. split.
    + rewrite Hfid. vm_compute. reflexivity.
    + apply Hgt. vm_compute. reflexivity.
Defined.

(** C8, the claim as stated fails: with a WAL file named by the largest
    uint64, the allocator wraps and the new active memtable gets id 0,
    which is not greater than the recovered ids and is the id of a
    recovered memtable. *)
Lemma recovery_fid_wraps :
  exists lsm' w' active imms,
    ref_recovery lsmW worldW = (lsm', w', Ok (active, imms))
    /\ walIds (rw_dir worldW) = [0; 18446744073709551615]
    /\ ref_wal_FID (wal active) = 0
    /\ ~ (forall id, id ∈ walIds (rw_dir worldW) -> id < ref_wal_FID (wal active))
    /\ exists m, m ∈ imms /\ ref_wal_FID (wal m) = ref_wal_FID (wal active).
Proof.
  eexists _, _, _, _. split; [vm_compute; reflexivity|].
  split; [vm_compute; reflexivity|]. split; [reflexivity|]. split.
  - intros H. specialize (H 0). cbn in H.
    assert (0 < 0) as Hlt; [|lia]. apply H.
    replace (walIds (rw_dir worldW)) with [0; 18446744073709551615]
      by (vm_compute; reflexivity).
    left.
  - eexists. split; [left|]. reflexivity.
Defined.

(** * Further properties on concrete inputs *)

Definition ref_range_idMap (s : gset Z) : list Z := elements s.

Lemma ref_range_idMap_perm s : ref_range_idMap s ≡ₚ elements s.
Proof. done. Qed.

Definition ref_addChanges := addChanges ref_Marshal ref_crc32 ref_range.
Definition ref_replayStream := replayStream ref_Unmarshal ref_crc32.

(** A manifest that tracks table 1 at level 0. *)
Definition oneTable : Manifest :=
  (applyChangeSet createNewManifest {| pb.Changes := [createChange 1 0] |}).1.

(** The fresh store after table 1 was added. *)
Definition afterCreate : ManifestFile * FileSys :=
  (ref_addChanges [createChange 1 0] freshFile freshDir).1.

(** A manifest file with one frame and three bytes of a torn append. *)
Definition tornStream : list byte :=
  header ++ frames ref_crc32 [ref_payload [createChange 1 0]] ++ [x00; x00; x01].

Definition tornDir : FileSys :=
  {| fs_files := {[ManifestFilename := tornStream]};
     fs_open := ∅; fs_next := 0; fs_faults := [] |}.

(** A directory whose manifest file is empty. *)
Definition emptyManifestDir : FileSys :=
  {| fs_files := {[ManifestFilename := []]};
     fs_open := ∅; fs_next := 0; fs_faults := [] |}.

(** A directory with the files of tables 1 and 2. *)
Definition tablesDir : FileSys :=
  {| fs_files := {["00001.sst"%string := [x01]; "00002.sst"%string := [x02];
                   ManifestFilename := header]};
     fs_open := ∅; fs_next := 0; fs_faults := [] |}.

Lemma applyChangeSet_keeps_invariant_witness :
  consistent (applyChangeSet createNewManifest createTwice).1
  /\ (applyChangeSet createNewManifest createTwice).2 <> Panic.
Proof.
  apply (applyChangeSet_keeps_invariant createNewManifest createTwice).
  - apply consistent_createNewManifest.
  - repeat constructor; unfold level_uint8; simpl; lia.
Defined.

Lemma addChanges_counts_live_tables_witness :
  Creations (manifest afterCreate.1) - Deletions (manifest afterCreate.1)
  = Z.of_nat (size (Tables (manifest afterCreate.1)))
  /\ 0 <= Deletions (manifest afterCreate.1).
Proof.
  apply (addChanges_counts_live_tables ref_Marshal ref_crc32 ref_range
           [createChange 1 0] freshFile afterCreate.1 freshDir afterCreate.2
           (Ok tt)).
  - vm_compute. reflexivity.
  - vm_compute. discriminate.
  - vm_compute. reflexivity.
  - vm_compute. reflexivity.
  - discriminate.
Defined.

Lemma asChanges_snapshot_witness :
  length (asChanges ref_range oneTable) = 1%nat
  /\ createChange 1 0 ∈ asChanges ref_range oneTable
  /\ deleteChange 1 ∉ asChanges ref_range oneTable.
Proof.
  destruct (asChanges_snapshot ref_range ref_range_perm oneTable)
    as (Hlen & _ & Hin).
  split; [rewrite Hlen; vm_compute; reflexivity|]. split.
  - apply Hin. exists {| Level := 0; Checksum := [] |}.
    repeat split; vm_compute; reflexivity.
  - intros Hdel. apply Hin in Hdel as (tm & _ & Hop & _). discriminate.
Defined.

Lemma replayStream_bad_magic_witness :
  ref_replayStream [x57; x49; x4e] = Err ErrBadMagic.
Proof.
  apply (replayStream_bad_magic ref_Unmarshal ref_crc32 [x57; x49; x4e]).
  left. simpl. lia.
Defined.

Lemma replayStream_wrong_version_witness :
  ref_replayStream (MagicText ++ PutUint32 2 ++ [])
  = Err ErrNotSupportManifestVersion.
Proof.
  apply (replayStream_wrong_version ref_Unmarshal ref_crc32 2 []).
  - lia.
  - discriminate.
Defined.

Lemma replayStream_checksum_mismatch_witness :
  ref_replayStream
    (header ++ frames ref_crc32 []
     ++ PutUint32 (len (ref_payload [createChange 1 0])) ++ PutUint32 0
     ++ ref_payload [createChange 1 0] ++ [])
  = Err ErrBadChecksum.
Proof.
  apply (replayStream_checksum_mismatch ref_Unmarshal ref_crc32 ref_crc32_uint32
           [] createNewManifest (ref_payload [createChange 1 0]) 0 []).
  - constructor.
  - reflexivity.
  - vm_compute. reflexivity.
  - lia.
  - vm_compute. discriminate.
Defined.

Lemma replay_truncation_stable_witness :
  8 <= len (header ++ frames ref_crc32 [ref_payload [createChange 1 0]])
    <= len tornStream
  /\ ref_replayStream
       (take (Z.to_nat (len (header
                             ++ frames ref_crc32 [ref_payload [createChange 1 0]])))
             tornStream)
     = Ok (oneTable,
           len (header ++ frames ref_crc32 [ref_payload [createChange 1 0]])).
Proof.
  apply (replay_truncation_stable ref_Unmarshal ref_crc32 tornStream oneTable
           (len (header ++ frames ref_crc32 [ref_payload [createChange 1 0]]))).
  vm_compute. reflexivity.
Defined.

Lemma OpenManifestFile_rejects_untouched_witness :
  exists fs',
    ref_OpenManifestFile emptyManifestDir = (fs', Err ErrBadMagic)
    /\ fs_files fs' = fs_files emptyManifestDir
    /\ fs_open fs' = fs_open emptyManifestDir.
Proof.
  apply (OpenManifestFile_rejects_untouched ref_Marshal ref_Unmarshal ref_crc32
           ref_range emptyManifestDir [] ErrBadMagic).
  - reflexivity.
  - reflexivity.
  - reflexivity.
  - reflexivity.
Defined.

Lemma OpenManifestFile_twice_witness :
  exists fs2,
    ref_OpenManifestFile (ref_OpenManifestFile tornDir).1
    = (fs2, Ok {| file := fs_next (ref_OpenManifestFile tornDir).1;
                  manifest := oneTable |})
    /\ fs_files fs2 = fs_files (ref_OpenManifestFile tornDir).1.
Proof.
  apply (OpenManifestFile_twice ref_Marshal ref_Unmarshal ref_crc32 ref_range
           tornDir (ref_OpenManifestFile tornDir).1 tornStream
           {| file := 0%nat; manifest := oneTable |}).
  - reflexivity.
  - reflexivity.
  - vm_compute. reflexivity.
Defined.

Lemma oneTable_consistent : consistent (manifest afterCreate.1).
Proof.
  apply (applyChanges_consistent [createChange 1 0] createNewManifest).
  - apply consistent_createNewManifest.
  - repeat constructor; unfold level_uint8; simpl; lia.
  - vm_compute. reflexivity.
Qed.

Lemma rewrite_compacts_file_witness :
  exists buf replayed,
    ref_Marshal {| pb.Changes := asChanges ref_range (manifest afterCreate.1) |}
    = inr buf
    /\ fs_files (rewrite ref_Marshal ref_crc32 ref_range
                         afterCreate.1 afterCreate.2).1.2
       = <[ManifestFilename := header ++ frame ref_crc32 buf]>
           (fs_files afterCreate.2)
    /\ ref_replayStream (header ++ frame ref_crc32 buf)
       = Ok (replayed, len (header ++ frame ref_crc32 buf))
    /\ Tables replayed = Tables (manifest afterCreate.1)
    /\ Creations replayed = Z.of_nat (size (Tables (manifest afterCreate.1)))
    /\ Deletions replayed = 0.
Proof.
  apply (rewrite_compacts_file ref_Marshal ref_Unmarshal ref_crc32 ref_range
           ref_Unmarshal_Marshal ref_crc32_uint32 ref_range_perm ref_Marshal_fits
           afterCreate.1
           (rewrite ref_Marshal ref_crc32 ref_range afterCreate.1 afterCreate.2).1.1
           afterCreate.2
           (rewrite ref_Marshal ref_crc32 ref_range afterCreate.1 afterCreate.2).1.2).
  - apply oneTable_consistent.
  - vm_compute. reflexivity.
  - vm_compute. reflexivity.
  - vm_compute. reflexivity.
Defined.

Lemma addChanges_appends_one_frame_witness :
  fs_files afterCreate.2
  = <[ManifestFilename := (header ++ frame ref_crc32 (ref_payload []))
                          ++ frame ref_crc32 (ref_payload [createChange 1 0])]>
      (fs_files freshDir)
  /\ file afterCreate.1 = file freshFile
  /\ manifest afterCreate.1 = oneTable.
Proof.
  apply (addChanges_appends_one_frame ref_Marshal ref_crc32 ref_range
           [createChange 1 0] freshFile afterCreate.1 freshDir afterCreate.2
           {| d_name := ManifestFilename;
              d_offset := length (header ++ frame ref_crc32 (ref_payload []));
              d_append := true |}
           (header ++ frame ref_crc32 (ref_payload []))
           (ref_payload [createChange 1 0])).
  - vm_compute. reflexivity.
  - vm_compute. reflexivity.
  - left. reflexivity.
  - vm_compute. reflexivity.
  - vm_compute. discriminate.
  - vm_compute. reflexivity.
Defined.

Lemma RevertToManifest_missing_table_witness :
  exists id,
    RevertToManifest ref_range ref_range_idMap ∅
      {| file := 0%nat; manifest := oneTable |} tablesDir
    = (tablesDir, Some (ErrTableNotInDir id))
    /\ is_Some (Tables oneTable !! id)
    /\ id ∉ (∅ : gset Z).
Proof.
  apply (RevertToManifest_missing_table ref_range ref_range_idMap ref_range_perm
           ∅ {| file := 0%nat; manifest := oneTable |} tablesDir 1).
  - eexists. vm_compute. reflexivity.
  - apply not_elem_of_empty.
Defined.

Lemma RevertToManifest_removes_orphans_witness :
  exists fs',
    RevertToManifest ref_range ref_range_idMap {[1; 2]}
      {| file := 0%nat; manifest := oneTable |} tablesDir
    = (fs', None)
    /\ fs_files fs' !! sstFileName 2 = None
    /\ fs_files fs' !! sstFileName 1 = Some [x01]
    /\ fs_files fs' !! ManifestFilename = Some header.
Proof.
  assert (Tables oneTable = {[1 := {| Level := 0; Checksum := [] |}]}) as HT.
  { vm_compute. reflexivity. }
  destruct (RevertToManifest_removes_orphans ref_range ref_range_idMap
              ref_range_perm ref_range_idMap_perm {[1; 2]}
              {| file := 0%nat; manifest := oneTable |} tablesDir)
    as (fs' & E & _ & Hgone & Hkept & Hother).
  - reflexivity.
  - cbn [manifest]. rewrite HT. intros id [tm Htm].
    apply lookup_singleton_Some in Htm as [<- _]. set_solver.
  - intros id Hin. assert (id = 1 \/ id = 2) as [->| ->] by set_solver; lia.
  - cbn [manifest]. rewrite HT. intros id Hin Hnone.
    assert (id = 1 \/ id = 2) as [->| ->] by set_solver.
    + by rewrite lookup_singleton_eq in Hnone.
    + eexists. vm_compute. reflexivity.
  - exists fs'. split; [exact E|]. split; [|split].
    + apply Hgone; [set_solver|]. cbn [manifest]. rewrite HT.
      by apply lookup_singleton_ne.
    + rewrite Hkept; [vm_compute; reflexivity|].
      cbn [manifest]. rewrite HT. rewrite lookup_singleton_eq. by eexists.
    + rewrite Hother; [vm_compute; reflexivity|]. vm_compute. reflexivity.
Defined.

Lemma FID_SSTableFullPath_witness :
  SSTableFullPath "db/" 7 = "db/00007.sst"%string
  /\ utils_FID (SSTableFullPath "db/" 7) = 7
  /\ utils_FID (SSTableFullPath "" 9223372036854775808) = 0.
Proof.
  split; [vm_compute; reflexivity|]. split.
  - exact (proj1 (FID_SSTableFullPath "db/" 7 ltac:(lia))).
  - exact (proj1 (FID_SSTableFullPath "" 9223372036854775808 ltac:(lia))).
Defined.

Lemma LoadSSTIdMap_ids_witness :
  exists idMap,
    LoadSSTIdMap ([{| info_Name := sstFileName 7; info_IsDir := false |};
                   {| info_Name := "MANIFEST"; info_IsDir := false |}], None)
    = Ok idMap
    /\ 7 ∈ idMap.
Proof.
  destruct (proj2 (LoadSSTIdMap_ids
                     [{| info_Name := sstFileName 7; info_IsDir := false |};
                      {| info_Name := "MANIFEST"; info_IsDir := false |}] None)
              eq_refl)
    as (idMap & E & _ & _ & Hfound).
  exists idMap. split; [exact E|]. apply Hfound; [lia|]. by left.
Defined.

Lemma CompareKeys_panics_iff_witness :
  CompareKeys [x00; x00; x00; x00; x00; x00; x00; x01] key1 = Panic.
Proof.
  apply (proj2 (CompareKeys_panics_iff
                  [x00; x00; x00; x00; x00; x00; x00; x01] key1)).
  left. simpl. lia.
Defined.

Lemma CompareKeys_total_order_witness :
  exists r,
    CompareKeys key1 key2 = Ok r
    /\ (r = -1 \/ r = 0 \/ r = 1)
    /\ CompareKeys key2 key1 = Ok (- r)
    /\ (r = 0 <-> key1 = key2).
Proof.
  apply (proj1 (CompareKeys_total_order key1 key2 key1
                  ltac:(simpl; lia) ltac:(simpl; lia) ltac:(simpl; lia))).
Defined.

Lemma CompareKeys_user_key_first_witness :
  CompareKeys ([x61] ++ [x00; x00; x00; x00; x00; x00; x00; x09])
              ([x61; x61] ++ [x00; x00; x00; x00; x00; x00; x00; x01])
  = Ok (-1).
Proof.
  apply (proj2 (CompareKeys_user_key_first [x61] [x61; x61]
                  [x00; x00; x00; x00; x00; x00; x00; x09]
                  [x00; x00; x00; x00; x00; x00; x00; x01]
                  ltac:(discriminate) ltac:(discriminate) eq_refl eq_refl)
           [x61]).
  - discriminate.
  - reflexivity.
Defined.

Lemma recovery_reads_back_wal_names_witness :
  scanWalFiles (walFileName <$> [2; 1]) [] 0 = Ok ([2; 1], max_seen 0 [2; 1])
  /\ filePath "" 2 = "00002.wal"%string
  /\ filePath "./db//" 1 = "db/00001.wal"%string
  /\ filePath "./db//" 1 <> filePath "./db//" 2.
Proof.
  destruct (recovery_reads_back_wal_names "./db//" [2; 1] 0
              ltac:(repeat constructor; lia)) as [Hscan Hinj].
  split; [exact Hscan|]. split; [vm_compute; reflexivity|].
  split; [vm_compute; reflexivity|].
  intros Heq. apply Hinj in Heq; [discriminate| |].
  - right. left.
  - left.
Defined.

(** A listing with a stray file whose name ends in [.wal]. *)
Definition worldStray : RefWorld :=
  {| rw_wal := ∅; rw_sl := ∅; rw_tables := []; rw_flush_faults := [];
     rw_dir := ["00001.wal"; "backup.wal"]%string |}.

(** Collaborators that fail: a WAL that cannot be written, and a WAL that
    cannot be closed. *)
Definition failing_wal_Write (f : Z) (e : RefEntry) (w : RefWorld)
  : RefWorld * option error := (w, Some (ErrExternal 2)).

Definition failing_wal_Close (f : Z) (w : RefWorld) : RefWorld * option error :=
  (w, Some (ErrExternal 3)).

Lemma recovery_panics_on_listing_witness :
  ref_recovery lsmA worldStray = (lsmA, worldStray, Panic).
Proof.
  apply (recovery_panics_on_listing RefEntry RefWorld Z nat unit
           ref_OpenWalFile ref_wal_Truncate ref_wal_Iterate ref_NewSkipList
           ref_sl_Add ref_sl_Size ref_ParseTs ref_ReadDir lsmA worldStray
           ["00001.wal"; "backup.wal"]%string None).
  - reflexivity.
  - right. apply Exists_cons_tl, Exists_cons_hd.
    split; vm_compute; reflexivity.
Defined.

Lemma Set_write_ahead_witness :
  LSM_Set RefEntry RefWorld Z nat unit ref_OpenWalFile ref_wal_Size
    failing_wal_Write ref_wal_Close ref_NewSkipList ref_sl_Add ref_sl_Close
    ref_levels_flush ref_EstimateWalCodecSize (key2, 5) lsmA worldA
  = (lsmA, worldA, Err (ErrExternal 2)).
Proof.
  apply (proj1 (Set_write_ahead RefEntry RefWorld Z nat unit ref_OpenWalFile
                  ref_wal_Size failing_wal_Write ref_wal_Close ref_NewSkipList
                  ref_sl_Add ref_sl_Close ref_levels_flush
                  ref_EstimateWalCodecSize (key2, 5) lsmA worldA)
           worldA (ErrExternal 2)).
  reflexivity.
Defined.

Lemma Set_panics_when_close_fails_witness :
  (LSM_Set RefEntry RefWorld Z nat unit ref_OpenWalFile ref_wal_Size
     ref_wal_Write failing_wal_Close ref_NewSkipList ref_sl_Add ref_sl_Close
     ref_levels_flush ref_EstimateWalCodecSize (key2, 5) lsmA worldA).2
  = Panic.
Proof.
  apply (Set_panics_when_close_fails RefEntry RefWorld Z nat unit
           ref_OpenWalFile ref_wal_Size ref_wal_Write failing_wal_Close
           ref_NewSkipList ref_sl_Add ref_sl_Close ref_levels_flush
           ref_EstimateWalCodecSize (key2, 5) lsmA worldA
           (memTable_set RefEntry RefWorld Z nat ref_wal_Write ref_sl_Add
              (lsm_memTable lsmA) (key2, 5) worldA).1
           [] {| wal := 1; sl := 0%nat; maxVersion := 1 |} []
           (lsm_levels lsmA)
           (memTable_set RefEntry RefWorld Z nat ref_wal_Write ref_sl_Add
              (lsm_memTable lsmA) (key2, 5) worldA).1
           (lsm_levels lsmA)
           (ref_levels_flush {| wal := 1; sl := 0%nat; maxVersion := 1 |}
              (lsm_levels lsmA)
              (memTable_set RefEntry RefWorld Z nat ref_wal_Write ref_sl_Add
                 (lsm_memTable lsmA) (key2, 5) worldA).1).1.2
           (ref_levels_flush {| wal := 1; sl := 0%nat; maxVersion := 1 |}
              (lsm_levels lsmA)
              (memTable_set RefEntry RefWorld Z nat ref_wal_Write ref_sl_Add
                 (lsm_memTable lsmA) (key2, 5) worldA).1).1.2
           (ErrExternal 3)).
  - reflexivity.
  - reflexivity.
  - constructor.
  - reflexivity.
  - reflexivity.
Defined.

Lemma UpdateSkipList_maxVersion_witness :
  maxVersion
    (UpdateSkipList RefEntry RefWorld Z nat ref_wal_Truncate ref_wal_Iterate
       ref_sl_Add ref_ParseTs {| wal := 1; sl := 0%nat; maxVersion := 0 |}
       worldA).1.1
  = max_seen 0 (ref_ParseTs <$> [(key1, 1)]).
Proof.
  apply (UpdateSkipList_maxVersion RefEntry RefWorld Z nat ref_wal_Truncate
           ref_wal_Iterate ref_sl_Add ref_ParseTs
           {| wal := 1; sl := 0%nat; maxVersion := 0 |}
           (UpdateSkipList RefEntry RefWorld Z nat ref_wal_Truncate
              ref_wal_Iterate ref_sl_Add ref_ParseTs
              {| wal := 1; sl := 0%nat; maxVersion := 0 |} worldA).1.1
           worldA
           (UpdateSkipList RefEntry RefWorld Z nat ref_wal_Truncate
              ref_wal_Iterate ref_sl_Add ref_ParseTs
              {| wal := 1; sl := 0%nat; maxVersion := 0 |} worldA).1.2).
  reflexivity.
Defined.

Lemma NewMemtable_successive_ids_witness :
  ref_wal_FID
    (wal (NewMemtable RefWorld Z nat unit ref_OpenWalFile ref_NewSkipList
            (NewMemtable RefWorld Z nat unit ref_OpenWalFile ref_NewSkipList
               lsmA worldA).1.1
            (NewMemtable RefWorld Z nat unit ref_OpenWalFile ref_NewSkipList
               lsmA worldA).1.2).2)
  <> ref_wal_FID
       (wal (NewMemtable RefWorld Z nat unit ref_OpenWalFile ref_NewSkipList
               lsmA worldA).2).
Proof.
  apply (NewMemtable_successive_ids RefWorld Z nat unit ref_OpenWalFile
           ref_wal_FID ref_NewSkipList ref_OpenWalFile_FID lsmA
           (NewMemtable RefWorld Z nat unit ref_OpenWalFile ref_NewSkipList
              lsmA worldA).1.1
           (NewMemtable RefWorld Z nat unit ref_OpenWalFile ref_NewSkipList
              (NewMemtable RefWorld Z nat unit ref_OpenWalFile ref_NewSkipList
                 lsmA worldA).1.1
              (NewMemtable RefWorld Z nat unit ref_OpenWalFile ref_NewSkipList
                 lsmA worldA).1.2).1.1
           worldA
           (NewMemtable RefWorld Z nat unit ref_OpenWalFile ref_NewSkipList
              lsmA worldA).1.2
           (NewMemtable RefWorld Z nat unit ref_OpenWalFile ref_NewSkipList
              (NewMemtable RefWorld Z nat unit ref_OpenWalFile ref_NewSkipList
                 lsmA worldA).1.1
              (NewMemtable RefWorld Z nat unit ref_OpenWalFile ref_NewSkipList
                 lsmA worldA).1.2).1.2).
  - reflexivity.
  - reflexivity.
Defined.

(** A manifest one delete before the rewrite threshold: table 1 is live,
    10001 tables were created and 10000 deleted. *)
Definition beforeThreshold : ManifestFile :=
  {| file := file freshFile;
     manifest := {| Levels := [{| level_Tables := {[1]} |}];
                    Tables := {[1 := {| Level := 0; Checksum := [] |}]};
                    Creations := 10001; Deletions := 10000 |} |}.

Definition afterThreshold : ManifestFile * FileSys :=
  (ref_addChanges [deleteChange 1] beforeThreshold freshDir).1.

Lemma addChanges_rewrites_past_threshold_witness :
  Tables (manifest afterThreshold.1) = ∅
  /\ Creations (manifest afterThreshold.1) = 0
  /\ Deletions (manifest afterThreshold.1) = 0.
Proof.
  destruct (addChanges_rewrites_past_threshold ref_Marshal ref_crc32 ref_range
              [deleteChange 1] beforeThreshold afterThreshold.1
              freshDir afterThreshold.2
              (applyChangeSet (manifest beforeThreshold)
                 {| pb.Changes := [deleteChange 1] |}).1)
    as (HT & _ & HC & HD & _).
  - vm_compute. reflexivity.
  - vm_compute. reflexivity.
  - vm_compute. reflexivity.
  - vm_compute. split; [discriminate|reflexivity].
  - vm_compute. reflexivity.
  - vm_compute. reflexivity.
  - split; [|split].
    + rewrite HT. vm_compute. reflexivity.
    + rewrite HC. vm_compute. reflexivity.
    + exact HD.
Defined.

Lemma level_above_255_leaves_stale_id_witness :
  exists m1 m2,
    applyManifestChange createNewManifest (createChange 1 256) = (m1, Ok tt)
    /\ Level <$> Tables m1 !! 1 = Some (256 mod 256)
    /\ applyManifestChange m1 (deleteChange 1) = (m2, Ok tt)
    /\ Tables m2 !! 1 = None
    /\ 1 ∈ level_ids m2 (Z.to_nat 256).
Proof.
  apply (level_above_255_leaves_stale_id createNewManifest 1 256 []).
  - reflexivity.
  - lia.
Defined.
